(** * Spirit: the Hamiltonian parameter interface (core/src/Spirit/Hamiltonian.cpp)

    A shallow embedding of the C API that sets and reads the parameters of
    the Hamiltonian of a spin system ("image"), and the properties of it
    that the specification states.

    Conventions of the embedding.
    - [float] and [scalar] values are real numbers: arithmetic is exact and
      the casts between [float] and [scalar] are the identity.
    - An [int] is a [Z]; the conversion of a container size to [int] wraps.
    - A [std::vector] is a list, a C array reached through a pointer is the
      list (or triple) of the cells behind the pointer.
    - The API functions run in a monad over the [World]: a call returns, or
      raises a C++ exception, or has undefined behaviour (a read or a write
      outside an array, an invalid iterator range).
    - Every [Lock], [Unlock] and every access to a field of a Hamiltonian is
      recorded, in program order, in a ghost trace of the world. *)

From Stdlib Require Import Reals Lra ZArith Lia.
From stdpp Require Import gmap strings list pretty.

Local Open Scope Z_scope.
Local Open Scope string_scope.
Local Open Scope list_scope.
Local Open Scope R_scope.

(** ** Fields and vectors (engine/Vectormath_Defines.hpp) *)

Abbreviation scalar := R.

Record Vector3 := mkVector3 { vx : scalar; vy : scalar; vz : scalar }.

Definition scale (c : scalar) (v : Vector3) : Vector3 :=
  mkVector3 (c * vx v) (c * vy v) (c * vz v).

Definition squaredNorm (v : Vector3) : scalar :=
  vx v * vx v + vy v * vy v + vz v * vz v.

(** [Vector3::normalize()] of Eigen: the vector is divided by its norm; a
    vector of squared norm zero is left as it is.  The division is that of
    the real numbers: the rounding of the machine arithmetic is not
    modelled, and the properties below say where a normalised vector is
    stored and read, not what its norm is. *)
Definition normalize (v : Vector3) : Vector3 :=
  let z := squaredNorm v in
  if Rlt_dec 0 z then scale (/ sqrt z) v else v.

(** A [float[3]] argument. *)
Definition float3 := (R * R * R)%type.

(** [Vector3 v{a[0], a[1], a[2]}]. *)
Definition Vector3_of (a : float3) : Vector3 :=
  mkVector3 (a.1.1) (a.1.2) (a.2).

Definition float3_of (v : Vector3) : float3 := (vx v, vy v, vz v).

(** Modelled from the spec: the type [Pair] is declared outside the sources
    at hand; a pair is "an ordered reference to two site indices plus a
    periodic-image translation vector". *)
Record Pair := mkPair { pair_i : Z; pair_j : Z; pair_translations : Z * Z * Z }.

Definition scalarfield := list scalar.
Definition intfield := list Z.
Definition vectorfield := list Vector3.
Definition pairfield := list Pair.

(** ** Machine integers *)

Definition INT_MAX : Z := 2147483647.
Definition INT_MIN : Z := -2147483648.

Definition in_int (z : Z) : Prop := (INT_MIN <= z <= INT_MAX)%Z.

(** Conversion of a [size_t] to [int]: reduction modulo [2^32] into the
    range of [int]. *)
Definition int_of_size (n : nat) : Z :=
  ((Z.of_nat n + 2147483648) mod 4294967296 - 2147483648)%Z.

(** ** Exceptions and results *)

Inductive exception := Exception (what : string).

Inductive result (A : Type) :=
| Ok (a : A)
| Raise (e : exception).
Arguments Ok {A} a.
Arguments Raise {A} e.

(** [std::vector<T> v(n)] and [std::vector<T> v(n, x)] with an [int] count:
    the count is converted to [size_t], and a negative one, now larger than
    [max_size()], makes the constructor throw [std::length_error]. *)
Definition vector_fill {A : Type} (n : Z) (x : A) : result (list A) :=
  if (n <? 0)%Z then Raise (Exception "std::length_error")
  else Ok (replicate (Z.to_nat n) x).

(** [std::vector<T>(first, first + n)] over the array [first]: the range is
    valid when [0 <= n] and the array has [n] cells; otherwise the behaviour
    is undefined ([None]). *)
Definition vector_range {A : Type} (first : list A) (n : Z) : option (list A) :=
  if (n <? 0)%Z then None
  else if (Z.of_nat (length first) <? n)%Z then None
  else Some (take (Z.to_nat n) first).

(** [a[i] = x] on a C array: undefined outside the array. *)
Definition array_store {A : Type} (a : list A) (i : nat) (x : A) : option (list A) :=
  if decide (i < length a)%nat then Some (<[i := x]> a) else None.

(** [for (i = 0; i < n; ++i) dst[i] = src[i]], starting at index [i]:
    undefined as soon as [src] or [dst] is too short. *)
Fixpoint copy_loop {A : Type} (n : nat) (i : nat) (src dst : list A) : option (list A) :=
  match n with
  | O => Some dst
  | S n' =>
      match src !! i with
      | None => None
      | Some x =>
          match array_store dst i x with
          | None => None
          | Some dst' => copy_loop n' (S i) src dst'
          end
      end
  end.

(** ** Logging (utility/Logging.hpp, interface/Interface_Log.h) *)

(** [Parameter] is a reserved word: the level is [Parameter_level] here. *)
Inductive Log_Level := All | Error | Warning | Parameter_level | Info | Debug.
Inductive Log_Sender := API | UI.

Record LogEntry := mkLogEntry {
  level : Log_Level;
  sender : Log_Sender;
  message : string;
  entry_idx_image : Z;
  entry_idx_chain : Z
}.

(** ** The Hamiltonians *)

(** The collaborators of the interface that live outside the sources at
    hand: the geometry of an image, the data a Heisenberg Hamiltonian
    derives from its parameters, the Bohr magneton and the formatting of a
    floating-point number in a log message. *)
Class Collaborators := {
  Geometry : Type;
  n_cell_atoms : Geometry -> Z;
  Derived_Data : Type;
  mu_B : R;
  mu_B_pos : 0 < mu_B;
  fmt_scalar : R -> string
}.

(** [fmt::format("{}", b)] and [fmt::format("{}", n)]. *)
Definition fmt_bool (b : bool) : string := if b then "true" else "false".
Definition fmt_int (n : Z) : string := pretty n.

(** engine/Hamiltonian_Gaussian.hpp *)
Record Hamiltonian_Gaussian := mkGaussian {
  n_gaussians : Z;
  amplitude : list scalar;
  width : list scalar;
  center : list Vector3
}.

(** An image is named by its indices [(idx_image, idx_chain)]. *)
Abbreviation image_ref := (Z * Z)%type.

Section Model.
Context {collaborators : Collaborators}.

(** The fields of [Engine::Hamiltonian_Heisenberg] that the interface reads
    and writes.  Modelled from the spec: the generated pair lists and the
    cached list of active energy contributions, which the class recomputes
    from the parameters, are the one field [derived]. *)
Record Hamiltonian_Heisenberg := mkHeisenberg {
  mu_s : scalarfield;
  external_field_magnitude : scalar;
  external_field_normal : Vector3;
  anisotropy_indices : intfield;
  anisotropy_magnitudes : scalarfield;
  anisotropy_normals : vectorfield;
  exchange_shell_magnitudes : scalarfield;
  exchange_pairs_in : pairfield;
  exchange_magnitudes_in : scalarfield;
  dmi_shell_magnitudes : scalarfield;
  dmi_shell_chirality : Z;
  dmi_pairs_in : pairfield;
  dmi_magnitudes_in : scalarfield;
  dmi_normals_in : vectorfield;
  ddi_cutoff_radius : scalar;
  ddi_pairs : pairfield;
  ddi_magnitudes : scalarfield;
  ddi_normals : vectorfield;
  derived : Derived_Data
}.

Inductive Hamiltonian_Variant :=
| Heisenberg (ham : Hamiltonian_Heisenberg)
| Gaussian (ham : Hamiltonian_Gaussian).

(** [Engine::Hamiltonian]: the boundary conditions belong to the base
    class. *)
Record Hamiltonian := mkHamiltonian {
  boundary_conditions : bool * bool * bool;
  variant : Hamiltonian_Variant
}.

(** The virtual [Name()]. *)
Definition Name (h : Hamiltonian) : string :=
  match variant h with
  | Heisenberg _ => "Heisenberg"
  | Gaussian _ => "Gaussian"
  end.

(** [Data::Spin_System], an image. *)
Record Spin_System := mkSpin_System {
  nos : Z;
  geometry : Geometry;
  hamiltonian : Hamiltonian
}.

(** ** The world *)

Inductive Event :=
| EvLock (image : image_ref)
| EvUnlock (image : image_ref)
| EvRead (image : image_ref)
| EvWrite (image : image_ref).

(** A fault: the exception that was raised and the images of the state as
    they were when it was raised. *)
Record Fault := mkFault {
  raised : exception;
  images_then : gmap (Z * Z) Spin_System
}.

(** The [State], the log, and two ghost fields: the trace of the events
    and the faults raised so far. *)
Record World := mkWorld {
  images : gmap (Z * Z) Spin_System;
  log : list LogEntry;
  trace : list Event;
  faults : list Fault
}.

Definition emit (e : Event) (w : World) : World :=
  mkWorld (images w) (log w) (trace w ++ [e]) (faults w).

Definition store_image (image : image_ref) (s : Spin_System) (w : World) : World :=
  mkWorld (<[image := s]> (images w)) (log w) (trace w) (faults w).

Definition record_fault (e : exception) (w : World) : World :=
  mkWorld (images w) (log w) (trace w) (faults w ++ [mkFault e (images w)]).

(** ** The monad of the interface *)

Inductive Outcome (A : Type) :=
| Ret (a : A) (w : World)
| Thrown (e : exception) (w : World)
| Undefined.
Arguments Ret {A} a w.
Arguments Thrown {A} e w.
Arguments Undefined {A}.

Definition M (A : Type) := World -> Outcome A.

Definition ret {A} (a : A) : M A := fun w => Ret a w.

Definition bind {A B} (m : M A) (f : A -> M B) : M B :=
  fun w =>
    match m w with
    | Ret a w' => f a w'
    | Thrown e w' => Thrown e w'
    | Undefined => Undefined
    end.

(** [throw e] *)
Definition throw {A} (e : exception) : M A :=
  fun w => Thrown e (record_fault e w).

Definition undefined {A} : M A := fun _ => Undefined.

(** [try { m } catch( ... ) { handler }] *)
Definition try_catch {A} (m : M A) (handler : exception -> M A) : M A :=
  fun w =>
    match m w with
    | Ret a w' => Ret a w'
    | Thrown e w' => handler e w'
    | Undefined => Undefined
    end.

Definition lift_result {A} (r : result A) : M A :=
  match r with
  | Ok a => ret a
  | Raise e => throw e
  end.

Definition lift_defined {A} (o : option A) : M A :=
  match o with
  | Some a => ret a
  | None => undefined
  end.

Notation "x <- m ; k" := (bind m (fun x => k))
  (at level 100, m at next level, right associativity, only parsing).
Notation "m ;; k" := (bind m (fun _ => k))
  (at level 100, right associativity, only parsing).
Notation "'try' m 'catch' h" := (try_catch m h)
  (at level 100, m at level 100, h at level 9, only parsing).

(** ** Assignments to the fields of a Heisenberg Hamiltonian *)

Definition set_mu_s (v : scalarfield) (h : Hamiltonian_Heisenberg) :=
  let '(mkHeisenberg a b c d e f g i j k l m n o p q r s t) := h in
  mkHeisenberg v b c d e f g i j k l m n o p q r s t.
Definition set_external_field_magnitude (v : scalar) (h : Hamiltonian_Heisenberg) :=
  let '(mkHeisenberg a b c d e f g i j k l m n o p q r s t) := h in
  mkHeisenberg a v c d e f g i j k l m n o p q r s t.
Definition set_external_field_normal (v : Vector3) (h : Hamiltonian_Heisenberg) :=
  let '(mkHeisenberg a b c d e f g i j k l m n o p q r s t) := h in
  mkHeisenberg a b v d e f g i j k l m n o p q r s t.
Definition set_anisotropy_indices (v : intfield) (h : Hamiltonian_Heisenberg) :=
  let '(mkHeisenberg a b c d e f g i j k l m n o p q r s t) := h in
  mkHeisenberg a b c v e f g i j k l m n o p q r s t.
Definition set_anisotropy_magnitudes (v : scalarfield) (h : Hamiltonian_Heisenberg) :=
  let '(mkHeisenberg a b c d e f g i j k l m n o p q r s t) := h in
  mkHeisenberg a b c d v f g i j k l m n o p q r s t.
Definition set_anisotropy_normals (v : vectorfield) (h : Hamiltonian_Heisenberg) :=
  let '(mkHeisenberg a b c d e f g i j k l m n o p q r s t) := h in
  mkHeisenberg a b c d e v g i j k l m n o p q r s t.
Definition set_exchange_shell_magnitudes (v : scalarfield) (h : Hamiltonian_Heisenberg) :=
  let '(mkHeisenberg a b c d e f g i j k l m n o p q r s t) := h in
  mkHeisenberg a b c d e f v i j k l m n o p q r s t.
Definition set_exchange_pairs_in (v : pairfield) (h : Hamiltonian_Heisenberg) :=
  let '(mkHeisenberg a b c d e f g i j k l m n o p q r s t) := h in
  mkHeisenberg a b c d e f g v j k l m n o p q r s t.
Definition set_exchange_magnitudes_in (v : scalarfield) (h : Hamiltonian_Heisenberg) :=
  let '(mkHeisenberg a b c d e f g i j k l m n o p q r s t) := h in
  mkHeisenberg a b c d e f g i v k l m n o p q r s t.
Definition set_dmi_shell_magnitudes (v : scalarfield) (h : Hamiltonian_Heisenberg) :=
  let '(mkHeisenberg a b c d e f g i j k l m n o p q r s t) := h in
  mkHeisenberg a b c d e f g i j v l m n o p q r s t.
Definition set_dmi_shell_chirality (v : Z) (h : Hamiltonian_Heisenberg) :=
  let '(mkHeisenberg a b c d e f g i j k l m n o p q r s t) := h in
  mkHeisenberg a b c d e f g i j k v m n o p q r s t.
Definition set_dmi_pairs_in (v : pairfield) (h : Hamiltonian_Heisenberg) :=
  let '(mkHeisenberg a b c d e f g i j k l m n o p q r s t) := h in
  mkHeisenberg a b c d e f g i j k l v n o p q r s t.
Definition set_dmi_magnitudes_in (v : scalarfield) (h : Hamiltonian_Heisenberg) :=
  let '(mkHeisenberg a b c d e f g i j k l m n o p q r s t) := h in
  mkHeisenberg a b c d e f g i j k l m v o p q r s t.
Definition set_dmi_normals_in (v : vectorfield) (h : Hamiltonian_Heisenberg) :=
  let '(mkHeisenberg a b c d e f g i j k l m n o p q r s t) := h in
  mkHeisenberg a b c d e f g i j k l m n v p q r s t.
Definition set_ddi_pairs (v : pairfield) (h : Hamiltonian_Heisenberg) :=
  let '(mkHeisenberg a b c d e f g i j k l m n o p q r s t) := h in
  mkHeisenberg a b c d e f g i j k l m n o p v r s t.
Definition set_ddi_magnitudes (v : scalarfield) (h : Hamiltonian_Heisenberg) :=
  let '(mkHeisenberg a b c d e f g i j k l m n o p q r s t) := h in
  mkHeisenberg a b c d e f g i j k l m n o p q v s t.
Definition set_ddi_normals (v : vectorfield) (h : Hamiltonian_Heisenberg) :=
  let '(mkHeisenberg a b c d e f g i j k l m n o p q r s t) := h in
  mkHeisenberg a b c d e f g i j k l m n o p q r v t.
Definition set_derived (v : Derived_Data) (h : Hamiltonian_Heisenberg) :=
  let '(mkHeisenberg a b c d e f g i j k l m n o p q r s t) := h in
  mkHeisenberg a b c d e f g i j k l m n o p q r s v.

Definition set_variant (v : Hamiltonian_Variant) (h : Hamiltonian) : Hamiltonian :=
  mkHamiltonian (boundary_conditions h) v.
Definition set_boundary_conditions (bc : bool * bool * bool) (h : Hamiltonian) : Hamiltonian :=
  mkHamiltonian bc (variant h).
Definition set_hamiltonian (h : Hamiltonian) (s : Spin_System) : Spin_System :=
  mkSpin_System (nos s) (geometry s) h.

(** ** The engine behind the interface *)

(** The three dipolar lists. *)
Definition ddi_lists := (pairfield * scalarfield * vectorfield)%type.

Definition set_ddi_lists (l : ddi_lists) (h : Hamiltonian_Heisenberg) :=
  set_ddi_normals l.2 (set_ddi_magnitudes l.1.2 (set_ddi_pairs l.1.1 h)).

(** What [Update_Interactions] leaves behind: the derived data and the
    dipolar lists. *)
Definition regenerate (r : Derived_Data * ddi_lists) (h : Hamiltonian_Heisenberg) :=
  set_derived r.1 (set_ddi_lists r.2 h).

(** Modelled from the spec: the pair generator of [engine/Neighbours.hpp]
    and the two methods of the Heisenberg Hamiltonian that recompute its
    derived data are not in the sources at hand.  The generator is a
    function of the geometry and the radius ("deterministic and
    order-stable for fixed inputs").  A method returns what it leaves
    behind and the exception it raised, if any:
    [Update_Energy_Contributions] refreshes the cached list of active
    energy contributions ("Update the list of different contributions",
    says the interface where it calls it), which is part of the derived
    data;
    [Update_Interactions] regenerates the pair data, which are the
    generated lists among the derived data and the dipolar lists ("pair
    lists and cached contribution lists are derived data, recomputed on
    every relevant mutation").  Any of them may fail. *)
Class Engine := {
  Get_Pairs_in_Radius : Geometry -> scalar -> result pairfield;
  DDI_from_Pair : Geometry -> Pair -> result (scalar * Vector3);
  Update_Energy_Contributions :
    Geometry -> Hamiltonian_Heisenberg -> Derived_Data * option exception;
  Update_Interactions :
    Geometry -> Hamiltonian_Heisenberg -> (Derived_Data * ddi_lists) * option exception
}.
Context {engine : Engine}.

(** ** Primitive operations *)

(** Modelled from the spec: [from_indices] is not in the sources at hand; it
    is the "lookup by image/chain index" of the target image, and a failed
    resolution is an internal fault, an exception. *)
Definition from_indices (idx_image idx_chain : Z) : M image_ref :=
  fun w =>
    match images w !! (idx_image, idx_chain) with
    | Some _ => Ret (idx_image, idx_chain) w
    | None => throw (Exception "from_indices: no such image") w
    end.

(** Modelled from the spec: [Lock] and [Unlock] of the image acquire and
    release its single exclusive lock. *)
Definition Lock (image : image_ref) : M unit :=
  fun w => Ret tt (emit (EvLock image) w).

Definition Unlock (image : image_ref) : M unit :=
  fun w => Ret tt (emit (EvUnlock image) w).

(** [Log( level, sender, message, idx_image, idx_chain )] *)
Definition Log (l : Log_Level) (s : Log_Sender) (msg : string)
    (idx_image idx_chain : Z) : M unit :=
  fun w =>
    Ret tt (mkWorld (images w)
              (log w ++ [mkLogEntry l s msg idx_image idx_chain])
              (trace w) (faults w)).

(** Modelled from the spec: [spirit_handle_exception_api] is not in the
    sources at hand; the fault is "converted to a logged error tagged with
    the originating image/chain identity, and suppressed". *)
Definition spirit_handle_exception_api (idx_image idx_chain : Z)
    (e : exception) : M unit :=
  let 'Exception what := e in Log Error API what idx_image idx_chain.

(** [*image], for the fields of the image that are not its Hamiltonian. *)
Definition deref (image : image_ref) : M Spin_System :=
  fun w =>
    match images w !! image with
    | Some s => Ret s w
    | None => Undefined
    end.

(** A read of [image->hamiltonian]. *)
Definition read_hamiltonian {A} (image : image_ref) (f : Hamiltonian -> A) : M A :=
  fun w =>
    match images w !! image with
    | Some s => Ret (f (hamiltonian s)) (emit (EvRead image) w)
    | None => Undefined
    end.

(** An assignment to a field of [image->hamiltonian]. *)
Definition write_hamiltonian (image : image_ref)
    (f : Hamiltonian -> Hamiltonian) : M unit :=
  fun w =>
    match images w !! image with
    | Some s =>
        Ret tt (emit (EvWrite image)
                  (store_image image (set_hamiltonian (f (hamiltonian s)) s) w))
    | None => Undefined
    end.

(** [ham->field], where [ham] is [image->hamiltonian.get()] cast to a
    pointer to [Engine::Hamiltonian_Heisenberg]: the access through the cast
    pointer is undefined on another variant. *)
Definition read_heisenberg {A} (image : image_ref)
    (f : Hamiltonian_Heisenberg -> A) : M A :=
  fun w =>
    match images w !! image with
    | Some s =>
        match variant (hamiltonian s) with
        | Heisenberg ham => Ret (f ham) (emit (EvRead image) w)
        | Gaussian _ => Undefined
        end
    | None => Undefined
    end.

(** [ham->field = value] *)
Definition write_heisenberg (image : image_ref)
    (f : Hamiltonian_Heisenberg -> Hamiltonian_Heisenberg) : M unit :=
  fun w =>
    match images w !! image with
    | Some s =>
        match variant (hamiltonian s) with
        | Heisenberg ham =>
            Ret tt (emit (EvWrite image)
                      (store_image image
                         (set_hamiltonian
                            (set_variant (Heisenberg (f ham)) (hamiltonian s)) s) w))
        | Gaussian _ => Undefined
        end
    | None => Undefined
    end.

(** [ham->Update_Energy_Contributions()] and [ham->Update_Interactions()]:
    the method rewrites in place what it recomputes, as [install] says, and
    may raise. *)
Definition call_heisenberg {D : Type} (image : image_ref)
    (method : Geometry -> Hamiltonian_Heisenberg -> D * option exception)
    (install : D -> Hamiltonian_Heisenberg -> Hamiltonian_Heisenberg)
    : M unit :=
  fun w =>
    match images w !! image with
    | Some s =>
        match variant (hamiltonian s) with
        | Heisenberg ham =>
            let '(d, fault) := method (geometry s) ham in
            let w' :=
              emit (EvWrite image)
                (store_image image
                   (set_hamiltonian
                      (set_variant (Heisenberg (install d ham)) (hamiltonian s)) s) w) in
            match fault with
            | None => Ret tt w'
            | Some e => throw e w'
            end
        | Gaussian _ => Undefined
        end
    | None => Undefined
    end.

(** ** Set Parameters *)

Definition Hamiltonian_Set_Boundary_Conditions (periodical : bool * bool * bool)
    (idx_image idx_chain : Z) : M unit :=
  try (
    image <- from_indices idx_image idx_chain;
    Lock image;;
    (try (
       write_hamiltonian image
         (fun h => let '(_, b1, b2) := boundary_conditions h in
                   set_boundary_conditions (periodical.1.1, b1, b2) h);;
       write_hamiltonian image
         (fun h => let '(b0, _, b2) := boundary_conditions h in
                   set_boundary_conditions (b0, periodical.1.2, b2) h);;
       write_hamiltonian image
         (fun h => let '(b0, b1, _) := boundary_conditions h in
                   set_boundary_conditions (b0, b1, periodical.2) h)
     ) catch (spirit_handle_exception_api idx_image idx_chain));;
    Unlock image;;
    Log Info API
      ("Set boundary conditions to " +:+ fmt_bool periodical.1.1 +:+ " "
         +:+ fmt_bool periodical.1.2 +:+ " " +:+ fmt_bool periodical.2)
      idx_image idx_chain
  ) catch (spirit_handle_exception_api idx_image idx_chain).

Definition Hamiltonian_Set_mu_s (mu_s' : R) (idx_image idx_chain : Z) : M unit :=
  try (
    image <- from_indices idx_image idx_chain;
    Lock image;;
    (try (
       name <- read_hamiltonian image Name;
       if String.eqb name "Heisenberg" then
         write_heisenberg image
           (fun ham => set_mu_s (map (fun _ => mu_s') (mu_s ham)) ham);;
         Log Info API ("Set mu_s to " +:+ fmt_scalar mu_s') idx_image idx_chain
       else
         name' <- read_hamiltonian image Name;
         Log Warning API ("mu_s cannot be set on " +:+ name') idx_image idx_chain
     ) catch (spirit_handle_exception_api idx_image idx_chain));;
    Unlock image
  ) catch (spirit_handle_exception_api idx_image idx_chain).

Definition fmt_direction (what : string) (magnitude : R) (normal : float3) : string :=
  what +:+ fmt_scalar magnitude +:+ ", direction (" +:+ fmt_scalar normal.1.1 +:+ ", "
    +:+ fmt_scalar normal.1.2 +:+ ", " +:+ fmt_scalar normal.2 +:+ ")".

Definition Hamiltonian_Set_Field (magnitude : R) (normal : float3)
    (idx_image idx_chain : Z) : M unit :=
  try (
    image <- from_indices idx_image idx_chain;
    Lock image;;
    (try (
       name <- read_hamiltonian image Name;
       if String.eqb name "Heisenberg" then
         let new_normal := normalize (Vector3_of normal) in
         write_heisenberg image (set_external_field_magnitude (magnitude * mu_B));;
         write_heisenberg image (set_external_field_normal new_normal);;
         call_heisenberg image Update_Energy_Contributions set_derived;;
         Log Info API (fmt_direction "Set external field to " magnitude normal)
           idx_image idx_chain
       else
         name' <- read_hamiltonian image Name;
         Log Warning API ("External field cannot be set on " +:+ name')
           idx_image idx_chain
     ) catch (spirit_handle_exception_api idx_image idx_chain));;
    Unlock image
  ) catch (spirit_handle_exception_api idx_image idx_chain).

(** [for (int i = 0; i < n_cell_atoms; ++i)
       { new_indices[i] = i; new_magnitudes[i] = magnitude; }],
    from index [i] on, with [n] iterations to go. *)
Fixpoint anisotropy_loop (n i : nat) (magnitude : R)
    (new_indices : intfield) (new_magnitudes : scalarfield)
    : intfield * scalarfield :=
  match n with
  | O => (new_indices, new_magnitudes)
  | S n' =>
      anisotropy_loop n' (S i) magnitude
        (<[i := Z.of_nat i]> new_indices) (<[i := magnitude]> new_magnitudes)
  end.

Definition Hamiltonian_Set_Anisotropy (magnitude : R) (normal : float3)
    (idx_image idx_chain : Z) : M unit :=
  try (
    image <- from_indices idx_image idx_chain;
    Lock image;;
    (try (
       name <- read_hamiltonian image Name;
       if String.eqb name "Heisenberg" then
         s <- deref image;
         let nos := nos s in
         let n_cell_atoms := n_cell_atoms (geometry s) in
         new_indices <- lift_result (vector_fill n_cell_atoms 0%Z);
         new_magnitudes <- lift_result (vector_fill n_cell_atoms 0);
         let '(new_indices, new_magnitudes) :=
           anisotropy_loop (Z.to_nat n_cell_atoms) 0 magnitude
             new_indices new_magnitudes in
         let new_normal := normalize (Vector3_of normal) in
         new_normals <- lift_result (vector_fill nos new_normal);
         write_heisenberg image (set_anisotropy_indices new_indices);;
         write_heisenberg image (set_anisotropy_magnitudes new_magnitudes);;
         write_heisenberg image (set_anisotropy_normals new_normals);;
         call_heisenberg image Update_Energy_Contributions set_derived;;
         Log Info API (fmt_direction "Set anisotropy to " magnitude normal)
           idx_image idx_chain
       else
         name' <- read_hamiltonian image Name;
         Log Warning API ("Anisotropy cannot be set on " +:+ name')
           idx_image idx_chain
     ) catch (spirit_handle_exception_api idx_image idx_chain));;
    Unlock image
  ) catch (spirit_handle_exception_api idx_image idx_chain).

(** [message = fmt::format(what, n_shells);
     if (n_shells > 0) message += fmt::format(first, a[0]);] *)
Definition shells_message (what first : string) (n_shells : Z) (a : list R)
    : M string :=
  let message := what +:+ fmt_int n_shells +:+ " shells" in
  if (0 <? n_shells)%Z then
    a0 <- lift_defined (a !! 0%nat);
    ret (message +:+ first +:+ fmt_scalar a0)
  else ret message.

(** The text of that message. *)
Definition shells_text (what first : string) (n_shells : Z) (a : list R) : string :=
  let message := what +:+ fmt_int n_shells +:+ " shells" in
  if (0 <? n_shells)%Z then
    match a !! 0%nat with
    | Some a0 => message +:+ first +:+ fmt_scalar a0
    | None => message
    end
  else message.

Definition Hamiltonian_Set_Exchange (n_shells : Z) (jij : list R)
    (idx_image idx_chain : Z) : M unit :=
  try (
    image <- from_indices idx_image idx_chain;
    Lock image;;
    (try (
       name <- read_hamiltonian image Name;
       if String.eqb name "Heisenberg" then
         shells <- lift_defined (vector_range jij n_shells);
         write_heisenberg image (set_exchange_shell_magnitudes shells);;
         write_heisenberg image (set_exchange_pairs_in []);;
         write_heisenberg image (set_exchange_magnitudes_in []);;
         call_heisenberg image Update_Interactions regenerate;;
         message <- shells_message "Set exchange to " " Jij[0] = " n_shells jij;
         Log Info API message idx_image idx_chain
       else
         name' <- read_hamiltonian image Name;
         Log Warning API ("Exchange cannot be set on " +:+ name') idx_image idx_chain
     ) catch (spirit_handle_exception_api idx_image idx_chain));;
    Unlock image
  ) catch (spirit_handle_exception_api idx_image idx_chain).

Definition Hamiltonian_Set_DMI (n_shells : Z) (dij : list R) (chirality : Z)
    (idx_image idx_chain : Z) : M unit :=
  try (
    image <- from_indices idx_image idx_chain;
    Lock image;;
    (try (
       name <- read_hamiltonian image Name;
       if String.eqb name "Heisenberg" then
         shells <- lift_defined (vector_range dij n_shells);
         write_heisenberg image (set_dmi_shell_magnitudes shells);;
         write_heisenberg image (set_dmi_shell_chirality chirality);;
         write_heisenberg image (set_dmi_pairs_in []);;
         write_heisenberg image (set_dmi_magnitudes_in []);;
         write_heisenberg image (set_dmi_normals_in []);;
         call_heisenberg image Update_Interactions regenerate;;
         message <- shells_message "Set dmi to " " Dij[0] = " n_shells dij;
         Log Info API message idx_image idx_chain
       else
         name' <- read_hamiltonian image Name;
         Log Warning API ("DMI cannot be set on " +:+ name') idx_image idx_chain
     ) catch (spirit_handle_exception_api idx_image idx_chain));;
    Unlock image
  ) catch (spirit_handle_exception_api idx_image idx_chain).

(** [for (auto& pair : pairs)
       { DDI_from_Pair(geometry, pair, magnitude, normal);
         magnitudes.push_back(magnitude); normals.push_back(normal); }] *)
Fixpoint ddi_loop (geom : Geometry) (pairs : pairfield)
    (magnitudes : scalarfield) (normals : vectorfield)
    : result (scalarfield * vectorfield) :=
  match pairs with
  | [] => Ok (magnitudes, normals)
  | p :: pairs' =>
      match DDI_from_Pair geom p with
      | Ok (magnitude, normal) =>
          ddi_loop geom pairs' (magnitudes ++ [magnitude]) (normals ++ [normal])
      | Raise e => Raise e
      end
  end.

Definition Hamiltonian_Set_DDI (radius : R) (idx_image idx_chain : Z) : M unit :=
  try (
    image <- from_indices idx_image idx_chain;
    Lock image;;
    (try (
       name <- read_hamiltonian image Name;
       if String.eqb name "Heisenberg" then
         s <- deref image;
         pairs <- lift_result (Get_Pairs_in_Radius (geometry s) radius);
         filled <- lift_result (ddi_loop (geometry s) pairs [] []);
         let '(magnitudes, normals) := filled in
         write_heisenberg image (set_ddi_pairs pairs);;
         write_heisenberg image (set_ddi_magnitudes magnitudes);;
         write_heisenberg image (set_ddi_normals normals);;
         call_heisenberg image Update_Energy_Contributions set_derived;;
         Log Info API ("Set ddi radius to " +:+ fmt_scalar radius) idx_image idx_chain
       else
         name' <- read_hamiltonian image Name;
         Log Warning API ("DDI cannot be set on " +:+ name') idx_image idx_chain
     ) catch (spirit_handle_exception_api idx_image idx_chain));;
    Unlock image
  ) catch (spirit_handle_exception_api idx_image idx_chain).

(** ** Get Parameters *)

(** A getter writes through the pointers it is given: it takes the cells
    behind each pointer as they are before the call and returns them as
    they are after it.  The returned [const char *] of
    [Hamiltonian_Get_Name] is [None] when it is [nullptr]. *)

Definition Hamiltonian_Get_Name (idx_image idx_chain : Z) : M (option string) :=
  try (
    image <- from_indices idx_image idx_chain;
    name <- read_hamiltonian image Name;
    ret (Some name)
  ) catch (fun e => spirit_handle_exception_api idx_image idx_chain e;; ret None).

Definition Hamiltonian_Get_Boundary_Conditions (periodical : bool * bool * bool)
    (idx_image idx_chain : Z) : M (bool * bool * bool) :=
  try (
    image <- from_indices idx_image idx_chain;
    b0 <- read_hamiltonian image (fun h => (boundary_conditions h).1.1);
    b1 <- read_hamiltonian image (fun h => (boundary_conditions h).1.2);
    b2 <- read_hamiltonian image (fun h => (boundary_conditions h).2);
    ret (b0, b1, b2)
  ) catch (fun e => spirit_handle_exception_api idx_image idx_chain e;;
                    ret periodical).

Definition Hamiltonian_Get_mu_s (mu_s' : list R) (idx_image idx_chain : Z)
    : M (list R) :=
  try (
    image <- from_indices idx_image idx_chain;
    name <- read_hamiltonian image Name;
    if String.eqb name "Heisenberg" then
      s <- deref image;
      src <- read_heisenberg image mu_s;
      lift_defined (copy_loop (Z.to_nat (n_cell_atoms (geometry s))) 0 src mu_s')
    else ret mu_s'
  ) catch (fun e => spirit_handle_exception_api idx_image idx_chain e;;
                    ret mu_s').

Definition Hamiltonian_Get_Field (magnitude : R) (normal : float3)
    (idx_image idx_chain : Z) : M (R * float3) :=
  try (
    image <- from_indices idx_image idx_chain;
    name <- read_hamiltonian image Name;
    if String.eqb name "Heisenberg" then
      m <- read_heisenberg image external_field_magnitude;
      if Rlt_dec 0 m then
        m' <- read_heisenberg image external_field_magnitude;
        n0 <- read_heisenberg image (fun ham => vx (external_field_normal ham));
        n1 <- read_heisenberg image (fun ham => vy (external_field_normal ham));
        n2 <- read_heisenberg image (fun ham => vz (external_field_normal ham));
        ret (m' / mu_B, (n0, n1, n2))
      else ret (0, (0, 0, 1))
    else ret (magnitude, normal)
  ) catch (fun e => spirit_handle_exception_api idx_image idx_chain e;;
                    ret (magnitude, normal)).

Definition Hamiltonian_Get_Anisotropy (magnitude : R) (normal : float3)
    (idx_image idx_chain : Z) : M (R * float3) :=
  try (
    image <- from_indices idx_image idx_chain;
    name <- read_hamiltonian image Name;
    if String.eqb name "Heisenberg" then
      indices <- read_heisenberg image anisotropy_indices;
      if (0 <? length indices)%nat then
        m0 <- read_heisenberg image (fun ham => anisotropy_magnitudes ham !! 0%nat);
        m0 <- lift_defined m0;
        n0 <- read_heisenberg image (fun ham => vx <$> anisotropy_normals ham !! 0%nat);
        n0 <- lift_defined n0;
        n1 <- read_heisenberg image (fun ham => vy <$> anisotropy_normals ham !! 0%nat);
        n1 <- lift_defined n1;
        n2 <- read_heisenberg image (fun ham => vz <$> anisotropy_normals ham !! 0%nat);
        n2 <- lift_defined n2;
        ret (m0, (n0, n1, n2))
      else ret (0, (0, 0, 1))
    else ret (magnitude, normal)
  ) catch (fun e => spirit_handle_exception_api idx_image idx_chain e;;
                    ret (magnitude, normal)).

(** The loop counter is an [int] compared with a [size_t]: it overflows,
    which is undefined, on a vector of more than [INT_MAX] entries. *)
Definition Hamiltonian_Get_Exchange_Shells (n_shells : Z) (jij : list R)
    (idx_image idx_chain : Z) : M (Z * list R) :=
  try (
    image <- from_indices idx_image idx_chain;
    name <- read_hamiltonian image Name;
    if String.eqb name "Heisenberg" then
      shells <- read_heisenberg image exchange_shell_magnitudes;
      let n_shells := int_of_size (length shells) in
      jij <- lift_defined
               (if (Z.of_nat (length shells) <=? INT_MAX)%Z
                then copy_loop (length shells) 0 shells jij else None);
      ret (n_shells, jij)
    else ret (n_shells, jij)
  ) catch (fun e => spirit_handle_exception_api idx_image idx_chain e;;
                    ret (n_shells, jij)).

Definition not_yet_implemented (name what : string) : string :=
  name +:+ " Hamiltonian: fetching " +:+ what +:+ " pairs is not yet implemented...".

Definition Hamiltonian_Get_Exchange_N_Pairs (idx_image idx_chain : Z) : M Z :=
  try (
    image <- from_indices idx_image idx_chain;
    name <- read_hamiltonian image Name;
    Log Warning API (not_yet_implemented name "exchange") idx_image idx_chain;;
    ret 0%Z
  ) catch (fun e => spirit_handle_exception_api idx_image idx_chain e;; ret 0%Z).

(** [float * idx[2], float * translations[3], float * Jij] *)
Definition pair_buffers :=
  ((list R * list R) * (list R * list R * list R) * list R)%type.

Definition Hamiltonian_Get_Exchange_Pairs (out : pair_buffers)
    (idx_image idx_chain : Z) : M pair_buffers :=
  try (
    image <- from_indices idx_image idx_chain;
    name <- read_hamiltonian image Name;
    Log Warning API (not_yet_implemented name "exchange") idx_image idx_chain;;
    ret out
  ) catch (fun e => spirit_handle_exception_api idx_image idx_chain e;; ret out).

Definition Hamiltonian_Get_DMI_Shells (n_shells : Z) (dij : list R) (chirality : Z)
    (idx_image idx_chain : Z) : M (Z * list R * Z) :=
  try (
    image <- from_indices idx_image idx_chain;
    name <- read_hamiltonian image Name;
    if String.eqb name "Heisenberg" then
      shells <- read_heisenberg image dmi_shell_magnitudes;
      let n_shells := int_of_size (length shells) in
      chirality <- read_heisenberg image dmi_shell_chirality;
      src <- read_heisenberg image dmi_shell_magnitudes;
      dij <- lift_defined (copy_loop (Z.to_nat n_shells) 0 src dij);
      ret (n_shells, dij, chirality)
    else ret (n_shells, dij, chirality)
  ) catch (fun e => spirit_handle_exception_api idx_image idx_chain e;;
                    ret (n_shells, dij, chirality)).

Definition Hamiltonian_Get_DMI_N_Pairs (idx_image idx_chain : Z) : M Z :=
  try (
    image <- from_indices idx_image idx_chain;
    name <- read_hamiltonian image Name;
    Log Warning API (not_yet_implemented name "DMI") idx_image idx_chain;;
    ret 0%Z
  ) catch (fun e => spirit_handle_exception_api idx_image idx_chain e;; ret 0%Z).

Definition Hamiltonian_Get_DDI (radius : R) (idx_image idx_chain : Z) : M R :=
  try (
    image <- from_indices idx_image idx_chain;
    name <- read_hamiltonian image Name;
    if String.eqb name "Heisenberg" then
      read_heisenberg image ddi_cutoff_radius
    else ret radius
  ) catch (fun e => spirit_handle_exception_api idx_image idx_chain e;;
                    ret radius).

(** ** The boundary operations as a family *)

(** One constructor per function of the interface, with its arguments; a
    getter carries the cells behind its output pointers. *)
Inductive Call : Type -> Type :=
| Set_Boundary_Conditions (periodical : bool * bool * bool) (idx_image idx_chain : Z)
    : Call unit
| Set_mu_s (mu_s : R) (idx_image idx_chain : Z) : Call unit
| Set_Field (magnitude : R) (normal : float3) (idx_image idx_chain : Z) : Call unit
| Set_Anisotropy (magnitude : R) (normal : float3) (idx_image idx_chain : Z)
    : Call unit
| Set_Exchange (n_shells : Z) (jij : list R) (idx_image idx_chain : Z) : Call unit
| Set_DMI (n_shells : Z) (dij : list R) (chirality : Z) (idx_image idx_chain : Z)
    : Call unit
| Set_DDI (radius : R) (idx_image idx_chain : Z) : Call unit
| Get_Name (idx_image idx_chain : Z) : Call (option string)
| Get_Boundary_Conditions (periodical : bool * bool * bool) (idx_image idx_chain : Z)
    : Call (bool * bool * bool)
| Get_mu_s (mu_s : list R) (idx_image idx_chain : Z) : Call (list R)
| Get_Field (magnitude : R) (normal : float3) (idx_image idx_chain : Z)
    : Call (R * float3)
| Get_Anisotropy (magnitude : R) (normal : float3) (idx_image idx_chain : Z)
    : Call (R * float3)
| Get_Exchange_Shells (n_shells : Z) (jij : list R) (idx_image idx_chain : Z)
    : Call (Z * list R)
| Get_Exchange_N_Pairs (idx_image idx_chain : Z) : Call Z
| Get_Exchange_Pairs (out : pair_buffers) (idx_image idx_chain : Z)
    : Call pair_buffers
| Get_DMI_Shells (n_shells : Z) (dij : list R) (chirality : Z)
    (idx_image idx_chain : Z) : Call (Z * list R * Z)
| Get_DMI_N_Pairs (idx_image idx_chain : Z) : Call Z
| Get_DDI (radius : R) (idx_image idx_chain : Z) : Call R.

Definition exec {A} (c : Call A) : M A :=
  match c with
  | Set_Boundary_Conditions p ii ic => Hamiltonian_Set_Boundary_Conditions p ii ic
  | Set_mu_s m ii ic => Hamiltonian_Set_mu_s m ii ic
  | Set_Field m n ii ic => Hamiltonian_Set_Field m n ii ic
  | Set_Anisotropy m n ii ic => Hamiltonian_Set_Anisotropy m n ii ic
  | Set_Exchange k jij ii ic => Hamiltonian_Set_Exchange k jij ii ic
  | Set_DMI k dij c ii ic => Hamiltonian_Set_DMI k dij c ii ic
  | Set_DDI r ii ic => Hamiltonian_Set_DDI r ii ic
  | Get_Name ii ic => Hamiltonian_Get_Name ii ic
  | Get_Boundary_Conditions p ii ic => Hamiltonian_Get_Boundary_Conditions p ii ic
  | Get_mu_s m ii ic => Hamiltonian_Get_mu_s m ii ic
  | Get_Field m n ii ic => Hamiltonian_Get_Field m n ii ic
  | Get_Anisotropy m n ii ic => Hamiltonian_Get_Anisotropy m n ii ic
  | Get_Exchange_Shells k jij ii ic => Hamiltonian_Get_Exchange_Shells k jij ii ic
  | Get_Exchange_N_Pairs ii ic => Hamiltonian_Get_Exchange_N_Pairs ii ic
  | Get_Exchange_Pairs out ii ic => Hamiltonian_Get_Exchange_Pairs out ii ic
  | Get_DMI_Shells k dij c ii ic => Hamiltonian_Get_DMI_Shells k dij c ii ic
  | Get_DMI_N_Pairs ii ic => Hamiltonian_Get_DMI_N_Pairs ii ic
  | Get_DDI r ii ic => Hamiltonian_Get_DDI r ii ic
  end.

(** The image a call names. *)
Definition target {A} (c : Call A) : image_ref :=
  match c with
  | Set_Boundary_Conditions _ ii ic | Set_mu_s _ ii ic | Set_Field _ _ ii ic
  | Set_Anisotropy _ _ ii ic | Set_Exchange _ _ ii ic | Set_DMI _ _ _ ii ic
  | Set_DDI _ ii ic | Get_Name ii ic | Get_Boundary_Conditions _ ii ic
  | Get_mu_s _ ii ic | Get_Field _ _ ii ic | Get_Anisotropy _ _ ii ic
  | Get_Exchange_Shells _ _ ii ic | Get_Exchange_N_Pairs ii ic
  | Get_Exchange_Pairs _ ii ic | Get_DMI_Shells _ _ _ ii ic
  | Get_DMI_N_Pairs ii ic | Get_DDI _ ii ic => (ii, ic)
  end.

(** The mutation operations of the interface. *)
Definition is_mutation {A} (c : Call A) : bool :=
  match c with
  | Set_Boundary_Conditions _ _ _ | Set_mu_s _ _ _ | Set_Field _ _ _ _
  | Set_Anisotropy _ _ _ _ | Set_Exchange _ _ _ _ | Set_DMI _ _ _ _ _
  | Set_DDI _ _ _ => true
  | _ => false
  end.

(** What a call hands back when it did nothing: [nullptr] for the name,
    zero for a pair count, and for the other getters the cells behind the
    output pointers as they were. *)
Definition safe_default {A} (c : Call A) : A :=
  match c with
  | Set_Boundary_Conditions _ _ _ | Set_mu_s _ _ _ | Set_Field _ _ _ _
  | Set_Anisotropy _ _ _ _ | Set_Exchange _ _ _ _ | Set_DMI _ _ _ _ _
  | Set_DDI _ _ _ => tt
  | Get_Name _ _ => None
  | Get_Boundary_Conditions p _ _ => p
  | Get_mu_s m _ _ => m
  | Get_Field m n _ _ => (m, n)
  | Get_Anisotropy m n _ _ => (m, n)
  | Get_Exchange_Shells k jij _ _ => (k, jij)
  | Get_Exchange_N_Pairs _ _ => 0%Z
  | Get_Exchange_Pairs out _ _ => out
  | Get_DMI_Shells k dij c _ _ => (k, dij, c)
  | Get_DMI_N_Pairs _ _ => 0%Z
  | Get_DDI r _ _ => r
  end.

(** ** Worlds and outcomes that the properties speak of *)

Definition warning (msg : string) (idx_image idx_chain : Z) : LogEntry :=
  mkLogEntry Warning API msg idx_image idx_chain.

Definition info (msg : string) (idx_image idx_chain : Z) : LogEntry :=
  mkLogEntry Info API msg idx_image idx_chain.

Definition fault_entry (e : exception) (idx_image idx_chain : Z) : LogEntry :=
  let 'Exception what := e in mkLogEntry Error API what idx_image idx_chain.

(** The entry a setter leaves in the log: the notice of the new value, or
    the fault of the engine. *)
Definition notice (fault : option exception) (msg : string)
    (idx_image idx_chain : Z) : LogEntry :=
  match fault with
  | None => info msg idx_image idx_chain
  | Some e => fault_entry e idx_image idx_chain
  end.

Definition with_heisenberg (ham : Hamiltonian_Heisenberg) (s : Spin_System)
    : Spin_System :=
  set_hamiltonian (set_variant (Heisenberg ham) (hamiltonian s)) s.

(** The image [image] of [w] has the Heisenberg Hamiltonian [ham]. *)
Definition heisenberg_at (w : World) (image : image_ref)
    (ham : Hamiltonian_Heisenberg) : Prop :=
  exists s, images w !! image = Some s /\ variant (hamiltonian s) = Heisenberg ham.

(** The world after a Heisenberg-only setter found another variant: the
    images are as before, the log has one more entry, a warning, and the
    lock was taken and released around the two reads of [Name()]. *)
Definition refused (what name : string) (idx_image idx_chain : Z) (w : World)
    : World :=
  mkWorld (images w)
    (log w ++ [warning (what +:+ name) idx_image idx_chain])
    (trace w ++ [EvLock (idx_image, idx_chain); EvRead (idx_image, idx_chain);
                 EvRead (idx_image, idx_chain); EvUnlock (idx_image, idx_chain)])
    (faults w).

(** The world after a fault before any assignment: the lock was taken and
    released around the one read of [Name()], the fault is in the log. *)
Definition faulted (e : exception) (idx_image idx_chain : Z) (w : World) : World :=
  mkWorld (images w)
    (log w ++ [fault_entry e idx_image idx_chain])
    (trace w ++ [EvLock (idx_image, idx_chain); EvRead (idx_image, idx_chain);
                 EvUnlock (idx_image, idx_chain)])
    (faults w ++ [mkFault e (images w)]).

(** The world after a call that could not resolve its image. *)
Definition unresolved (idx_image idx_chain : Z) (w : World) : World :=
  mkWorld (images w)
    (log w ++ [fault_entry (Exception "from_indices: no such image")
                 idx_image idx_chain])
    (trace w)
    (faults w ++ [mkFault (Exception "from_indices: no such image") (images w)]).

(** The trace of a setter that made [n] assignments under the lock. *)
Definition locked_writes (image : image_ref) (n : nat) : list Event :=
  [EvLock image; EvRead image] ++ replicate n (EvWrite image) ++ [EvUnlock image].

(** The world after a setter installed [ham'] in the Heisenberg image [s]
    with [n] assignments and then called a method of the Hamiltonian, with
    the result [upd]: the derived data are those the method left; the log
    has the notice [msg] of the new value or, when the method raised, the
    fault, which is then also on record with the images as the method left
    them. *)
Definition installed (idx_image idx_chain : Z) (s : Spin_System)
    (ham' : Hamiltonian_Heisenberg) (upd : Derived_Data * option exception)
    (msg : string) (n : nat) (w : World) : World :=
  let imgs :=
    <[(idx_image, idx_chain) := with_heisenberg (set_derived upd.1 ham') s]>
      (images w) in
  mkWorld imgs
    (log w ++ [notice upd.2 msg idx_image idx_chain])
    (trace w ++ locked_writes (idx_image, idx_chain) n)
    (faults w ++ match upd.2 with
                 | Some e => [mkFault e imgs]
                 | None => []
                 end).

(** The world after [n] reads of the Hamiltonian of [image]. *)
Definition reads (image : image_ref) (n : nat) (w : World) : World :=
  mkWorld (images w) (log w) (trace w ++ replicate n (EvRead image)) (faults w).

(** The world after a getter of pairs on the image [s]: one read of
    [Name()] and a warning. *)
Definition stub (w : World) (idx_image idx_chain : Z) (s : Spin_System)
    (what : string) : World :=
  mkWorld (images w)
    (log w ++ [warning (not_yet_implemented (Name (hamiltonian s)) what)
                 idx_image idx_chain])
    (trace w ++ [EvRead (idx_image, idx_chain)])
    (faults w).

(** What [Hamiltonian_Set_Anisotropy] builds. *)
Definition new_anisotropy (n_cell_atoms : Z) (magnitude : R) : intfield * scalarfield :=
  anisotropy_loop (Z.to_nat n_cell_atoms) 0 magnitude
    (replicate (Z.to_nat n_cell_atoms) 0%Z) (replicate (Z.to_nat n_cell_atoms) 0).

(** What [Hamiltonian_Set_DDI] builds. *)
Definition new_ddi (geom : Geometry) (radius : R)
    : result (pairfield * (scalarfield * vectorfield)) :=
  match Get_Pairs_in_Radius geom radius with
  | Ok pairs =>
      match ddi_loop geom pairs [] [] with
      | Ok filled => Ok (pairs, filled)
      | Raise e => Raise e
      end
  | Raise e => Raise e
  end.

(** ** Faults and events of a computation *)

Definition no_throw {A} (m : M A) : Prop :=
  forall w e w', m w <> Thrown e w'.

Definition is_access (image : image_ref) (e : Event) : Prop :=
  e = EvRead image \/ e = EvWrite image.

Definition is_read (image : image_ref) (e : Event) : Prop :=
  e = EvRead image.

(** The log of [w'] is the log of [w] and then entries that are no errors. *)
Definition no_error_logged (w w' : World) : Prop :=
  exists entries,
    log w' = log w ++ entries /\ Forall (fun en => level en <> Error) entries.

(** [m] is quiet: it logs nothing; it records no fault, unless it raises,
    and then the fault is on record with the images as they are when [m]
    is left. *)
Definition quiet {A} (m : M A) : Prop :=
  forall w,
    match m w with
    | Ret _ w' => faults w' = faults w /\ log w' = log w
    | Thrown e w' =>
        faults w' = faults w ++ [mkFault e (images w')] /\ log w' = log w
    | Undefined => True
    end.

(** [m] raises cleanly: it is quiet until it raises, and when it returns it
    has recorded no fault and logged no error. *)
Definition raises_cleanly {A} (m : M A) : Prop :=
  forall w,
    match m w with
    | Ret _ w' => faults w' = faults w /\ no_error_logged w w'
    | Thrown e w' =>
        faults w' = faults w ++ [mkFault e (images w')] /\ log w' = log w
    | Undefined => True
    end.

(** The outcome [o], from the world [w], of an operation that isolates its
    faults: it does not raise; if a fault was raised within, it was the
    only one, the images are still as they were when it was raised, the
    log has one more entry, the fault tagged with the indices of the call,
    and the operation hands back [default]. *)
Definition isolated (idx_image idx_chain : Z) {A} (default : A) (w : World)
    (o : Outcome A) : Prop :=
  match o with
  | Ret v w' =>
      (faults w' = faults w /\ no_error_logged w w')
      \/ (exists e,
            faults w' = faults w ++ [mkFault e (images w')]
            /\ log w' = log w ++ [fault_entry e idx_image idx_chain]
            /\ v = default)
  | Thrown _ _ => False
  | Undefined => True
  end.

(** Every event of [m] satisfies [p], whether [m] returns or raises. *)
Definition emits (p : Event -> Prop) {A} (m : M A) : Prop :=
  forall w,
    match m w with
    | Ret _ w' | Thrown _ w' => exists evs, trace w' = trace w ++ evs /\ Forall p evs
    | Undefined => True
    end.

(** A getter on an image that resolves starts with a read of its
    Hamiltonian. *)
Definition reads_first (image : image_ref) {A} (m : M A) : Prop :=
  forall w,
    is_Some (images w !! image) ->
    match m w with
    | Ret _ w' | Thrown _ w' => exists evs, trace w' = trace w ++ EvRead image :: evs
    | Undefined => True
    end.

(** The events of a mutation, as the lock sees them: none, or the
    accesses to the Hamiltonian of the image between one [Lock] and one
    [Unlock] of that image. *)
Definition critical_section (image : image_ref) (evs : list Event) : Prop :=
  evs = [] \/
  exists accesses,
    evs = EvLock image :: accesses ++ [EvUnlock image]
    /\ Forall (is_access image) accesses.

(** The events of a mutation that holds the lock: one [Lock] of the image,
    then accesses to the Hamiltonian of the image, at least one, then one
    [Unlock] of the image. *)
Definition held_section (image : image_ref) (evs : list Event) : Prop :=
  exists accesses,
    evs = EvLock image :: accesses ++ [EvUnlock image]
    /\ accesses <> []
    /\ Forall (is_access image) accesses.

(** [m] is well locked: it does not raise, and when it returns, its events
    on an image that resolves are those of a mutation that holds the lock;
    on indices that name no image it has no event. *)
Definition well_locked (image : image_ref) {A} (m : M A) : Prop :=
  forall w,
    match m w with
    | Ret _ w' =>
        exists evs,
          trace w' = trace w ++ evs
          /\ match images w !! image with
             | Some _ => held_section image evs
             | None => evs = []
             end
    | Thrown _ _ => False
    | Undefined => True
    end.

(** The events a call added to the trace. *)
Definition new_events (w w' : World) : list Event :=
  drop (length (trace w)) (trace w').

(** ** Two threads on one image *)

(** Two threads run one call each; the events of a thread are tagged with
    the thread, and an execution is an interleaving of the two tagged
    sequences in which the exclusive lock of the image is respected: it is
    taken only when free and released only by its holder. *)

Definition thread := nat.

Definition tag (t : thread) (evs : list Event) : list (thread * Event) :=
  map (fun e => (t, e)) evs.

Inductive interleaving {A} : list A -> list A -> list A -> Prop :=
| interleaving_nil : interleaving [] [] []
| interleaving_left x l1 l2 l :
    interleaving l1 l2 l -> interleaving (x :: l1) l2 (x :: l)
| interleaving_right x l1 l2 l :
    interleaving l1 l2 l -> interleaving l1 (x :: l2) (x :: l).

Fixpoint lock_respected (image : image_ref) (holder : option thread)
    (tr : list (thread * Event)) : bool :=
  match tr with
  | [] => true
  | (t, EvLock k) :: tr' =>
      if decide (k = image) then
        match holder with
        | None => lock_respected image (Some t) tr'
        | Some _ => false
        end
      else lock_respected image holder tr'
  | (t, EvUnlock k) :: tr' =>
      if decide (k = image) then
        match holder with
        | Some t' => if decide (t' = t) then lock_respected image None tr' else false
        | None => false
        end
      else lock_respected image holder tr'
  | _ :: tr' => lock_respected image holder tr'
  end.

(** ** What a call leaves alone *)

(** The images [imgs'] are the images [imgs], each related by [R] to what
    it was: no image has appeared and none has gone. *)
Definition related (R : image_ref -> Spin_System -> Spin_System -> Prop)
    (imgs imgs' : gmap (Z * Z) Spin_System) : Prop :=
  forall k,
    match imgs !! k, imgs' !! k with
    | Some s, Some s' => R k s s'
    | None, None => True
    | _, _ => False
    end.

(** [m] preserves [R]: whether it returns or raises, the images it leaves
    are related by [R] to those it found. *)
Definition preserves (R : image_ref -> Spin_System -> Spin_System -> Prop)
    {A} (m : M A) : Prop :=
  forall w,
    match m w with
    | Ret _ w' | Thrown _ w' => related R (images w) (images w')
    | Undefined => True
    end.

(** Two Hamiltonians of one kind: both Heisenberg, or the same Gaussian. *)
Definition same_kind (h h' : Hamiltonian) : Prop :=
  match variant h, variant h' with
  | Heisenberg _, Heisenberg _ => True
  | Gaussian g, Gaussian g' => g' = g
  | _, _ => False
  end.

(** What a call on [image] may change: of another image nothing; of
    [image] neither the number of spins, nor the geometry, nor the kind of
    Hamiltonian. *)
Definition confined (image k : image_ref) (s s' : Spin_System) : Prop :=
  if decide (k = image)
  then nos s' = nos s /\ geometry s' = geometry s
       /\ same_kind (hamiltonian s) (hamiltonian s')
  else s' = s.

(** The parameters of a Hamiltonian, grouped by the function of the
    interface that assigns them; [P_ddi_cutoff_radius] is the field that
    [Hamiltonian_Get_DDI] reads, [P_derived] the data that the two
    [Update] methods recompute.  The dipolar lists of [P_ddi] are assigned
    by [Hamiltonian_Set_DDI] and regenerated by [Update_Interactions]. *)
Inductive Parameter_Group :=
| P_boundary_conditions
| P_mu_s
| P_external_field
| P_anisotropy
| P_exchange
| P_dmi
| P_ddi
| P_ddi_cutoff_radius
| P_derived.

(** The value of [f] is the same in two Heisenberg Hamiltonians; a
    Gaussian Hamiltonian has no such value. *)
Definition heisenberg_agree {B} (f : Hamiltonian_Heisenberg -> B)
    (h h' : Hamiltonian) : Prop :=
  match variant h, variant h' with
  | Heisenberg ham, Heisenberg ham' => f ham' = f ham
  | Gaussian _, Gaussian _ => True
  | _, _ => False
  end.

Definition agree (g : Parameter_Group) (h h' : Hamiltonian) : Prop :=
  match g with
  | P_boundary_conditions => boundary_conditions h' = boundary_conditions h
  | P_mu_s => heisenberg_agree mu_s h h'
  | P_external_field =>
      heisenberg_agree
        (fun ham => (external_field_magnitude ham, external_field_normal ham)) h h'
  | P_anisotropy =>
      heisenberg_agree
        (fun ham => (anisotropy_indices ham, anisotropy_magnitudes ham,
                     anisotropy_normals ham)) h h'
  | P_exchange =>
      heisenberg_agree
        (fun ham => (exchange_shell_magnitudes ham, exchange_pairs_in ham,
                     exchange_magnitudes_in ham)) h h'
  | P_dmi =>
      heisenberg_agree
        (fun ham => (dmi_shell_magnitudes ham, dmi_shell_chirality ham,
                     dmi_pairs_in ham, dmi_magnitudes_in ham, dmi_normals_in ham))
        h h'
  | P_ddi =>
      heisenberg_agree
        (fun ham => (ddi_pairs ham, ddi_magnitudes ham, ddi_normals ham)) h h'
  | P_ddi_cutoff_radius => heisenberg_agree ddi_cutoff_radius h h'
  | P_derived => heisenberg_agree derived h h'
  end.

(** The groups that the body of a function of the interface assigns,
    itself or through the [Update] method it calls. *)
Definition assigns {A} (c : Call A) (g : Parameter_Group) : bool :=
  match c, g with
  | Set_Boundary_Conditions _ _ _, P_boundary_conditions => true
  | Set_mu_s _ _ _, P_mu_s => true
  | Set_Field _ _ _ _, (P_external_field | P_derived) => true
  | Set_Anisotropy _ _ _ _, (P_anisotropy | P_derived) => true
  | Set_Exchange _ _ _ _, (P_exchange | P_ddi | P_derived) => true
  | Set_DMI _ _ _ _ _, (P_dmi | P_ddi | P_derived) => true
  | Set_DDI _ _ _, (P_ddi | P_derived) => true
  | _, _ => false
  end.

(** The three getters of pairs, which only log that they are not
    implemented. *)
Definition is_pair_getter {A} (c : Call A) : bool :=
  match c with
  | Get_Exchange_N_Pairs _ _ | Get_Exchange_Pairs _ _ _ | Get_DMI_N_Pairs _ _ => true
  | _ => false
  end.

(** [m] only reads: it does not raise, and when it returns, the images,
    the log and the faults on record are as before. *)
Definition only_reads {A} (m : M A) : Prop :=
  forall w,
    match m w with
    | Ret _ w' => images w' = images w /\ log w' = log w /\ faults w' = faults w
    | Thrown _ _ => False
    | Undefined => True
    end.

(** The world after a call of [Hamiltonian_Set_Boundary_Conditions] on the
    image [s]: three assignments under the lock, then the notice. *)
Definition bounded (periodical : bool * bool * bool) (idx_image idx_chain : Z)
    (s : Spin_System) (w : World) : World :=
  mkWorld
    (<[(idx_image, idx_chain) :=
         set_hamiltonian (set_boundary_conditions periodical (hamiltonian s)) s]>
       (images w))
    (log w ++ [info ("Set boundary conditions to " +:+ fmt_bool periodical.1.1
                       +:+ " " +:+ fmt_bool periodical.1.2 +:+ " "
                       +:+ fmt_bool periodical.2) idx_image idx_chain])
    (trace w ++ [EvLock (idx_image, idx_chain); EvWrite (idx_image, idx_chain);
                 EvWrite (idx_image, idx_chain); EvWrite (idx_image, idx_chain);
                 EvUnlock (idx_image, idx_chain)])
    (faults w).

(** A setter of Heisenberg parameters refuses an image of another
    variant; [Hamiltonian_Set_Boundary_Conditions] refuses none. *)
Definition refused_by {A} (c : Call A) (w : World) : Prop :=
  match c with
  | Set_Boundary_Conditions _ _ _ => False
  | _ =>
      exists s,
        images w !! target c = Some s /\ Name (hamiltonian s) <> "Heisenberg"
  end.

(** The log of [w'] is the log of [w] and one more entry, sent by the
    interface and tagged with the indices of the call.  Its level tells
    what happened: Error, and the entry is that of the one fault that was
    raised; or Warning, and the call was the [refusal] of the image, which
    is as it was; or Info, and the image resolved and was not refused. *)
Definition logs_one (idx_image idx_chain : Z) (refusal : Prop) (w w' : World)
    : Prop :=
  exists entry,
    log w' = log w ++ [entry]
    /\ sender entry = API
    /\ entry_idx_image entry = idx_image
    /\ entry_idx_chain entry = idx_chain
    /\ ((level entry = Error
         /\ exists e,
              entry = fault_entry e idx_image idx_chain
              /\ faults w' = faults w ++ [mkFault e (images w')])
        \/ (level entry = Warning
            /\ refusal /\ faults w' = faults w /\ images w' = images w)
        \/ (level entry = Info
            /\ ~ refusal /\ faults w' = faults w
            /\ is_Some (images w !! (idx_image, idx_chain)))).

(** The entries of the DDI lists are those of the pairs, in their order. *)
Definition ddi_of_pairs (geom : Geometry) (pairs : pairfield)
    (magnitudes : scalarfield) (normals : vectorfield) : Prop :=
  length magnitudes = length pairs
  /\ length normals = length pairs
  /\ forall (i : nat) p,
       pairs !! i = Some p ->
       exists magnitude normal,
         DDI_from_Pair geom p = Ok (magnitude, normal)
         /\ magnitudes !! i = Some magnitude
         /\ normals !! i = Some normal.

End Model.

Arguments Ret {collaborators A} a w.
Arguments Thrown {collaborators A} e w.
Arguments Undefined {collaborators A}.

(** * A small state *)

(** One chain of two images: a Heisenberg image with an explicit exchange
    pair, and a Gaussian image.  The engine finds one pair within any
    radius and never fails. *)

Definition demo_collaborators : Collaborators :=
  {| Geometry := Z;
     n_cell_atoms := fun g => g;
     Derived_Data := list string;
     mu_B := 57883817555 / 1000000000000;
     mu_B_pos := ltac:(lra);
     fmt_scalar := fun _ => "<scalar>" |}.

Definition demo_pair : Pair := mkPair 0 0 (1, 0, 0)%Z.

Definition demo_engine : @Engine demo_collaborators :=
  @Build_Engine demo_collaborators
    (fun _ _ => Ok [demo_pair])
    (fun _ _ => Ok (1, mkVector3 1 0 0))
    (fun _ _ => (["Zeeman"], None))
    (fun _ ham => ((["Exchange"], (ddi_pairs ham, ddi_magnitudes ham, ddi_normals ham)),
                   None)).

(** An engine whose update of the energy contributions fails. *)
Definition faulty_engine : @Engine demo_collaborators :=
  @Build_Engine demo_collaborators
    (fun _ _ => Ok [demo_pair])
    (fun _ _ => Ok (1, mkVector3 1 0 0))
    (fun _ _ => ([], Some (Exception "std::bad_alloc")))
    (fun _ ham => ((["Exchange"], (ddi_pairs ham, ddi_magnitudes ham, ddi_normals ham)),
                   None)).

Definition demo_heisenberg : @Hamiltonian_Heisenberg demo_collaborators :=
  @mkHeisenberg demo_collaborators
    [2] 0 (mkVector3 0 0 1) [] [] [] [] [demo_pair] [3] []
    1%Z [demo_pair] [4] [mkVector3 0 1 0] 0 [] [] [] [].

Definition demo_image : @Spin_System demo_collaborators :=
  @mkSpin_System demo_collaborators 1%Z 1%Z
    (mkHamiltonian (true, true, false) (Heisenberg demo_heisenberg)).

Definition gaussian_image : @Spin_System demo_collaborators :=
  @mkSpin_System demo_collaborators 1%Z 1%Z
    (mkHamiltonian (false, false, false)
       (Gaussian (mkGaussian 1%Z [1] [1] [mkVector3 0 0 1]))).

(** A Heisenberg image without sites, and one whose number of spins is
    the negative [int] that an overflow leaves behind. *)
Definition bare_image : @Spin_System demo_collaborators :=
  @mkSpin_System demo_collaborators 0%Z 0%Z
    (mkHamiltonian (true, true, false) (Heisenberg demo_heisenberg)).

Definition overflown_image : @Spin_System demo_collaborators :=
  @mkSpin_System demo_collaborators (-1)%Z 1%Z
    (mkHamiltonian (true, true, false) (Heisenberg demo_heisenberg)).

Definition odd_world : @World demo_collaborators :=
  mkWorld (<[(0, 0)%Z := bare_image]> (<[(1, 0)%Z := overflown_image]> ∅)) [] [] [].

Definition demo_world : @World demo_collaborators :=
  mkWorld (<[(0, 0)%Z := demo_image]> (<[(1, 0)%Z := gaussian_image]> ∅)) [] [] [].

(** * Properties *)

Section Properties.
Context {collaborators : Collaborators} {engine : Engine}.


(** ** Running the interface *)

Lemma Name_eqb (h : Hamiltonian) :
  String.eqb (Name h) "Heisenberg" =
    match variant h with Heisenberg _ => true | Gaussian _ => false end.
Proof. unfold Name. destruct (variant h); reflexivity. Qed.

Lemma Name_not_Heisenberg (h : Hamiltonian) :
  Name h <> "Heisenberg" -> String.eqb (Name h) "Heisenberg" = false.
Proof. apply String.eqb_neq. Qed.

Ltac unfold_ops :=
  unfold try_catch, bind, ret, throw, undefined, lift_result, lift_defined,
    from_indices, Lock, Unlock, spirit_handle_exception_api, deref,
    read_hamiltonian, write_hamiltonian, read_heisenberg, write_heisenberg,
    call_heisenberg, shells_message;
  unfold bind, ret, throw, lift_defined, Log, emit, store_image, record_fault,
    set_hamiltonian, set_variant, set_boundary_conditions.

Ltac simpl_world :=
  cbn [images log trace faults hamiltonian variant geometry nos
       boundary_conditions fst snd].

Ltac run_step :=
  first
    [ progress simpl_world
    | rewrite lookup_insert_eq
    | rewrite insert_insert_eq
    | match goal with
      | Hl : images ?w !! ?k = _ |- context [images ?w !! ?k] => rewrite Hl
      | Hv : variant ?h = _ |- context [variant ?h] => rewrite Hv
      | Hn : Name ?h <> "Heisenberg" |- context [String.eqb (Name ?h) _] =>
          rewrite (Name_not_Heisenberg h Hn)
      end
    | rewrite Name_eqb ].

Ltac run := unfold_ops; repeat run_step.

Ltac unfold_api :=
  unfold Hamiltonian_Set_Boundary_Conditions, Hamiltonian_Set_mu_s,
    Hamiltonian_Set_Field, Hamiltonian_Set_Anisotropy, Hamiltonian_Set_Exchange,
    Hamiltonian_Set_DMI, Hamiltonian_Set_DDI, Hamiltonian_Get_Name,
    Hamiltonian_Get_Boundary_Conditions, Hamiltonian_Get_mu_s,
    Hamiltonian_Get_Field, Hamiltonian_Get_Anisotropy,
    Hamiltonian_Get_Exchange_Shells, Hamiltonian_Get_Exchange_N_Pairs,
    Hamiltonian_Get_Exchange_Pairs, Hamiltonian_Get_DMI_Shells,
    Hamiltonian_Get_DMI_N_Pairs, Hamiltonian_Get_DDI.

Ltac same_world :=
  unfold emit, store_image; cbn [images log trace faults];
  rewrite <- ?app_assoc; reflexivity.

(** ** Setters on another variant than Heisenberg *)

Section Refused.
Variables (w : World) (idx_image idx_chain : Z) (s : Spin_System).
Hypothesis resolves : images w !! (idx_image, idx_chain) = Some s.
Hypothesis other_variant : Name (hamiltonian s) <> "Heisenberg".

Let name := Name (hamiltonian s).

Lemma Set_mu_s_refused mu_s' :
  Hamiltonian_Set_mu_s mu_s' idx_image idx_chain w =
    Ret tt (refused "mu_s cannot be set on " name idx_image idx_chain w).
Proof. unfold Hamiltonian_Set_mu_s, refused. run. same_world. Qed.

Lemma Set_Field_refused magnitude normal :
  Hamiltonian_Set_Field magnitude normal idx_image idx_chain w =
    Ret tt (refused "External field cannot be set on " name idx_image idx_chain w).
Proof. unfold Hamiltonian_Set_Field, refused. run. same_world. Qed.

Lemma Set_Anisotropy_refused magnitude normal :
  Hamiltonian_Set_Anisotropy magnitude normal idx_image idx_chain w =
    Ret tt (refused "Anisotropy cannot be set on " name idx_image idx_chain w).
Proof. unfold Hamiltonian_Set_Anisotropy, refused. run. same_world. Qed.

Lemma Set_Exchange_refused n_shells jij :
  Hamiltonian_Set_Exchange n_shells jij idx_image idx_chain w =
    Ret tt (refused "Exchange cannot be set on " name idx_image idx_chain w).
Proof. unfold Hamiltonian_Set_Exchange, refused. run. same_world. Qed.

Lemma Set_DMI_refused n_shells dij chirality :
  Hamiltonian_Set_DMI n_shells dij chirality idx_image idx_chain w =
    Ret tt (refused "DMI cannot be set on " name idx_image idx_chain w).
Proof. unfold Hamiltonian_Set_DMI, refused. run. same_world. Qed.

Lemma Set_DDI_refused radius :
  Hamiltonian_Set_DDI radius idx_image idx_chain w =
    Ret tt (refused "DDI cannot be set on " name idx_image idx_chain w).
Proof. unfold Hamiltonian_Set_DDI, refused. run. same_world. Qed.

End Refused.

(** ** Setters on a Heisenberg Hamiltonian *)

Ltac finish :=
  unfold installed, reads, emit, store_image, with_heisenberg, set_hamiltonian,
    set_variant, notice, fault_entry, info, faulted, locked_writes;
  cbn [images log trace faults hamiltonian variant geometry nos
       boundary_conditions fst snd replicate];
  rewrite ?insert_insert_eq, ?app_nil_r; rewrite <- ?app_assoc; reflexivity.

Lemma vector_fill_Ok {A} (n : Z) (x : A) :
  (0 <= n)%Z -> vector_fill n x = Ok (replicate (Z.to_nat n) x).
Proof.
  intros Hn. unfold vector_fill.
  destruct (Z.ltb_spec n 0) as [Hlt|_]; [lia | reflexivity].
Qed.

Lemma vector_fill_Raise {A} (n : Z) (x : A) :
  (n < 0)%Z -> vector_fill n x = Raise (Exception "std::length_error").
Proof.
  intros Hn. unfold vector_fill.
  destruct (Z.ltb_spec n 0) as [_|Hge]; [reflexivity | lia].
Qed.

Section On_Heisenberg.
Variables (w : World) (idx_image idx_chain : Z) (s : Spin_System).
Variable ham : Hamiltonian_Heisenberg.
Hypothesis resolves : images w !! (idx_image, idx_chain) = Some s.
Hypothesis is_heisenberg : variant (hamiltonian s) = Heisenberg ham.

Let image : image_ref := (idx_image, idx_chain).

Lemma Set_mu_s_run mu_s' :
  Hamiltonian_Set_mu_s mu_s' idx_image idx_chain w =
    Ret tt
      (mkWorld
         (<[image := with_heisenberg
                       (set_mu_s (map (fun _ => mu_s') (mu_s ham)) ham) s]> (images w))
         (log w ++ [info ("Set mu_s to " +:+ fmt_scalar mu_s') idx_image idx_chain])
         (trace w ++ locked_writes image 1)
         (faults w)).
Proof. unfold Hamiltonian_Set_mu_s. run. finish. Qed.

Lemma Set_Field_run magnitude normal :
  let ham' :=
    set_external_field_normal (normalize (Vector3_of normal))
      (set_external_field_magnitude (magnitude * mu_B) ham) in
  let upd := Update_Energy_Contributions (geometry s) ham' in
  Hamiltonian_Set_Field magnitude normal idx_image idx_chain w =
    Ret tt
      (installed idx_image idx_chain s ham' upd
         (fmt_direction "Set external field to " magnitude normal) 3 w).
Proof.
  intros ham' upd. subst ham' upd. unfold Hamiltonian_Set_Field. run.
  destruct (Update_Energy_Contributions _ _) as [d [[what]|]]; run; finish.
Qed.

Lemma Set_Anisotropy_run magnitude normal :
  (0 <= n_cell_atoms (geometry s))%Z -> (0 <= nos s)%Z ->
  let filled := new_anisotropy (n_cell_atoms (geometry s)) magnitude in
  let new_normals :=
    replicate (Z.to_nat (nos s)) (normalize (Vector3_of normal)) in
  let ham' :=
    set_anisotropy_normals new_normals
      (set_anisotropy_magnitudes filled.2
         (set_anisotropy_indices filled.1 ham)) in
  let upd := Update_Energy_Contributions (geometry s) ham' in
  Hamiltonian_Set_Anisotropy magnitude normal idx_image idx_chain w =
    Ret tt
      (installed idx_image idx_chain s ham' upd
         (fmt_direction "Set anisotropy to " magnitude normal) 4 w).
Proof.
  intros Hcell Hnos filled new_normals ham' upd.
  subst filled new_normals ham' upd.
  unfold Hamiltonian_Set_Anisotropy, new_anisotropy. run.
  rewrite !(vector_fill_Ok (n_cell_atoms (geometry s))) by assumption.
  rewrite (vector_fill_Ok (nos s)) by assumption.
  destruct (anisotropy_loop _ _ _ _ _) as [new_indices new_magnitudes].
  run.
  destruct (Update_Energy_Contributions _ _) as [d [[what]|]]; run; finish.
Qed.

Lemma Set_Anisotropy_length_error magnitude normal :
  (n_cell_atoms (geometry s) < 0)%Z \/ (nos s < 0)%Z ->
  Hamiltonian_Set_Anisotropy magnitude normal idx_image idx_chain w =
    Ret tt (faulted (Exception "std::length_error") idx_image idx_chain w).
Proof.
  intros Hneg. unfold Hamiltonian_Set_Anisotropy. run.
  destruct (Z.ltb_spec (n_cell_atoms (geometry s)) 0) as [Hcell|Hcell].
  - rewrite !(vector_fill_Raise (n_cell_atoms (geometry s))) by assumption.
    run. finish.
  - destruct Hneg as [Hneg|Hneg]; [lia|].
    rewrite !(vector_fill_Ok (n_cell_atoms (geometry s))) by assumption.
    rewrite (vector_fill_Raise (nos s)) by assumption.
    destruct (anisotropy_loop _ _ _ _ _) as [new_indices new_magnitudes].
    run. finish.
Qed.

Lemma vector_range_first {A} (a : list A) (n : Z) (l : list A) :
  vector_range a n = Some l -> (0 <? n)%Z = true -> is_Some (a !! 0%nat).
Proof.
  unfold vector_range. intros Hrange Hpos.
  destruct (n <? 0)%Z; [discriminate|].
  destruct (Z.ltb_spec (Z.of_nat (length a)) n); [discriminate|].
  destruct a as [|a0 a]; [|by exists a0].
  cbn [length] in *. apply Z.ltb_lt in Hpos. lia.
Qed.

Lemma Set_Exchange_run n_shells (jij shells : list R) :
  vector_range jij n_shells = Some shells ->
  let ham' :=
    set_exchange_magnitudes_in []
      (set_exchange_pairs_in []
         (set_exchange_shell_magnitudes shells ham)) in
  let upd := Update_Interactions (geometry s) ham' in
  Hamiltonian_Set_Exchange n_shells jij idx_image idx_chain w =
    Ret tt
      (installed idx_image idx_chain s (set_ddi_lists upd.1.2 ham') (upd.1.1, upd.2)
         (shells_text "Set exchange to " " Jij[0] = " n_shells jij) 4 w).
Proof.
  intros Hrange ham' upd. subst ham' upd.
  unfold Hamiltonian_Set_Exchange, shells_text. run. rewrite Hrange. run.
  destruct (Update_Interactions _ _) as [[d lists] [[what]|]]; run; [finish|].
  destruct (0 <? n_shells)%Z eqn:Hpos; [|finish].
  destruct (vector_range_first _ _ _ Hrange Hpos) as [a0 ->]. finish.
Qed.

Lemma Set_DMI_run n_shells (dij : list R) chirality (shells : list R) :
  vector_range dij n_shells = Some shells ->
  let ham' :=
    set_dmi_normals_in []
      (set_dmi_magnitudes_in []
         (set_dmi_pairs_in []
            (set_dmi_shell_chirality chirality
               (set_dmi_shell_magnitudes shells ham)))) in
  let upd := Update_Interactions (geometry s) ham' in
  Hamiltonian_Set_DMI n_shells dij chirality idx_image idx_chain w =
    Ret tt
      (installed idx_image idx_chain s (set_ddi_lists upd.1.2 ham') (upd.1.1, upd.2)
         (shells_text "Set dmi to " " Dij[0] = " n_shells dij) 6 w).
Proof.
  intros Hrange ham' upd. subst ham' upd.
  unfold Hamiltonian_Set_DMI, shells_text. run. rewrite Hrange. run.
  destruct (Update_Interactions _ _) as [[d lists] [[what]|]]; run; [finish|].
  destruct (0 <? n_shells)%Z eqn:Hpos; [|finish].
  destruct (vector_range_first _ _ _ Hrange Hpos) as [a0 ->]. finish.
Qed.

Lemma Set_DDI_run radius pairs magnitudes normals :
  new_ddi (geometry s) radius = Ok (pairs, (magnitudes, normals)) ->
  let ham' :=
    set_ddi_normals normals
      (set_ddi_magnitudes magnitudes (set_ddi_pairs pairs ham)) in
  let upd := Update_Energy_Contributions (geometry s) ham' in
  Hamiltonian_Set_DDI radius idx_image idx_chain w =
    Ret tt
      (installed idx_image idx_chain s ham' upd
         ("Set ddi radius to " +:+ fmt_scalar radius) 4 w).
Proof.
  intros Hnew ham' upd. subst ham' upd. unfold new_ddi in Hnew.
  unfold Hamiltonian_Set_DDI. run.
  destruct (Get_Pairs_in_Radius _ _) as [pairs'|e]; [|discriminate].
  destruct (ddi_loop _ _ _ _) as [filled|e]; [|discriminate].
  injection Hnew as -> ->. run.
  destruct (Update_Energy_Contributions _ _) as [d [[what]|]]; run; finish.
Qed.

Lemma Set_DDI_fault radius e :
  new_ddi (geometry s) radius = Raise e ->
  Hamiltonian_Set_DDI radius idx_image idx_chain w =
    Ret tt (faulted e idx_image idx_chain w).
Proof.
  intros Hnew. unfold new_ddi in Hnew. unfold Hamiltonian_Set_DDI. run.
  destruct (Get_Pairs_in_Radius _ _) as [pairs'|e'].
  - destruct (ddi_loop _ _ _ _) as [filled|e']; [discriminate|].
    injection Hnew as ->. destruct e. run. finish.
  - injection Hnew as ->. destruct e. run. finish.
Qed.

End On_Heisenberg.

(** ** Getters on a Heisenberg Hamiltonian *)

Lemma array_store_Some {A} (a : list A) (i : nat) (x : A) :
  (i < length a)%nat -> array_store a i x = Some (<[i := x]> a).
Proof. intros Hi. unfold array_store. by rewrite decide_True. Qed.

(** The copy loop overwrites the cells [i .. i + n - 1] of the destination
    with the same cells of the source. *)
Lemma copy_loop_spec {A} (n : nat) :
  forall (i : nat) (src dst : list A),
    (i + n <= length src)%nat -> (i + n <= length dst)%nat ->
    copy_loop n i src dst
      = Some (take i dst ++ take n (drop i src) ++ drop (i + n) dst).
Proof.
  induction n as [|n IH]; intros i src dst Hsrc Hdst; cbn [copy_loop].
  - rewrite Nat.add_0_r, take_0. cbn [app]. by rewrite take_drop.
  - destruct (lookup_lt_is_Some_2 src i) as [x Hx]; [lia|].
    rewrite Hx, array_store_Some by lia.
    rewrite IH by (rewrite ?length_insert; lia).
    f_equal.
    rewrite (take_S_r (<[i := x]> dst) i x) by (apply list_lookup_insert_eq; lia).
    rewrite take_insert_ge by lia.
    rewrite drop_insert_lt by lia.
    rewrite (drop_S src x i Hx), firstn_cons.
    rewrite <- app_assoc. cbn [app].
    by replace (S i + n)%nat with (i + S n)%nat by lia.
Qed.

Lemma copy_loop_all {A} (src dst : list A) :
  (length src <= length dst)%nat ->
  copy_loop (length src) 0 src dst = Some (src ++ drop (length src) dst).
Proof.
  intros Hlen. rewrite copy_loop_spec by lia.
  rewrite take_0, drop_0, firstn_all. reflexivity.
Qed.

Section Getters_On_Heisenberg.
Variables (w : World) (idx_image idx_chain : Z) (s : Spin_System).
Variable ham : Hamiltonian_Heisenberg.
Hypothesis resolves : images w !! (idx_image, idx_chain) = Some s.
Hypothesis is_heisenberg : variant (hamiltonian s) = Heisenberg ham.

Let image : image_ref := (idx_image, idx_chain).

Lemma Get_Field_nonpositive magnitude normal :
  external_field_magnitude ham <= 0 ->
  Hamiltonian_Get_Field magnitude normal idx_image idx_chain w =
    Ret (0, (0, 0, 1)) (reads image 2 w).
Proof.
  intros Hle. unfold Hamiltonian_Get_Field. run.
  destruct (Rlt_dec 0 (external_field_magnitude ham)); [lra|].
  unfold reads. finish.
Qed.

Lemma Get_Field_positive magnitude normal :
  0 < external_field_magnitude ham ->
  Hamiltonian_Get_Field magnitude normal idx_image idx_chain w =
    Ret (external_field_magnitude ham / mu_B, float3_of (external_field_normal ham))
      (reads image 6 w).
Proof.
  intros Hlt. unfold Hamiltonian_Get_Field. run.
  destruct (Rlt_dec 0 (external_field_magnitude ham)); [|lra].
  run. unfold reads. finish.
Qed.

Lemma Get_Exchange_Shells_run n_shells (jij : list R) :
  (Z.of_nat (length (exchange_shell_magnitudes ham)) <= INT_MAX)%Z ->
  (length (exchange_shell_magnitudes ham) <= length jij)%nat ->
  Hamiltonian_Get_Exchange_Shells n_shells jij idx_image idx_chain w =
    Ret (Z.of_nat (length (exchange_shell_magnitudes ham)),
         exchange_shell_magnitudes ham
           ++ drop (length (exchange_shell_magnitudes ham)) jij)
      (reads image 2 w).
Proof.
  intros Hint Hlen. unfold Hamiltonian_Get_Exchange_Shells. run.
  destruct (Z.leb_spec (Z.of_nat (length (exchange_shell_magnitudes ham))) INT_MAX)
    as [_|Hgt]; [|lia].
  rewrite copy_loop_all by assumption.
  replace (int_of_size (length (exchange_shell_magnitudes ham)))
    with (Z.of_nat (length (exchange_shell_magnitudes ham))).
  - unfold reads. finish.
  - unfold int_of_size, INT_MAX in *.
    rewrite Z.mod_small by lia. lia.
Qed.

End Getters_On_Heisenberg.

(** ** The boundary operations as a family *)

(** ** Fault isolation *)

Lemma handler_no_throw idx_image idx_chain e :
  no_throw (spirit_handle_exception_api idx_image idx_chain e).
Proof. intros w e' w'. destruct e. discriminate. Qed.

Lemma handler_ret_no_throw {A} idx_image idx_chain e (a : A) :
  no_throw (bind (spirit_handle_exception_api idx_image idx_chain e)
              (fun _ => ret a)).
Proof. intros w e' w'. destruct e. discriminate. Qed.

Lemma try_catch_no_throw {A} (m : M A) (handler : exception -> M A) :
  (forall e, no_throw (handler e)) -> no_throw (try_catch m handler).
Proof.
  intros Hh w e w'. unfold try_catch.
  destruct (m w) as [a w1|e1 w1|]; [discriminate | apply Hh | discriminate].
Qed.

Lemma exec_no_throw {A} (c : Call A) : no_throw (exec c).
Proof.
  destruct c; apply try_catch_no_throw; intros e;
    first [apply handler_no_throw | apply handler_ret_no_throw].
Qed.

Lemma exec_unresolved {A} (c : Call A) (w : World) :
  images w !! target c = None ->
  exec c w = Ret (safe_default c) (unresolved (target c).1 (target c).2 w).
Proof.
  intros Hl.
  destruct c; cbn [target exec safe_default fst snd] in *;
    unfold_api; run; reflexivity.
Qed.

(** ** The pair getters *)

Section Pair_Getters.
Variables (w : World) (idx_image idx_chain : Z) (s : Spin_System).
Hypothesis resolves : images w !! (idx_image, idx_chain) = Some s.

Lemma Get_Exchange_N_Pairs_run :
  Hamiltonian_Get_Exchange_N_Pairs idx_image idx_chain w = Ret 0%Z (stub w idx_image idx_chain s "exchange").
Proof. unfold Hamiltonian_Get_Exchange_N_Pairs. run. reflexivity. Qed.

Lemma Get_DMI_N_Pairs_run :
  Hamiltonian_Get_DMI_N_Pairs idx_image idx_chain w = Ret 0%Z (stub w idx_image idx_chain s "DMI").
Proof. unfold Hamiltonian_Get_DMI_N_Pairs. run. reflexivity. Qed.

Lemma Get_Exchange_Pairs_run out :
  Hamiltonian_Get_Exchange_Pairs out idx_image idx_chain w = Ret out (stub w idx_image idx_chain s "exchange").
Proof. unfold Hamiltonian_Get_Exchange_Pairs. run. reflexivity. Qed.

End Pair_Getters.

(** ** The locking discipline *)

Section Emits.
Variable p : Event -> Prop.

Lemma emits_silent {A} (m : M A) :
  (forall w,
     match m w with
     | Ret _ w' | Thrown _ w' => trace w' = trace w
     | Undefined => True
     end) ->
  emits p m.
Proof.
  intros Hm w. specialize (Hm w).
  destruct (m w); [| |exact I];
    (exists []; split; [by rewrite app_nil_r | constructor]).
Qed.

Lemma emits_one {A} (m : M A) (e : Event) :
  p e ->
  (forall w,
     match m w with
     | Ret _ w' | Thrown _ w' => trace w' = trace w ++ [e]
     | Undefined => True
     end) ->
  emits p m.
Proof.
  intros He Hm w. specialize (Hm w).
  destruct (m w); [| |exact I];
    (exists [e]; split; [assumption | by constructor]).
Qed.

Lemma emits_ret {A} (a : A) : emits p (ret a).
Proof. apply emits_silent. intros w. reflexivity. Qed.

Lemma emits_lift_result {A} (r : result A) : emits p (lift_result r).
Proof. apply emits_silent. intros w. destruct r; reflexivity. Qed.

Lemma emits_lift_defined {A} (o : option A) : emits p (lift_defined o).
Proof. apply emits_silent. intros w. destruct o; [reflexivity | exact I]. Qed.

Lemma emits_from_indices idx_image idx_chain :
  emits p (from_indices idx_image idx_chain).
Proof.
  apply emits_silent. intros w. unfold from_indices.
  destruct (images w !! _); reflexivity.
Qed.

Lemma emits_deref image : emits p (deref image).
Proof.
  apply emits_silent. intros w. unfold deref.
  destruct (images w !! _); [reflexivity | exact I].
Qed.

Lemma emits_Log l sd msg idx_image idx_chain :
  emits p (Log l sd msg idx_image idx_chain).
Proof. apply emits_silent. intros w. reflexivity. Qed.

Lemma emits_handler idx_image idx_chain e :
  emits p (spirit_handle_exception_api idx_image idx_chain e).
Proof. destruct e. apply emits_Log. Qed.

Lemma emits_read_hamiltonian {A} image (f : Hamiltonian -> A) :
  p (EvRead image) -> emits p (read_hamiltonian image f).
Proof.
  intros Hp. apply (emits_one _ (EvRead image) Hp). intros w.
  unfold read_hamiltonian.
  destruct (images w !! _); [reflexivity | exact I].
Qed.

Lemma emits_write_hamiltonian image f :
  p (EvWrite image) -> emits p (write_hamiltonian image f).
Proof.
  intros Hp. apply (emits_one _ (EvWrite image) Hp). intros w.
  unfold write_hamiltonian.
  destruct (images w !! _); [reflexivity | exact I].
Qed.

Lemma emits_read_heisenberg {A} image (f : Hamiltonian_Heisenberg -> A) :
  p (EvRead image) -> emits p (read_heisenberg image f).
Proof.
  intros Hp. apply (emits_one _ (EvRead image) Hp). intros w.
  unfold read_heisenberg.
  destruct (images w !! _) as [s|]; [|exact I].
  destruct (variant (hamiltonian s)); [reflexivity | exact I].
Qed.

Lemma emits_write_heisenberg image f :
  p (EvWrite image) -> emits p (write_heisenberg image f).
Proof.
  intros Hp. apply (emits_one _ (EvWrite image) Hp). intros w.
  unfold write_heisenberg.
  destruct (images w !! _) as [s|]; [|exact I].
  destruct (variant (hamiltonian s)); [reflexivity | exact I].
Qed.

Lemma emits_call_heisenberg {D} image
    (method : Geometry -> Hamiltonian_Heisenberg -> D * option exception) install :
  p (EvWrite image) -> emits p (call_heisenberg image method install).
Proof.
  intros Hp. apply (emits_one _ (EvWrite image) Hp). intros w.
  unfold call_heisenberg.
  destruct (images w !! _) as [s|]; [|exact I].
  destruct (variant (hamiltonian s)) as [ham|]; [|exact I].
  destruct (method _ _) as [d [e|]]; reflexivity.
Qed.

Lemma emits_bind {A B} (m : M A) (f : A -> M B) :
  emits p m -> (forall a, emits p (f a)) -> emits p (bind m f).
Proof.
  intros Hm Hf w. unfold bind. specialize (Hm w).
  destruct (m w) as [a w1|e w1|]; [|assumption|exact I].
  destruct Hm as (evs1 & Htr1 & Hp1). specialize (Hf a w1).
  destruct (f a w1) as [b w2|e w2|]; [| |exact I];
    destruct Hf as (evs2 & Htr2 & Hp2);
    (exists (evs1 ++ evs2); split;
       [by rewrite Htr2, Htr1, app_assoc | by apply Forall_app]).
Qed.

Lemma emits_try_catch {A} (m : M A) (handler : exception -> M A) :
  emits p m -> (forall e, emits p (handler e)) -> emits p (try_catch m handler).
Proof.
  intros Hm Hh w. unfold try_catch. specialize (Hm w).
  destruct (m w) as [a w1|e w1|]; [assumption| |exact I].
  destruct Hm as (evs1 & Htr1 & Hp1). specialize (Hh e w1).
  destruct (handler e w1) as [b w2|e' w2|]; [| |exact I];
    destruct Hh as (evs2 & Htr2 & Hp2);
    (exists (evs1 ++ evs2); split;
       [by rewrite Htr2, Htr1, app_assoc | by apply Forall_app]).
Qed.

End Emits.

Ltac emits_step :=
  first
    [ apply emits_ret
    | apply emits_lift_result
    | apply emits_lift_defined
    | apply emits_deref
    | apply emits_Log
    | apply emits_handler
    | apply emits_read_hamiltonian; [unfold is_access, is_read; auto]
    | apply emits_write_hamiltonian; [unfold is_access, is_read; auto]
    | apply emits_read_heisenberg; [unfold is_access, is_read; auto]
    | apply emits_write_heisenberg; [unfold is_access, is_read; auto]
    | apply emits_call_heisenberg; [unfold is_access, is_read; auto]
    | apply emits_bind; [|intros ?]
    | apply emits_try_catch; [|intros ?]
    | match goal with
      | |- emits _ (if ?b then _ else _) => destruct b
      | |- emits _ (match ?x with _ => _ end) => destruct x
      end ].

Ltac emits_tac := unfold shells_message; repeat emits_step.

(** Work that starts with an access to the Hamiltonian of an image that
    resolves has moved the trace when it is left. *)
Lemma first_access (image : image_ref) (p : Event -> Prop) (ev : Event) {A B}
    (first : M B) (rest : B -> M A) (handler : exception -> M A) :
  (forall w, is_Some (images w !! image) ->
             exists b w1, first w = Ret b w1 /\ trace w1 = trace w ++ [ev]) ->
  (forall b, emits p (rest b)) ->
  (forall e, emits p (handler e)) ->
  forall w, is_Some (images w !! image) ->
    match try_catch (bind first rest) handler w with
    | Ret _ w' | Thrown _ w' => trace w' <> trace w
    | Undefined => True
    end.
Proof.
  intros Hfirst Hrest Hhandler w Hres.
  destruct (Hfirst w Hres) as (b & w1 & Hrun & Htr1).
  unfold try_catch, bind. rewrite Hrun.
  specialize (Hrest b w1).
  destruct (rest b w1) as [a w2|e w2|]; [| |exact I];
    destruct Hrest as (evs2 & Htr2 & _).
  - rewrite Htr2, Htr1. intros Heq. apply (f_equal length) in Heq.
    rewrite !length_app in Heq. cbn [length] in Heq. lia.
  - specialize (Hhandler e w2).
    destruct (handler e w2) as [a w3|e' w3|]; [| |exact I];
      destruct Hhandler as (evs3 & Htr3 & _);
      (rewrite Htr3, Htr2, Htr1; intros Heq; apply (f_equal length) in Heq;
       rewrite !length_app in Heq; cbn [length] in Heq; lia).
Qed.

Lemma read_hamiltonian_first {B} image (f : Hamiltonian -> B) w :
  is_Some (images w !! image) ->
  exists b w1,
    read_hamiltonian image f w = Ret b w1 /\ trace w1 = trace w ++ [EvRead image].
Proof.
  intros [s Hs]. unfold read_hamiltonian. rewrite Hs.
  eexists. eexists. split; reflexivity.
Qed.

Lemma write_hamiltonian_first image f w :
  is_Some (images w !! image) ->
  exists b w1,
    write_hamiltonian image f w = Ret b w1 /\ trace w1 = trace w ++ [EvWrite image].
Proof.
  intros [s Hs]. unfold write_hamiltonian. rewrite Hs.
  eexists. eexists. split; reflexivity.
Qed.

(** The shape of every mutation: resolve, lock, work under a handler,
    unlock. *)
Lemma locked_region idx_image idx_chain
    (inner after : image_ref -> M unit) (handler : exception -> M unit) :
  let image := (idx_image, idx_chain) in
  emits (is_access image) (inner image) ->
  (forall w, is_Some (images w !! image) ->
     match inner image w with
     | Ret _ w' | Thrown _ w' => trace w' <> trace w
     | Undefined => True
     end) ->
  no_throw (inner image) ->
  (forall w, exists w', after image w = Ret tt w'
                        /\ trace w' = trace w ++ [EvUnlock image]) ->
  (forall e w, exists w', handler e w = Ret tt w' /\ trace w' = trace w) ->
  well_locked image
    (try_catch
       (bind (from_indices idx_image idx_chain)
          (fun image => bind (Lock image)
             (fun _ => bind (inner image) (fun _ => after image))))
       handler).
Proof.
  intros image Hinner Hmoves Hsafe Hafter Hhandler w.
  unfold try_catch, bind, from_indices, Lock.
  destruct (images w !! (idx_image, idx_chain)) as [s|] eqn:Hres.
  - specialize (Hinner (emit (EvLock image) w)).
    specialize (Hsafe (emit (EvLock image) w)).
    specialize (Hmoves (emit (EvLock image) w) (ex_intro _ s Hres)). fold image.
    destruct (inner image (emit (EvLock image) w)) as [[] w1|e w1|];
      [|by destruct (Hsafe e w1)|exact I].
    destruct Hinner as (accesses & Htr1 & Hacc).
    destruct (Hafter w1) as (w2 & -> & Htr2).
    exists (EvLock image :: accesses ++ [EvUnlock image]). split.
    + rewrite Htr2, Htr1. cbn [emit trace].
      rewrite <- !app_assoc. reflexivity.
    + change (images w !! image) with (images w !! (idx_image, idx_chain)).
      rewrite Hres. exists accesses.
      split; [reflexivity|]. split; [|exact Hacc].
      intros ->. apply Hmoves. rewrite Htr1. apply app_nil_r.
  - unfold throw.
    destruct (Hhandler (Exception "from_indices: no such image")
                (record_fault (Exception "from_indices: no such image") w))
      as (w' & -> & Htr).
    exists []. split; [by rewrite app_nil_r|].
    change (images w !! image) with (images w !! (idx_image, idx_chain)).
    by rewrite Hres.
Qed.

Lemma section_is_critical (image : image_ref) {B} (resolved : option B)
    (evs : list Event) :
  match resolved with
  | Some _ => held_section image evs
  | None => evs = []
  end ->
  critical_section image evs.
Proof.
  destruct resolved; [|by left].
  intros (accesses & Hevs & _ & Hacc). right. by exists accesses.
Qed.

Lemma handler_silent idx_image idx_chain e w :
  exists w', spirit_handle_exception_api idx_image idx_chain e w = Ret tt w'
             /\ trace w' = trace w.
Proof. destruct e. eexists. split; reflexivity. Qed.

Lemma Unlock_unlocks image w :
  exists w', Unlock image w = Ret tt w' /\ trace w' = trace w ++ [EvUnlock image].
Proof. eexists. split; reflexivity. Qed.

Lemma Unlock_Log_unlocks image l sd msg idx_image idx_chain w :
  exists w',
    bind (Unlock image) (fun _ => Log l sd msg idx_image idx_chain) w = Ret tt w'
    /\ trace w' = trace w ++ [EvUnlock image].
Proof. eexists. split; reflexivity. Qed.

Lemma mutation_well_locked {A} (c : Call A) :
  is_mutation c = true -> well_locked (target c) (exec c).
Proof.
  destruct c; intros Hmut; try discriminate Hmut;
    cbn [target exec]; unfold_api;
    (apply locked_region;
     [ apply emits_try_catch; [emits_tac | intros e; apply emits_handler]
     | eapply (first_access (idx_image, idx_chain)
                 (is_access (idx_image, idx_chain)));
       [ intros w;
         first [apply read_hamiltonian_first | apply write_hamiltonian_first]
       | intros b; emits_tac
       | intros e; apply emits_handler ]
     | apply try_catch_no_throw; intros e; apply handler_no_throw
     | intros w; first [apply Unlock_unlocks | apply Unlock_Log_unlocks]
     | intros e w; apply handler_silent ]).
Qed.

Lemma emits_resolved (p : Event -> Prop) {A} idx_image idx_chain
    (body : image_ref -> M A) :
  emits p (body (idx_image, idx_chain)) ->
  emits p (bind (from_indices idx_image idx_chain) body).
Proof.
  intros Hbody w. unfold bind, from_indices.
  destruct (images w !! (idx_image, idx_chain)); [apply Hbody|].
  exists []. split; [by rewrite app_nil_r | constructor].
Qed.

Lemma getter_lock_free {A} (c : Call A) :
  is_mutation c = false -> emits (is_read (target c)) (exec c).
Proof.
  destruct c; intros Hget; try discriminate Hget;
    cbn [target exec]; unfold_api;
    (apply emits_try_catch; [apply emits_resolved | intros e]);
    emits_tac.
Qed.

(** ** Two mutations at once *)


Lemma interleaving_nil_l {A} (l2 l : list A) : interleaving [] l2 l -> l = l2.
Proof.
  revert l. induction l2 as [|x l2 IH]; intros l Hi; inversion Hi; subst.
  - reflexivity.
  - f_equal. by apply IH.
Qed.

Lemma interleaving_nil_r {A} (l1 l : list A) : interleaving l1 [] l -> l = l1.
Proof.
  revert l. induction l1 as [|x l1 IH]; intros l Hi; inversion Hi; subst.
  - reflexivity.
  - f_equal. by apply IH.
Qed.

Lemma interleaving_sym {A} (l1 l2 l : list A) :
  interleaving l1 l2 l -> interleaving l2 l1 l.
Proof. induction 1; by constructor. Qed.

(** While one thread holds the lock, the other, which is about to take it,
    does not move. *)
Lemma holder_runs_alone (image : image_ref) (a b : thread) (accesses : list Event)
    (waiting l : list (thread * Event)) :
  Forall (is_access image) accesses ->
  interleaving (tag a (accesses ++ [EvUnlock image]))
    ((b, EvLock image) :: waiting) l ->
  lock_respected image (Some a) l = true ->
  l = tag a (accesses ++ [EvUnlock image]) ++ (b, EvLock image) :: waiting.
Proof.
  intros Hacc. revert l.
  induction Hacc as [|e accesses He _ IH]; intros l Hi Hlock;
    cbn [tag map app] in Hi; inversion Hi; subst; cbn [tag map app].
  - f_equal. by apply interleaving_nil_l.
  - cbn [lock_respected] in Hlock. by rewrite decide_True in Hlock.
  - f_equal. apply IH; [assumption|].
    destruct He as [-> | ->]; exact Hlock.
  - cbn [lock_respected] in Hlock. by rewrite decide_True in Hlock.
Qed.

(** Mutual exclusion: the critical sections of two threads on one image
    never overlap. *)
Lemma critical_sections_serial (image : image_ref) (a b : thread)
    (evs1 evs2 : list Event) (l : list (thread * Event)) :
  critical_section image evs1 ->
  critical_section image evs2 ->
  interleaving (tag a evs1) (tag b evs2) l ->
  lock_respected image None l = true ->
  l = tag a evs1 ++ tag b evs2 \/ l = tag b evs2 ++ tag a evs1.
Proof.
  intros [-> | (acc1 & -> & Hacc1)] [-> | (acc2 & -> & Hacc2)] Hi Hlock.
  - left. inversion Hi. reflexivity.
  - left. cbn [tag map app] in *. by apply interleaving_nil_l.
  - left. cbn [tag map app] in *. rewrite app_nil_r. by apply interleaving_nil_r.
  - cbn [tag map] in Hi. inversion Hi; subst;
      cbn [lock_respected] in Hlock; rewrite decide_True in Hlock by reflexivity.
    + left. cbn [tag map app]. f_equal.
      by apply (holder_runs_alone image a b acc1).
    + right. cbn [tag map app]. f_equal.
      apply (holder_runs_alone image b a acc2); [assumption| |assumption].
      by apply interleaving_sym.
Qed.

Lemma read_then {A B} idx_image idx_chain (f : Hamiltonian -> B)
    (rest : image_ref -> B -> M A) (handler : exception -> M A) :
  (forall b, emits (fun _ => True) (rest (idx_image, idx_chain) b)) ->
  (forall e, emits (fun _ => True) (handler e)) ->
  reads_first (idx_image, idx_chain)
    (try_catch
       (bind (from_indices idx_image idx_chain)
          (fun image => bind (read_hamiltonian image f) (rest image)))
       handler).
Proof.
  intros Hrest Hhandler w [s Hs].
  unfold try_catch, bind, from_indices, read_hamiltonian.
  rewrite Hs. cbn beta iota. rewrite Hs.
  specialize (Hrest (f (hamiltonian s)) (emit (EvRead (idx_image, idx_chain)) w)).
  destruct (rest _ _ _) as [a w1|e w1|]; [| |exact I];
    destruct Hrest as (evs1 & Htr1 & _).
  - exists evs1. rewrite Htr1. cbn [emit trace]. by rewrite <- app_assoc.
  - specialize (Hhandler e w1).
    destruct (handler e w1) as [a w2|e' w2|]; [| |exact I];
      destruct Hhandler as (evs2 & Htr2 & _);
      (exists (evs1 ++ evs2); rewrite Htr2, Htr1; cbn [emit trace];
       by rewrite <- !app_assoc).
Qed.

Lemma emits_weaken (p q : Event -> Prop) {A} (m : M A) :
  (forall e, p e -> q e) -> emits p m -> emits q m.
Proof.
  intros Hpq Hm w. specialize (Hm w).
  destruct (m w); [| |exact I];
    destruct Hm as (evs & Htr & Hp);
    (exists evs; split; [assumption | by apply (Forall_impl _ _ _ Hp)]).
Qed.

Lemma getter_reads_first {A} (c : Call A) :
  is_mutation c = false -> reads_first (target c) (exec c).
Proof.
  destruct c; intros Hget; try discriminate Hget;
    cbn [target exec]; unfold_api;
    (apply read_then;
       [ intros b; apply (emits_weaken (is_read (idx_image, idx_chain)));
           [trivial | emits_tac]
       | intros e; emits_tac ]).
Qed.

Lemma new_events_app w w' evs :
  trace w' = trace w ++ evs -> new_events w w' = evs.
Proof. unfold new_events. intros ->. by rewrite drop_app_length. Qed.

(** ** Isolation of faults, in general *)

Lemma no_error_logged_refl w w' : log w' = log w -> no_error_logged w w'.
Proof. intros Hlog. exists []. split; [by rewrite app_nil_r | constructor]. Qed.

Section Quiet.

Lemma quiet_pure {A} (m : M A) :
  (forall w,
     match m w with
     | Ret _ w' => faults w' = faults w /\ log w' = log w
     | Thrown _ _ => False
     | Undefined => True
     end) ->
  quiet m.
Proof.
  intros Hm w. specialize (Hm w). by destruct (m w).
Qed.

Lemma quiet_ret {A} (a : A) : quiet (ret a).
Proof. apply quiet_pure. intros w. by split. Qed.

Lemma quiet_throw {A} (e : exception) : quiet (@throw _ A e).
Proof. intros w. by split. Qed.

Lemma quiet_lift_result {A} (r : result A) : quiet (lift_result r).
Proof. destruct r; [apply quiet_ret | apply quiet_throw]. Qed.

Lemma quiet_lift_defined {A} (o : option A) : quiet (lift_defined o).
Proof. destruct o; [apply quiet_ret | intros w; exact I]. Qed.

Lemma quiet_deref image : quiet (deref image).
Proof.
  apply quiet_pure. intros w. unfold deref.
  destruct (images w !! _); [by split | exact I].
Qed.

Lemma quiet_read_hamiltonian {A} image (f : Hamiltonian -> A) :
  quiet (read_hamiltonian image f).
Proof.
  apply quiet_pure. intros w. unfold read_hamiltonian.
  destruct (images w !! _); [by split | exact I].
Qed.

Lemma quiet_write_hamiltonian image f : quiet (write_hamiltonian image f).
Proof.
  apply quiet_pure. intros w. unfold write_hamiltonian.
  destruct (images w !! _); [by split | exact I].
Qed.

Lemma quiet_read_heisenberg {A} image (f : Hamiltonian_Heisenberg -> A) :
  quiet (read_heisenberg image f).
Proof.
  apply quiet_pure. intros w. unfold read_heisenberg.
  destruct (images w !! _) as [s|]; [|exact I].
  destruct (variant (hamiltonian s)); [by split | exact I].
Qed.

Lemma quiet_write_heisenberg image f : quiet (write_heisenberg image f).
Proof.
  apply quiet_pure. intros w. unfold write_heisenberg.
  destruct (images w !! _) as [s|]; [|exact I].
  destruct (variant (hamiltonian s)); [by split | exact I].
Qed.

Lemma quiet_call_heisenberg {D} image
    (method : Geometry -> Hamiltonian_Heisenberg -> D * option exception) install :
  quiet (call_heisenberg image method install).
Proof.
  intros w. unfold call_heisenberg.
  destruct (images w !! _) as [s|]; [|exact I].
  destruct (variant (hamiltonian s)) as [ham|]; [|exact I].
  destruct (method _ _) as [d [e|]]; by split.
Qed.

Lemma quiet_bind {A B} (m : M A) (f : A -> M B) :
  quiet m -> (forall a, quiet (f a)) -> quiet (bind m f).
Proof.
  intros Hm Hf w. unfold bind. specialize (Hm w).
  destruct (m w) as [a w1|e w1|]; [|assumption|exact I].
  destruct Hm as [Hf1 Hl1]. specialize (Hf a w1).
  destruct (f a w1) as [b w2|e w2|]; [| |exact I]; destruct Hf as [Hf2 Hl2];
    (split; congruence).
Qed.

Lemma clean_quiet {A} (m : M A) : quiet m -> raises_cleanly m.
Proof.
  intros Hm w. specialize (Hm w). destruct (m w); [|assumption|exact I].
  destruct Hm as [Hf Hl]. split; [exact Hf | by apply no_error_logged_refl].
Qed.

Lemma clean_Log l sd msg idx_image idx_chain :
  l <> Error -> raises_cleanly (Log l sd msg idx_image idx_chain).
Proof.
  intros Hl w. split; [reflexivity|].
  eexists. split; [reflexivity | by repeat constructor].
Qed.

Lemma clean_bind {A B} (m : M A) (f : A -> M B) :
  quiet m -> (forall a, raises_cleanly (f a)) -> raises_cleanly (bind m f).
Proof.
  intros Hm Hf w. unfold bind. specialize (Hm w).
  destruct (m w) as [a w1|e w1|]; [|assumption|exact I].
  destruct Hm as [Hf1 Hl1]. specialize (Hf a w1).
  destruct (f a w1) as [b w2|e w2|]; [| |exact I]; destruct Hf as [Hf2 Hl2].
  - split; [congruence|].
    destruct Hl2 as (entries & Hlog & Hno). exists entries.
    split; [congruence | assumption].
  - split; congruence.
Qed.

End Quiet.

Ltac quiet_step :=
  first
    [ apply quiet_ret
    | apply quiet_lift_result
    | apply quiet_lift_defined
    | apply quiet_deref
    | apply quiet_read_hamiltonian
    | apply quiet_write_hamiltonian
    | apply quiet_read_heisenberg
    | apply quiet_write_heisenberg
    | apply quiet_call_heisenberg
    | apply quiet_bind; [|intros ?]
    | match goal with
      | |- quiet (if ?b then _ else _) => destruct b
      | |- quiet (match ?x with _ => _ end) => destruct x
      end ].

Ltac quiet_tac := unfold shells_message; repeat quiet_step.

Ltac clean_step :=
  first
    [ apply clean_Log; discriminate
    | apply clean_bind; [quiet_tac | intros ?]
    | match goal with
      | |- raises_cleanly (if ?b then _ else _) => destruct b
      | |- raises_cleanly (match ?x with _ => _ end) => destruct x
      end
    | apply clean_quiet; quiet_tac ].

Ltac clean_tac := repeat clean_step.

Lemma handler_isolates idx_image idx_chain {A} (default : A) (w w1 : World) e :
  faults w1 = faults w ++ [mkFault e (images w1)] ->
  log w1 = log w ->
  isolated idx_image idx_chain default w
    (bind (spirit_handle_exception_api idx_image idx_chain e)
       (fun _ => ret default) w1).
Proof.
  intros Hf Hl. destruct e as [what]. right. exists (Exception what).
  cbn [images faults log]. split; [exact Hf|]. split; [|reflexivity].
  by rewrite Hl.
Qed.

(** A getter: resolve, work, and hand back the default when a fault was
    caught. *)
Lemma getter_isolated idx_image idx_chain {A} (default : A)
    (body : image_ref -> M A) :
  raises_cleanly (body (idx_image, idx_chain)) ->
  forall w,
    isolated idx_image idx_chain default w
      (try_catch (bind (from_indices idx_image idx_chain) body)
         (fun e => bind (spirit_handle_exception_api idx_image idx_chain e)
                     (fun _ => ret default)) w).
Proof.
  intros Hbody w. unfold try_catch at 1. unfold bind at 1. unfold from_indices.
  destruct (images w !! (idx_image, idx_chain)) as [s|].
  - specialize (Hbody w).
    destruct (body (idx_image, idx_chain) w) as [v w1|e w1|]; [| |exact I].
    + left. exact Hbody.
    + destruct Hbody as [Hf Hl]. by apply handler_isolates.
  - apply handler_isolates; reflexivity.
Qed.

(** A setter: resolve, lock, work under a handler, unlock. *)
Lemma setter_isolated idx_image idx_chain (body : image_ref -> M unit) :
  raises_cleanly (body (idx_image, idx_chain)) ->
  forall w,
    isolated idx_image idx_chain tt w
      (try_catch
         (bind (from_indices idx_image idx_chain)
            (fun image => bind (Lock image)
               (fun _ => bind
                  (try_catch (body image)
                     (spirit_handle_exception_api idx_image idx_chain))
                  (fun _ => Unlock image))))
         (spirit_handle_exception_api idx_image idx_chain) w).
Proof.
  intros Hbody w. unfold try_catch, bind, from_indices, Lock, Unlock.
  destruct (images w !! (idx_image, idx_chain)) as [s|].
  - specialize (Hbody (emit (EvLock (idx_image, idx_chain)) w)).
    destruct (body _ _) as [[] w1|[what] w1|]; [| |exact I].
    + left. exact Hbody.
    + right. exists (Exception what). destruct Hbody as [Hf Hl].
      cbn [spirit_handle_exception_api Log emit images faults log] in *.
      split; [exact Hf|]. split; [by rewrite Hl | reflexivity].
  - right. exists (Exception "from_indices: no such image").
    cbn. repeat split.
Qed.

Lemma Set_Boundary_Conditions_isolated periodical idx_image idx_chain w :
  isolated idx_image idx_chain tt w
    (Hamiltonian_Set_Boundary_Conditions periodical idx_image idx_chain w).
Proof.
  destruct (images w !! (idx_image, idx_chain)) as [s|] eqn:Hres.
  - unfold Hamiltonian_Set_Boundary_Conditions. run.
    left. cbn [faults log]. split; [reflexivity|].
    eexists. split; [reflexivity | by repeat constructor].
  - unfold Hamiltonian_Set_Boundary_Conditions. run.
    right. exists (Exception "from_indices: no such image").
    cbn [faults log images fault_entry]. repeat split.
Qed.

Lemma exec_isolated {A} (c : Call A) (w : World) :
  isolated (target c).1 (target c).2 (safe_default c) w (exec c w).
Proof.
  destruct c; cbn [target exec safe_default fst snd];
    try apply Set_Boundary_Conditions_isolated;
    unfold_api;
    first [ apply setter_isolated | apply getter_isolated ];
    clean_tac.
Qed.

(** ** The claims of the specification *)

Lemma heisenberg_at_intro w image s ham :
  images w !! image = Some s -> variant (hamiltonian s) = Heisenberg ham ->
  heisenberg_at w image ham.
Proof. intros Hs Hv. by exists s. Qed.

Lemma installed_lookup idx_image idx_chain s ham' upd msg n w :
  images (installed idx_image idx_chain s ham' upd msg n w) !! (idx_image, idx_chain)
    = Some (with_heisenberg (set_derived upd.1 ham') s).
Proof. apply lookup_insert_eq. Qed.

Lemma heisenberg_at_installed idx_image idx_chain s ham' upd msg n w :
  heisenberg_at (installed idx_image idx_chain s ham' upd msg n w)
    (idx_image, idx_chain) (set_derived upd.1 ham').
Proof.
  apply heisenberg_at_intro with (s := with_heisenberg (set_derived upd.1 ham') s);
    [apply installed_lookup | reflexivity].
Qed.

Lemma vector_range_valid {A} (a : list A) (n : Z) :
  (0 <= n <= Z.of_nat (length a))%Z ->
  vector_range a n = Some (take (Z.to_nat n) a).
Proof.
  intros Hn. unfold vector_range.
  destruct (Z.ltb_spec n 0); [lia|].
  destruct (Z.ltb_spec (Z.of_nat (length a)) n); [lia|]. reflexivity.
Qed.

(** C1.  On an image whose Hamiltonian is not named "Heisenberg", each of
    the six Heisenberg-only setters returns normally, leaves every image of
    the state as it was, and adds one entry, of level Warning, to the log. *)
Theorem C1_unsupported_variant_refused
    (w : World) (idx_image idx_chain : Z) (s : Spin_System) :
  images w !! (idx_image, idx_chain) = Some s ->
  Name (hamiltonian s) <> "Heisenberg" ->
  let refusal (o : Outcome unit) :=
    exists w' msg,
      o = Ret tt w'
      /\ images w' = images w
      /\ log w' = log w ++ [mkLogEntry Warning API msg idx_image idx_chain] in
  (forall mu_s', refusal (Hamiltonian_Set_mu_s mu_s' idx_image idx_chain w))
  /\ (forall magnitude normal,
        refusal (Hamiltonian_Set_Field magnitude normal idx_image idx_chain w))
  /\ (forall magnitude normal,
        refusal (Hamiltonian_Set_Anisotropy magnitude normal idx_image idx_chain w))
  /\ (forall n_shells jij,
        refusal (Hamiltonian_Set_Exchange n_shells jij idx_image idx_chain w))
  /\ (forall n_shells dij chirality,
        refusal (Hamiltonian_Set_DMI n_shells dij chirality idx_image idx_chain w))
  /\ (forall radius, refusal (Hamiltonian_Set_DDI radius idx_image idx_chain w)).
Proof.
  intros Hres Hname refusal.
  repeat split; intros; eexists; eexists.
  - rewrite (Set_mu_s_refused _ _ _ _ Hres Hname). repeat split.
  - rewrite (Set_Field_refused _ _ _ _ Hres Hname). repeat split.
  - rewrite (Set_Anisotropy_refused _ _ _ _ Hres Hname). repeat split.
  - rewrite (Set_Exchange_refused _ _ _ _ Hres Hname). repeat split.
  - rewrite (Set_DMI_refused _ _ _ _ Hres Hname). repeat split.
  - rewrite (Set_DDI_refused _ _ _ _ Hres Hname). repeat split.
Qed.

(** C2.  A mutation operation on an image that resolves takes the lock of
    the image, then accesses its Hamiltonian, at least once and only
    between taking the lock and releasing it, and always releases the lock
    before it returns; on indices that name no image it neither locks nor
    accesses anything.  Two mutations of one image that run at once under
    the lock run one after the other.  A getter never takes the lock: on an
    image that resolves it reads the Hamiltonian, and every event of it is
    such a read. *)
Theorem C2_mutations_locked_getters_lock_free :
  (forall A (c : Call A), is_mutation c = true -> well_locked (target c) (exec c))
  /\ (forall A B (c1 : Call A) (c2 : Call B) w1 w2 v1 v2 w1' w2',
        is_mutation c1 = true -> is_mutation c2 = true ->
        target c1 = target c2 ->
        exec c1 w1 = Ret v1 w1' -> exec c2 w2 = Ret v2 w2' ->
        forall (a b : thread) (l : list (thread * Event)),
          interleaving (tag a (new_events w1 w1')) (tag b (new_events w2 w2')) l ->
          lock_respected (target c1) None l = true ->
          l = tag a (new_events w1 w1') ++ tag b (new_events w2 w2')
          \/ l = tag b (new_events w2 w2') ++ tag a (new_events w1 w1'))
  /\ (forall A (c : Call A),
        is_mutation c = false ->
        emits (is_read (target c)) (exec c) /\ reads_first (target c) (exec c)).
Proof.
  split; [|split].
  - intros A c. apply mutation_well_locked.
  - intros A B c1 c2 w1 w2 v1 v2 w1' w2' Hm1 Hm2 Htarget Hr1 Hr2 a b l.
    pose proof (mutation_well_locked c1 Hm1 w1) as H1.
    pose proof (mutation_well_locked c2 Hm2 w2) as H2.
    rewrite Hr1 in H1. rewrite Hr2 in H2. rewrite <- Htarget in H2.
    destruct H1 as (evs1 & Htr1 & Hcs1). destruct H2 as (evs2 & Htr2 & Hcs2).
    apply section_is_critical in Hcs1. apply section_is_critical in Hcs2.
    rewrite (new_events_app _ _ _ Htr1), (new_events_app _ _ _ Htr2).
    by apply critical_sections_serial.
  - intros A c Hget. split; [by apply getter_lock_free | by apply getter_reads_first].
Qed.

(** C3.  No operation of the interface raises.  Every fault raised within
    an operation is isolated: the operation returns, the images are as
    they were when the fault was raised, the fault is the one new entry of
    the log, of level Error and tagged with the indices of the call, and
    the operation hands back its safe default.  So, when the image does not
    resolve, [Hamiltonian_Get_Name] returns no name, the two getters of a
    pair count return 0, and every operation leaves all images as they
    were. *)
Theorem C3_faults_are_isolated :
  (forall A (c : Call A) w e w', exec c w <> Thrown e w')
  /\ (forall A (c : Call A) w,
        isolated (target c).1 (target c).2 (safe_default c) w (exec c w))
  /\ (forall A (c : Call A) w,
        images w !! target c = None ->
        exec c w = Ret (safe_default c) (unresolved (target c).1 (target c).2 w))
  /\ (forall w idx_image idx_chain,
        images w !! (idx_image, idx_chain) = None ->
        Hamiltonian_Get_Name idx_image idx_chain w
          = Ret None (unresolved idx_image idx_chain w)
        /\ Hamiltonian_Get_Exchange_N_Pairs idx_image idx_chain w
          = Ret 0%Z (unresolved idx_image idx_chain w)
        /\ Hamiltonian_Get_DMI_N_Pairs idx_image idx_chain w
          = Ret 0%Z (unresolved idx_image idx_chain w)).
Proof.
  split; [|split; [|split]].
  - intros A c. apply exec_no_throw.
  - intros A c. apply exec_isolated.
  - intros A c. apply exec_unresolved.
  - intros w idx_image idx_chain Hnone. repeat split.
    + exact (exec_unresolved (Get_Name idx_image idx_chain) w Hnone).
    + exact (exec_unresolved (Get_Exchange_N_Pairs idx_image idx_chain) w Hnone).
    + exact (exec_unresolved (Get_DMI_N_Pairs idx_image idx_chain) w Hnone).
Qed.

(** C5.  [Hamiltonian_Set_Exchange] with a count [k >= 0] and an array of
    [k] magnitudes, followed by [Hamiltonian_Get_Exchange_Shells] into an
    array of at least [k] cells, hands back the count [k] and, in the first
    [k] cells, the same magnitudes. *)
Theorem C5_exchange_shells_round_trip
    (w : World) (idx_image idx_chain : Z) (s : Spin_System)
    (ham : Hamiltonian_Heisenberg) (k : Z) (jij : list R)
    (n_shells : Z) (out : list R) :
  images w !! (idx_image, idx_chain) = Some s ->
  variant (hamiltonian s) = Heisenberg ham ->
  (0 <= k)%Z -> in_int k ->
  length jij = Z.to_nat k ->
  (length jij <= length out)%nat ->
  exists w1 w2 out',
    Hamiltonian_Set_Exchange k jij idx_image idx_chain w = Ret tt w1
    /\ Hamiltonian_Get_Exchange_Shells n_shells out idx_image idx_chain w1
       = Ret (k, out') w2
    /\ take (Z.to_nat k) out' = jij
    /\ length out' = length out.
Proof.
  intros Hres Hvar Hk Hint Hlen Hout.
  assert (vector_range jij k = Some jij) as Hrange.
  { rewrite vector_range_valid by lia. by rewrite <- Hlen, firstn_all. }
  pose proof (Set_Exchange_run _ _ _ _ _ Hres Hvar _ _ _ Hrange) as Hset.
  cbv zeta in Hset.
  match type of Hset with
  | _ = Ret tt (installed _ _ _ ?h ?u _ _ _) => set (ham1 := set_derived u.1 h) in *
  end.
  assert (exchange_shell_magnitudes ham1 = jij) as Hshells
    by (subst ham1; destruct ham; reflexivity).
  rewrite Hset.
  eexists. eexists. exists (jij ++ drop (length jij) out).
  split; [reflexivity|]. split; [|split].
  - rewrite (Get_Exchange_Shells_run _ _ _ (with_heisenberg ham1 s) ham1).
    + rewrite Hshells. f_equal. f_equal. lia.
    + apply installed_lookup.
    + reflexivity.
    + rewrite Hshells. unfold in_int, INT_MAX in *. lia.
    + by rewrite Hshells.
  - rewrite <- Hlen. apply take_app_length.
  - rewrite length_app, length_drop. lia.
Qed.

(** C6.  After [Hamiltonian_Set_Exchange] on a Heisenberg image, with a
    count that fits the array, the explicit pairs [exchange_pairs_in] and
    [exchange_magnitudes_in] are empty whatever they held, and the shell
    magnitudes are the ones given; likewise [dmi_pairs_in],
    [dmi_magnitudes_in] and [dmi_normals_in] after [Hamiltonian_Set_DMI]. *)
Theorem C6_explicit_pairs_are_cleared
    (w : World) (idx_image idx_chain : Z) (s : Spin_System)
    (ham : Hamiltonian_Heisenberg) (n_shells : Z) (magnitudes : list R)
    (chirality : Z) :
  images w !! (idx_image, idx_chain) = Some s ->
  variant (hamiltonian s) = Heisenberg ham ->
  (0 <= n_shells <= Z.of_nat (length magnitudes))%Z ->
  (exists w' ham',
     Hamiltonian_Set_Exchange n_shells magnitudes idx_image idx_chain w = Ret tt w'
     /\ heisenberg_at w' (idx_image, idx_chain) ham'
     /\ exchange_pairs_in ham' = []
     /\ exchange_magnitudes_in ham' = []
     /\ exchange_shell_magnitudes ham' = take (Z.to_nat n_shells) magnitudes)
  /\ (exists w' ham',
        Hamiltonian_Set_DMI n_shells magnitudes chirality idx_image idx_chain w
          = Ret tt w'
        /\ heisenberg_at w' (idx_image, idx_chain) ham'
        /\ dmi_pairs_in ham' = []
        /\ dmi_magnitudes_in ham' = []
        /\ dmi_normals_in ham' = []
        /\ dmi_shell_magnitudes ham' = take (Z.to_nat n_shells) magnitudes
        /\ dmi_shell_chirality ham' = chirality).
Proof.
  intros Hres Hvar Hn.
  pose proof (vector_range_valid magnitudes n_shells Hn) as Hrange.
  split.
  - eexists. eexists.
    split; [apply (Set_Exchange_run _ _ _ _ _ Hres Hvar _ _ _ Hrange)|].
    split; [apply heisenberg_at_installed|].
    destruct ham; repeat split.
  - eexists. eexists.
    split; [apply (Set_DMI_run _ _ _ _ _ Hres Hvar _ _ chirality _ Hrange)|].
    split; [apply heisenberg_at_installed|].
    destruct ham; repeat split.
Qed.

(** C7, as amended.  [Hamiltonian_Set_Field] stores the magnitude times
    [mu_B]; a following [Hamiltonian_Get_Field] hands back the magnitude
    that was set when it is not negative, and zero, with the direction
    (0, 0, 1), when it is negative. *)
Theorem C7_field_magnitude_round_trip
    (w : World) (idx_image idx_chain : Z) (s : Spin_System)
    (ham : Hamiltonian_Heisenberg) (M : R) (d : float3)
    (magnitude : R) (normal : float3) :
  images w !! (idx_image, idx_chain) = Some s ->
  variant (hamiltonian s) = Heisenberg ham ->
  exists w1 ham1 w2 got,
    Hamiltonian_Set_Field M d idx_image idx_chain w = Ret tt w1
    /\ heisenberg_at w1 (idx_image, idx_chain) ham1
    /\ external_field_magnitude ham1 = M * mu_B
    /\ Hamiltonian_Get_Field magnitude normal idx_image idx_chain w1 = Ret got w2
    /\ (0 <= M -> got.1 = M)
    /\ (M < 0 -> got = (0, (0, 0, 1))).
Proof.
  intros Hres Hvar.
  pose proof (Set_Field_run _ _ _ _ _ Hres Hvar M d) as Hset.
  cbv zeta in Hset.
  match type of Hset with
  | _ = Ret tt (installed _ _ _ ?h ?u _ _ _) => set (ham1 := set_derived u.1 h) in *
  end.
  assert (external_field_magnitude ham1 = M * mu_B) as Hmag
    by (subst ham1; destruct ham; reflexivity).
  rewrite Hset. pose proof mu_B_pos as Hmu.
  destruct (Rlt_dec 0 M) as [Hpos|Hneg].
  - eexists. exists ham1. eexists. eexists.
    split; [reflexivity|]. split; [apply heisenberg_at_installed|].
    split; [exact Hmag|]. split; [|split].
    + apply (Get_Field_positive _ _ _ (with_heisenberg ham1 s) ham1);
        [apply installed_lookup | reflexivity | rewrite Hmag; nra].
    + intros _. cbn [fst]. rewrite Hmag. field. lra.
    + intros Hlt. lra.
  - eexists. exists ham1. eexists. eexists.
    split; [reflexivity|]. split; [apply heisenberg_at_installed|].
    split; [exact Hmag|]. split; [|split].
    + apply (Get_Field_nonpositive _ _ _ (with_heisenberg ham1 s) ham1);
        [apply installed_lookup | reflexivity | rewrite Hmag; nra].
    + intros Hge. cbn [fst]. lra.
    + intros _. reflexivity.
Qed.

(** C9.  On an image that resolves, whatever its Hamiltonian,
    [Hamiltonian_Get_Exchange_N_Pairs] and [Hamiltonian_Get_DMI_N_Pairs]
    return 0 and log the warning that fetching the pairs is not yet
    implemented, and [Hamiltonian_Get_Exchange_Pairs] logs the same warning
    and leaves its output arrays as they were. *)
Theorem C9_pair_getters_are_stubs
    (w : World) (idx_image idx_chain : Z) (s : Spin_System) (out : pair_buffers) :
  images w !! (idx_image, idx_chain) = Some s ->
  let warned what :=
    mkWorld (images w)
      (log w ++ [mkLogEntry Warning API
                   (Name (hamiltonian s) +:+ " Hamiltonian: fetching " +:+ what
                      +:+ " pairs is not yet implemented...")
                   idx_image idx_chain])
      (trace w ++ [EvRead (idx_image, idx_chain)])
      (faults w) in
  Hamiltonian_Get_Exchange_N_Pairs idx_image idx_chain w = Ret 0%Z (warned "exchange")
  /\ Hamiltonian_Get_DMI_N_Pairs idx_image idx_chain w = Ret 0%Z (warned "DMI")
  /\ Hamiltonian_Get_Exchange_Pairs out idx_image idx_chain w
     = Ret out (warned "exchange").
Proof.
  intros Hres warned. split; [|split].
  - apply (Get_Exchange_N_Pairs_run _ _ _ _ Hres).
  - apply (Get_DMI_N_Pairs_run _ _ _ _ Hres).
  - apply (Get_Exchange_Pairs_run _ _ _ _ Hres).
Qed.

(** C10.  When the stored [external_field_magnitude] of a Heisenberg image
    is not positive, [Hamiltonian_Get_Field] hands back the magnitude 0 and
    the direction (0, 0, 1).  So it does after [Hamiltonian_Set_Field] with
    magnitude 0, whatever direction was set, although that direction,
    normalised, is what the Hamiltonian stores. *)
Theorem C10_no_field_reads_as_sentinel
    (w : World) (idx_image idx_chain : Z) (s : Spin_System)
    (ham : Hamiltonian_Heisenberg) (magnitude : R) (normal : float3) :
  images w !! (idx_image, idx_chain) = Some s ->
  variant (hamiltonian s) = Heisenberg ham ->
  (external_field_magnitude ham <= 0 ->
   exists w',
     Hamiltonian_Get_Field magnitude normal idx_image idx_chain w
       = Ret (0, (0, 0, 1)) w')
  /\ (forall d : float3,
        exists w1 ham1 w2,
          Hamiltonian_Set_Field 0 d idx_image idx_chain w = Ret tt w1
          /\ heisenberg_at w1 (idx_image, idx_chain) ham1
          /\ external_field_normal ham1 = normalize (Vector3_of d)
          /\ Hamiltonian_Get_Field magnitude normal idx_image idx_chain w1
             = Ret (0, (0, 0, 1)) w2).
Proof.
  intros Hres Hvar. split.
  - intros Hle. eexists. apply (Get_Field_nonpositive _ _ _ _ _ Hres Hvar _ _ Hle).
  - intros d.
    pose proof (Set_Field_run _ _ _ _ _ Hres Hvar 0 d) as Hset.
    cbv zeta in Hset.
    match type of Hset with
    | _ = Ret tt (installed _ _ _ ?h ?u _ _ _) => set (ham1 := set_derived u.1 h) in *
    end.
    rewrite Hset. eexists. exists ham1. eexists.
    split; [reflexivity|]. split; [apply heisenberg_at_installed|].
    split; [subst ham1; destruct ham; reflexivity|].
    apply (Get_Field_nonpositive _ _ _ (with_heisenberg ham1 s) ham1);
      [apply installed_lookup | reflexivity |].
    subst ham1; destruct ham; cbn. lra.
Qed.

(** * Further properties of the interface *)

(** ** The remaining functions, run *)

Section On_Any_Variant.
Variables (w : World) (idx_image idx_chain : Z) (s : Spin_System).
Hypothesis resolves : images w !! (idx_image, idx_chain) = Some s.

Let image : image_ref := (idx_image, idx_chain).

Lemma Set_Boundary_Conditions_run periodical :
  Hamiltonian_Set_Boundary_Conditions periodical idx_image idx_chain w =
    Ret tt (bounded periodical idx_image idx_chain s w).
Proof.
  unfold Hamiltonian_Set_Boundary_Conditions, bounded. run.
  destruct (boundary_conditions (hamiltonian s)) as [[b0 b1] b2].
  destruct periodical as [[p0 p1] p2]. run. unfold info. finish.
Qed.

Lemma Get_Boundary_Conditions_run periodical :
  Hamiltonian_Get_Boundary_Conditions periodical idx_image idx_chain w =
    Ret (boundary_conditions (hamiltonian s)) (reads image 3 w).
Proof.
  unfold Hamiltonian_Get_Boundary_Conditions. run.
  destruct (boundary_conditions (hamiltonian s)) as [[b0 b1] b2]. finish.
Qed.

Lemma Get_Name_run :
  Hamiltonian_Get_Name idx_image idx_chain w =
    Ret (Some (Name (hamiltonian s))) (reads image 1 w).
Proof. unfold Hamiltonian_Get_Name. run. finish. Qed.

End On_Any_Variant.

Section Getters_Skip.
Variables (w : World) (idx_image idx_chain : Z) (s : Spin_System).
Hypothesis resolves : images w !! (idx_image, idx_chain) = Some s.
Hypothesis other_variant : Name (hamiltonian s) <> "Heisenberg".

Let image : image_ref := (idx_image, idx_chain).

Lemma Get_mu_s_skipped mu_s' :
  Hamiltonian_Get_mu_s mu_s' idx_image idx_chain w = Ret mu_s' (reads image 1 w).
Proof. unfold Hamiltonian_Get_mu_s. run. finish. Qed.

Lemma Get_Field_skipped magnitude normal :
  Hamiltonian_Get_Field magnitude normal idx_image idx_chain w =
    Ret (magnitude, normal) (reads image 1 w).
Proof. unfold Hamiltonian_Get_Field. run. finish. Qed.

Lemma Get_Anisotropy_skipped magnitude normal :
  Hamiltonian_Get_Anisotropy magnitude normal idx_image idx_chain w =
    Ret (magnitude, normal) (reads image 1 w).
Proof. unfold Hamiltonian_Get_Anisotropy. run. finish. Qed.

Lemma Get_Exchange_Shells_skipped n_shells jij :
  Hamiltonian_Get_Exchange_Shells n_shells jij idx_image idx_chain w =
    Ret (n_shells, jij) (reads image 1 w).
Proof. unfold Hamiltonian_Get_Exchange_Shells. run. finish. Qed.

Lemma Get_DMI_Shells_skipped n_shells dij chirality :
  Hamiltonian_Get_DMI_Shells n_shells dij chirality idx_image idx_chain w =
    Ret (n_shells, dij, chirality) (reads image 1 w).
Proof. unfold Hamiltonian_Get_DMI_Shells. run. finish. Qed.

Lemma Get_DDI_skipped radius :
  Hamiltonian_Get_DDI radius idx_image idx_chain w = Ret radius (reads image 1 w).
Proof. unfold Hamiltonian_Get_DDI. run. finish. Qed.

End Getters_Skip.

Lemma int_of_size_small (n : nat) :
  (Z.of_nat n <= INT_MAX)%Z -> int_of_size n = Z.of_nat n.
Proof.
  intros Hn. unfold int_of_size, INT_MAX in *. rewrite Z.mod_small by lia. lia.
Qed.

(** The copy loop is undefined when the destination is too short. *)
Lemma copy_loop_overflow {A} (n : nat) :
  forall (i : nat) (src dst : list A),
    (length dst < i + n)%nat -> (i <= length dst)%nat -> copy_loop n i src dst = None.
Proof.
  induction n as [|n IH]; intros i src dst Hdst Hi; cbn [copy_loop]; [lia|].
  destruct (src !! i) as [x|]; [|reflexivity].
  unfold array_store. destruct (decide (i < length dst)%nat) as [Hlt|Hge]; [|reflexivity].
  apply IH; rewrite length_insert; lia.
Qed.

(** The copy loop is undefined when the source is too short. *)
Lemma copy_loop_underflow {A} (n : nat) :
  forall (i : nat) (src dst : list A),
    (length src < i + n)%nat -> (i <= length src)%nat -> copy_loop n i src dst = None.
Proof.
  induction n as [|n IH]; intros i src dst Hsrc Hi; cbn [copy_loop]; [lia|].
  destruct (src !! i) as [x|] eqn:Hx; [|reflexivity].
  apply lookup_lt_Some in Hx.
  destruct (array_store dst i x) as [dst'|]; [|reflexivity].
  apply IH; lia.
Qed.

Section More_Getters_On_Heisenberg.
Variables (w : World) (idx_image idx_chain : Z) (s : Spin_System).
Variable ham : Hamiltonian_Heisenberg.
Hypothesis resolves : images w !! (idx_image, idx_chain) = Some s.
Hypothesis is_heisenberg : variant (hamiltonian s) = Heisenberg ham.

Let image : image_ref := (idx_image, idx_chain).
Let cells : nat := Z.to_nat (n_cell_atoms (geometry s)).

Lemma Get_mu_s_run (out : list R) :
  (cells <= length (mu_s ham))%nat -> (cells <= length out)%nat ->
  Hamiltonian_Get_mu_s out idx_image idx_chain w =
    Ret (take cells (mu_s ham) ++ drop cells out) (reads image 2 w).
Proof.
  intros Hsrc Hdst. unfold Hamiltonian_Get_mu_s. run.
  rewrite copy_loop_spec by (subst cells; lia).
  rewrite take_0, drop_0. cbn [app]. run. finish.
Qed.

Lemma Get_mu_s_undefined (out : list R) :
  (length (mu_s ham) < cells)%nat \/ (length out < cells)%nat ->
  Hamiltonian_Get_mu_s out idx_image idx_chain w = Undefined.
Proof.
  intros Hshort. unfold Hamiltonian_Get_mu_s. run.
  destruct Hshort as [Hsrc|Hdst].
  - rewrite copy_loop_underflow by (subst cells; lia). reflexivity.
  - rewrite copy_loop_overflow by (subst cells; lia). reflexivity.
Qed.

Lemma Get_Anisotropy_none magnitude normal :
  anisotropy_indices ham = [] ->
  Hamiltonian_Get_Anisotropy magnitude normal idx_image idx_chain w =
    Ret (0, (0, 0, 1)) (reads image 2 w).
Proof.
  intros Hnone. unfold Hamiltonian_Get_Anisotropy. run.
  rewrite Hnone. cbn [length Nat.ltb Nat.leb]. finish.
Qed.

Lemma Get_Anisotropy_run magnitude normal K v :
  anisotropy_indices ham <> [] ->
  anisotropy_magnitudes ham !! 0%nat = Some K ->
  anisotropy_normals ham !! 0%nat = Some v ->
  Hamiltonian_Get_Anisotropy magnitude normal idx_image idx_chain w =
    Ret (K, float3_of v) (reads image 6 w).
Proof.
  intros Hsome HK Hv. unfold Hamiltonian_Get_Anisotropy. run.
  destruct (anisotropy_indices ham) as [|i0 indices]; [by destruct Hsome|].
  cbn [length Nat.ltb Nat.leb].
  repeat first [ rewrite HK | rewrite Hv
               | progress cbn [fmap option_fmap option_map] | run_step ].
  finish.
Qed.

Lemma Get_DMI_Shells_run n_shells (dij : list R) chirality :
  (Z.of_nat (length (dmi_shell_magnitudes ham)) <= INT_MAX)%Z ->
  (length (dmi_shell_magnitudes ham) <= length dij)%nat ->
  Hamiltonian_Get_DMI_Shells n_shells dij chirality idx_image idx_chain w =
    Ret (Z.of_nat (length (dmi_shell_magnitudes ham)),
         dmi_shell_magnitudes ham ++ drop (length (dmi_shell_magnitudes ham)) dij,
         dmi_shell_chirality ham)
      (reads image 4 w).
Proof.
  intros Hint Hlen. unfold Hamiltonian_Get_DMI_Shells. run.
  rewrite int_of_size_small by assumption. rewrite Nat2Z.id.
  rewrite copy_loop_all by assumption. run. finish.
Qed.

Lemma Get_DMI_Shells_undefined n_shells (dij : list R) chirality :
  (Z.of_nat (length (dmi_shell_magnitudes ham)) <= INT_MAX)%Z ->
  (length dij < length (dmi_shell_magnitudes ham))%nat ->
  Hamiltonian_Get_DMI_Shells n_shells dij chirality idx_image idx_chain w = Undefined.
Proof.
  intros Hint Hlen. unfold Hamiltonian_Get_DMI_Shells. run.
  rewrite int_of_size_small by assumption. rewrite Nat2Z.id.
  rewrite copy_loop_overflow by lia. reflexivity.
Qed.

Lemma Get_Exchange_Shells_undefined n_shells (jij : list R) :
  (length jij < length (exchange_shell_magnitudes ham))%nat ->
  Hamiltonian_Get_Exchange_Shells n_shells jij idx_image idx_chain w = Undefined.
Proof.
  intros Hlen. unfold Hamiltonian_Get_Exchange_Shells. run.
  destruct (Z.of_nat (length (exchange_shell_magnitudes ham)) <=? INT_MAX)%Z;
    [|reflexivity].
  rewrite copy_loop_overflow by lia. reflexivity.
Qed.

Lemma Get_DDI_run radius :
  Hamiltonian_Get_DDI radius idx_image idx_chain w =
    Ret (ddi_cutoff_radius ham) (reads image 2 w).
Proof. unfold Hamiltonian_Get_DDI. run. finish. Qed.

End More_Getters_On_Heisenberg.

(** ** The loops of the setters *)

(** The loop of [Hamiltonian_Set_Anisotropy] overwrites the cells
    [i .. i + n - 1] with their own indices and with the magnitude. *)
Lemma anisotropy_loop_spec (n : nat) (magnitude : R) :
  forall (i : nat) (indices : intfield) (magnitudes : scalarfield),
    (i + n <= length indices)%nat -> (i + n <= length magnitudes)%nat ->
    anisotropy_loop n i magnitude indices magnitudes
      = (take i indices ++ (Z.of_nat <$> seq i n) ++ drop (i + n) indices,
         take i magnitudes ++ replicate n magnitude ++ drop (i + n) magnitudes).
Proof.
  induction n as [|n IH]; intros i indices magnitudes Hi Hm; cbn [anisotropy_loop];
    unfold intfield, scalarfield in *.
  - rewrite Nat.add_0_r. cbn [seq fmap list_fmap replicate app].
    by rewrite !take_drop.
  - rewrite IH by (rewrite length_insert; lia).
    rewrite (take_S_r (<[i := Z.of_nat i]> indices) i (Z.of_nat i))
      by (apply list_lookup_insert_eq; lia).
    rewrite (take_S_r (<[i := magnitude]> magnitudes) i magnitude)
      by (apply list_lookup_insert_eq; lia).
    rewrite !take_insert_ge by lia. rewrite !drop_insert_lt by lia.
    replace (S i + n)%nat with (i + S n)%nat by lia.
    cbn [seq fmap list_fmap replicate]. rewrite <- !app_assoc. reflexivity.
Qed.

Lemma new_anisotropy_spec (cells : Z) (magnitude : R) :
  new_anisotropy cells magnitude
    = (Z.of_nat <$> seq 0 (Z.to_nat cells), replicate (Z.to_nat cells) magnitude).
Proof.
  unfold new_anisotropy.
  rewrite anisotropy_loop_spec by (rewrite length_replicate; lia).
  rewrite !take_0. cbn [app Nat.add].
  rewrite !drop_ge by (rewrite length_replicate; lia).
  by rewrite !app_nil_r.
Qed.

(** The loop of [Hamiltonian_Set_DDI] appends, for each pair in turn, its
    magnitude and its normal. *)
Lemma ddi_loop_spec (geom : Geometry) (pairs : pairfield) :
  forall magnitudes normals magnitudes' normals',
    ddi_loop geom pairs magnitudes normals = Ok (magnitudes', normals') ->
    exists new_magnitudes new_normals,
      magnitudes' = magnitudes ++ new_magnitudes
      /\ normals' = normals ++ new_normals
      /\ ddi_of_pairs geom pairs new_magnitudes new_normals.
Proof.
  induction pairs as [|p pairs IH]; intros magnitudes normals magnitudes' normals' Hloop;
    cbn [ddi_loop] in Hloop.
  - injection Hloop as <- <-. exists [], [].
    rewrite !app_nil_r. repeat split. intros i p Hp. discriminate Hp.
  - destruct (DDI_from_Pair geom p) as [[magnitude normal]|e] eqn:Hp; [|discriminate].
    destruct (IH _ _ _ _ Hloop) as (ms & ns & -> & -> & Hms & Hns & Hall).
    exists (magnitude :: ms), (normal :: ns).
    rewrite <- !app_assoc. repeat split; cbn [length]; try congruence.
    intros [|i] q Hq.
    + injection Hq as <-. by exists magnitude, normal.
    + by apply Hall.
Qed.

(** The loop raises only when [DDI_from_Pair] does. *)
Lemma ddi_loop_total (geom : Geometry) (pairs : pairfield) :
  Forall (fun p => exists found, DDI_from_Pair geom p = Ok found) pairs ->
  forall magnitudes normals,
    exists filled, ddi_loop geom pairs magnitudes normals = Ok filled.
Proof.
  induction 1 as [|p pairs [[magnitude normal] Hp] _ IH]; intros magnitudes normals;
    cbn [ddi_loop].
  - by eexists.
  - rewrite Hp. apply IH.
Qed.

(** ** What a call leaves alone *)

Section Preserves.
Variable R : image_ref -> Spin_System -> Spin_System -> Prop.
Hypothesis R_refl : forall k s, R k s s.
Hypothesis R_trans : forall k s1 s2 s3, R k s1 s2 -> R k s2 s3 -> R k s1 s3.

Lemma related_refl imgs : related R imgs imgs.
Proof. intros k. destruct (imgs !! k); [apply R_refl | exact I]. Qed.

Lemma related_trans imgs1 imgs2 imgs3 :
  related R imgs1 imgs2 -> related R imgs2 imgs3 -> related R imgs1 imgs3.
Proof.
  intros H12 H23 k. specialize (H12 k). specialize (H23 k).
  destruct (imgs1 !! k), (imgs2 !! k), (imgs3 !! k); try done.
  by apply R_trans with (s2 := s0).
Qed.

Lemma related_insert imgs image s s' :
  imgs !! image = Some s -> R image s s' -> related R imgs (<[image := s']> imgs).
Proof.
  intros Hs HR k. destruct (decide (k = image)) as [-> | Hk].
  - by rewrite lookup_insert_eq, Hs.
  - rewrite lookup_insert_ne by done. destruct (imgs !! k); [apply R_refl | exact I].
Qed.

Lemma preserves_pure {A} (m : M A) :
  (forall w,
     match m w with
     | Ret _ w' | Thrown _ w' => images w' = images w
     | Undefined => True
     end) ->
  preserves R m.
Proof.
  intros Hm w. specialize (Hm w).
  destruct (m w); [| |exact I]; rewrite Hm; apply related_refl.
Qed.

Lemma preserves_ret {A} (a : A) : preserves R (ret a).
Proof. apply preserves_pure. intros w. reflexivity. Qed.

Lemma preserves_lift_result {A} (r : result A) : preserves R (lift_result r).
Proof. apply preserves_pure. intros w. destruct r; reflexivity. Qed.

Lemma preserves_lift_defined {A} (o : option A) : preserves R (lift_defined o).
Proof. apply preserves_pure. intros w. destruct o; [reflexivity | exact I]. Qed.

Lemma preserves_from_indices idx_image idx_chain :
  preserves R (from_indices idx_image idx_chain).
Proof.
  apply preserves_pure. intros w. unfold from_indices.
  destruct (images w !! _); reflexivity.
Qed.

Lemma preserves_deref image : preserves R (deref image).
Proof.
  apply preserves_pure. intros w. unfold deref.
  destruct (images w !! _); [reflexivity | exact I].
Qed.

Lemma preserves_Lock image : preserves R (Lock image).
Proof. apply preserves_pure. intros w. reflexivity. Qed.

Lemma preserves_Unlock image : preserves R (Unlock image).
Proof. apply preserves_pure. intros w. reflexivity. Qed.

Lemma preserves_Log l sd msg idx_image idx_chain :
  preserves R (Log l sd msg idx_image idx_chain).
Proof. apply preserves_pure. intros w. reflexivity. Qed.

Lemma preserves_handler idx_image idx_chain e :
  preserves R (spirit_handle_exception_api idx_image idx_chain e).
Proof. destruct e. apply preserves_Log. Qed.

Lemma preserves_read_hamiltonian {A} image (f : Hamiltonian -> A) :
  preserves R (read_hamiltonian image f).
Proof.
  apply preserves_pure. intros w. unfold read_hamiltonian.
  destruct (images w !! _); [reflexivity | exact I].
Qed.

Lemma preserves_read_heisenberg {A} image (f : Hamiltonian_Heisenberg -> A) :
  preserves R (read_heisenberg image f).
Proof.
  apply preserves_pure. intros w. unfold read_heisenberg.
  destruct (images w !! _) as [s|]; [|exact I].
  destruct (variant (hamiltonian s)); [reflexivity | exact I].
Qed.

Lemma preserves_write_hamiltonian image f :
  (forall s, R image s (set_hamiltonian (f (hamiltonian s)) s)) ->
  preserves R (write_hamiltonian image f).
Proof.
  intros Hf w. unfold write_hamiltonian.
  destruct (images w !! image) as [s|] eqn:Hs; [|exact I].
  cbn [emit store_image images]. by apply related_insert with (s := s).
Qed.

Lemma preserves_write_heisenberg image f :
  (forall s ham,
     variant (hamiltonian s) = Heisenberg ham ->
     R image s (with_heisenberg (f ham) s)) ->
  preserves R (write_heisenberg image f).
Proof.
  intros Hf w. unfold write_heisenberg.
  destruct (images w !! image) as [s|] eqn:Hs; [|exact I].
  destruct (variant (hamiltonian s)) as [ham|] eqn:Hv; [|exact I].
  cbn [emit store_image images].
  apply related_insert with (s := s); [assumption | by apply Hf].
Qed.

Lemma preserves_call_heisenberg {D} image
    (method : Geometry -> Hamiltonian_Heisenberg -> D * option exception) install :
  (forall s ham d,
     variant (hamiltonian s) = Heisenberg ham ->
     R image s (with_heisenberg (install d ham) s)) ->
  preserves R (call_heisenberg image method install).
Proof.
  intros Hf w. unfold call_heisenberg.
  destruct (images w !! image) as [s|] eqn:Hs; [|exact I].
  destruct (variant (hamiltonian s)) as [ham|] eqn:Hv; [|exact I].
  destruct (method _ _) as [d [e|]]; cbn [throw record_fault emit store_image images];
    (apply related_insert with (s := s); [assumption | by apply Hf]).
Qed.

Lemma preserves_bind {A B} (m : M A) (f : A -> M B) :
  preserves R m -> (forall a, preserves R (f a)) -> preserves R (bind m f).
Proof.
  intros Hm Hf w. unfold bind. specialize (Hm w).
  destruct (m w) as [a w1|e w1|]; [|assumption|exact I].
  specialize (Hf a w1).
  destruct (f a w1) as [b w2|e w2|]; [| |exact I];
    by apply related_trans with (imgs2 := images w1).
Qed.

Lemma preserves_try_catch {A} (m : M A) (handler : exception -> M A) :
  preserves R m -> (forall e, preserves R (handler e)) ->
  preserves R (try_catch m handler).
Proof.
  intros Hm Hh w. unfold try_catch. specialize (Hm w).
  destruct (m w) as [a w1|e w1|]; [assumption| |exact I].
  specialize (Hh e w1).
  destruct (handler e w1) as [b w2|e' w2|]; [| |exact I];
    by apply related_trans with (imgs2 := images w1).
Qed.

Lemma preserves_resolved {A} idx_image idx_chain (body : image_ref -> M A) :
  preserves R (body (idx_image, idx_chain)) ->
  preserves R (bind (from_indices idx_image idx_chain) body).
Proof.
  intros Hbody w. unfold bind, from_indices.
  destruct (images w !! (idx_image, idx_chain)); [apply Hbody|].
  apply related_refl.
Qed.

End Preserves.

(** The obligations that [R] is reflexive and transitive are taken from
    the context. *)
Ltac preserves_step :=
  first
    [ apply preserves_ret; assumption
    | apply preserves_lift_result; assumption
    | apply preserves_lift_defined; assumption
    | apply preserves_deref; assumption
    | apply preserves_Lock; assumption
    | apply preserves_Unlock; assumption
    | apply preserves_Log; assumption
    | apply preserves_handler; assumption
    | apply preserves_read_hamiltonian; assumption
    | apply preserves_read_heisenberg; assumption
    | apply preserves_resolved; [assumption|]
    | apply preserves_bind; [assumption| |intros ?]
    | apply preserves_try_catch; [assumption| |intros ?]
    | match goal with
      | |- preserves _ (if ?b then _ else _) => destruct b
      | |- preserves _ (match ?x with _ => _ end) => destruct x
      end ].

(** What is left are the assignments, each with its obligation. *)
Ltac preserves_tac :=
  unfold shells_message;
  repeat first
    [ preserves_step
    | apply preserves_write_hamiltonian; [assumption|]
    | apply preserves_write_heisenberg; [assumption|]
    | apply preserves_call_heisenberg; [assumption|] ].

Lemma related_eq imgs imgs' :
  related (fun _ s s' => s' = s) imgs imgs' -> imgs' = imgs.
Proof.
  intros Hrel. apply map_eq. intros k. specialize (Hrel k).
  destruct (imgs !! k), (imgs' !! k); try done. by subst.
Qed.

Lemma same_kind_refl h : same_kind h h.
Proof. unfold same_kind. by destruct (variant h). Qed.

Lemma same_kind_trans h1 h2 h3 :
  same_kind h1 h2 -> same_kind h2 h3 -> same_kind h1 h3.
Proof.
  unfold same_kind.
  destruct (variant h1), (variant h2), (variant h3); try done. congruence.
Qed.

Lemma same_kind_Name h h' : same_kind h h' -> Name h' = Name h.
Proof. unfold same_kind, Name. by destruct (variant h), (variant h'). Qed.

Lemma confined_refl image k s : confined image k s s.
Proof.
  unfold confined. destruct (decide (k = image)); [|reflexivity].
  repeat split. apply same_kind_refl.
Qed.

Lemma confined_trans image k s1 s2 s3 :
  confined image k s1 s2 -> confined image k s2 s3 -> confined image k s1 s3.
Proof.
  unfold confined. destruct (decide (k = image)); [|congruence].
  intros (Hn1 & Hg1 & Hk1) (Hn2 & Hg2 & Hk2).
  repeat split; [congruence | congruence | by apply same_kind_trans with (h2 := hamiltonian s2)].
Qed.

Lemma confined_Name image k s s' :
  confined image k s s' -> Name (hamiltonian s') = Name (hamiltonian s).
Proof.
  unfold confined. destruct (decide (k = image)); [|by intros ->].
  intros (_ & _ & Hkind). by apply same_kind_Name.
Qed.

Lemma confined_with_heisenberg image s ham ham' :
  variant (hamiltonian s) = Heisenberg ham ->
  confined image image s (with_heisenberg ham' s).
Proof.
  intros Hv. unfold confined. rewrite decide_True by reflexivity.
  repeat split. unfold same_kind. rewrite Hv. exact I.
Qed.

Lemma confined_boundary image s bc :
  confined image image s (set_hamiltonian (set_boundary_conditions bc (hamiltonian s)) s).
Proof.
  unfold confined. rewrite decide_True by reflexivity.
  repeat split. unfold same_kind. cbn. by destruct (variant (hamiltonian s)).
Qed.

Lemma exec_confined {A} (c : Call A) : preserves (confined (target c)) (exec c).
Proof.
  pose proof (confined_refl (target c)) as Hrefl.
  pose proof (confined_trans (target c)) as Htrans.
  destruct c; cbn [target exec] in *; unfold_api; preserves_tac;
    try (intros; eapply confined_with_heisenberg; eassumption).
  all: intros s; destruct (boundary_conditions (hamiltonian s)) as [[b0 b1] b2];
    apply confined_boundary.
Qed.

Lemma agree_refl g h : agree g h h.
Proof. destruct g; unfold agree, heisenberg_agree; by destruct (variant h). Qed.

Lemma agree_trans g h1 h2 h3 : agree g h1 h2 -> agree g h2 h3 -> agree g h1 h3.
Proof.
  destruct g; unfold agree, heisenberg_agree;
    destruct (variant h1), (variant h2), (variant h3); try done; congruence.
Qed.

Lemma heisenberg_agree_with {B} (f : Hamiltonian_Heisenberg -> B) s ham ham' :
  variant (hamiltonian s) = Heisenberg ham ->
  f ham' = f ham ->
  heisenberg_agree f (hamiltonian s) (hamiltonian (with_heisenberg ham' s)).
Proof. intros Hv Hf. unfold heisenberg_agree. rewrite Hv. exact Hf. Qed.

Lemma heisenberg_agree_boundary {B} (f : Hamiltonian_Heisenberg -> B) s bc :
  heisenberg_agree f (hamiltonian s)
    (hamiltonian (set_hamiltonian (set_boundary_conditions bc (hamiltonian s)) s)).
Proof. unfold heisenberg_agree. cbn. by destruct (variant (hamiltonian s)). Qed.

(** The obligation of an assignment: it is to another group. *)
Ltac frame_obligation :=
  intros;
  first
    [ reflexivity
    | match goal with
      | Hv : variant (hamiltonian ?s) = Heisenberg ?ham
        |- heisenberg_agree _ (hamiltonian ?s) _ =>
          apply heisenberg_agree_with with (ham := ham);
          [exact Hv | destruct ham; reflexivity]
      end
    | match goal with
      | |- context [boundary_conditions (hamiltonian ?s)] =>
          destruct (boundary_conditions (hamiltonian s)) as [[? ?] ?];
          apply heisenberg_agree_boundary
      end ].

Lemma exec_frame {A} (c : Call A) (g : Parameter_Group) :
  assigns c g = false ->
  preserves (fun _ s s' => agree g (hamiltonian s) (hamiltonian s')) (exec c).
Proof.
  intros Hfree.
  assert (forall (k : image_ref) s, agree g (hamiltonian s) (hamiltonian s)) as Hrefl
    by (intros; apply agree_refl).
  assert (forall (k : image_ref) s1 s2 s3,
            agree g (hamiltonian s1) (hamiltonian s2) ->
            agree g (hamiltonian s2) (hamiltonian s3) ->
            agree g (hamiltonian s1) (hamiltonian s3)) as Htrans
    by (intros k s1 s2 s3; apply agree_trans).
  destruct c; cbn [exec]; unfold_api; preserves_tac;
    destruct g; try discriminate Hfree;
    unfold agree; frame_obligation.
Qed.

(** ** Getters only read *)

Lemma only_reads_ret {A} (a : A) : only_reads (ret a).
Proof. intros w. by repeat split. Qed.

Lemma only_reads_lift_defined {A} (o : option A) : only_reads (lift_defined o).
Proof. destruct o; [apply only_reads_ret | intros w; exact I]. Qed.

Lemma only_reads_deref image : only_reads (deref image).
Proof.
  intros w. unfold deref. destruct (images w !! _); [by repeat split | exact I].
Qed.

Lemma only_reads_read_hamiltonian {A} image (f : Hamiltonian -> A) :
  only_reads (read_hamiltonian image f).
Proof.
  intros w. unfold read_hamiltonian.
  destruct (images w !! _); [by repeat split | exact I].
Qed.

Lemma only_reads_read_heisenberg {A} image (f : Hamiltonian_Heisenberg -> A) :
  only_reads (read_heisenberg image f).
Proof.
  intros w. unfold read_heisenberg.
  destruct (images w !! _) as [s|]; [|exact I].
  destruct (variant (hamiltonian s)); [by repeat split | exact I].
Qed.

Lemma only_reads_bind {A B} (m : M A) (f : A -> M B) :
  only_reads m -> (forall a, only_reads (f a)) -> only_reads (bind m f).
Proof.
  intros Hm Hf w. unfold bind. specialize (Hm w).
  destruct (m w) as [a w1|e w1|]; [|assumption|exact I].
  destruct Hm as (Hi1 & Hl1 & Hf1). specialize (Hf a w1).
  destruct (f a w1) as [b w2|e w2|]; [|assumption|exact I].
  destruct Hf as (Hi2 & Hl2 & Hf2). repeat split; congruence.
Qed.

Ltac only_reads_step :=
  first
    [ apply only_reads_ret
    | apply only_reads_lift_defined
    | apply only_reads_deref
    | apply only_reads_read_hamiltonian
    | apply only_reads_read_heisenberg
    | apply only_reads_bind; [|intros ?]
    | match goal with
      | |- only_reads (if ?b then _ else _) => destruct b
      | |- only_reads (match ?x with _ => _ end) => destruct x
      end ].

Lemma resolved_only_reads {A} idx_image idx_chain (body : image_ref -> M A)
    (handler : exception -> M A) (w : World) :
  only_reads (body (idx_image, idx_chain)) ->
  is_Some (images w !! (idx_image, idx_chain)) ->
  match try_catch (bind (from_indices idx_image idx_chain) body) handler w with
  | Ret _ w' => images w' = images w /\ log w' = log w /\ faults w' = faults w
  | Thrown _ _ => False
  | Undefined => True
  end.
Proof.
  intros Hbody [s Hs]. unfold try_catch, bind, from_indices. rewrite Hs.
  specialize (Hbody w). by destruct (body (idx_image, idx_chain) w).
Qed.

Lemma getter_only_reads {A} (c : Call A) (w : World) :
  is_mutation c = false -> is_pair_getter c = false ->
  is_Some (images w !! target c) ->
  match exec c w with
  | Ret _ w' => images w' = images w /\ log w' = log w /\ faults w' = faults w
  | Thrown _ _ => False
  | Undefined => True
  end.
Proof.
  destruct c; intros Hget Hpair Hres; try discriminate Hget; try discriminate Hpair;
    cbn [target exec] in *; unfold_api;
    (apply resolved_only_reads; [|assumption]); repeat only_reads_step.
Qed.

Lemma getter_keeps_images {A} (c : Call A) :
  is_mutation c = false -> preserves (fun _ s s' => s' = s) (exec c).
Proof.
  assert (forall (k : image_ref) (s : Spin_System), s = s) as Hrefl by reflexivity.
  assert (forall (k : image_ref) (s1 s2 s3 : Spin_System),
            s2 = s1 -> s3 = s2 -> s3 = s1) as Htrans by congruence.
  destruct c; intros Hget; try discriminate Hget; cbn [exec]; unfold_api;
    preserves_tac.
Qed.

(** ** One call, one entry of the log *)

Lemma logs_one_installed idx_image idx_chain refusal s ham' upd msg n w :
  images w !! (idx_image, idx_chain) = Some s -> ~ refusal ->
  logs_one idx_image idx_chain refusal w
    (installed idx_image idx_chain s ham' upd msg n w).
Proof.
  intros Hres Hnot. eexists. split; [reflexivity|].
  destruct upd as [d [[what]|]]; cbn [notice fault_entry info snd];
    (split; [reflexivity|]; split; [reflexivity|]; split; [reflexivity|]).
  - left. split; [reflexivity|]. exists (Exception what). by split.
  - right. right. split; [reflexivity|]. split; [exact Hnot|].
    split; [apply app_nil_r | by exists s].
Qed.

Lemma logs_one_refused what name idx_image idx_chain (refusal : Prop) w :
  refusal ->
  logs_one idx_image idx_chain refusal w (refused what name idx_image idx_chain w).
Proof.
  intros Hrefused. eexists. split; [reflexivity|].
  split; [reflexivity|]. split; [reflexivity|]. split; [reflexivity|].
  right. left. by repeat split.
Qed.

Lemma logs_one_faulted e idx_image idx_chain refusal w :
  logs_one idx_image idx_chain refusal w (faulted e idx_image idx_chain w).
Proof.
  eexists. split; [reflexivity|]. destruct e as [what].
  split; [reflexivity|]. split; [reflexivity|]. split; [reflexivity|].
  left. split; [reflexivity|]. exists (Exception what). by split.
Qed.

Lemma logs_one_unresolved idx_image idx_chain refusal w :
  logs_one idx_image idx_chain refusal w (unresolved idx_image idx_chain w).
Proof.
  eexists. split; [reflexivity|].
  split; [reflexivity|]. split; [reflexivity|]. split; [reflexivity|].
  left. split; [reflexivity|]. eexists. by split.
Qed.

Lemma logs_one_bounded periodical idx_image idx_chain s w :
  images w !! (idx_image, idx_chain) = Some s ->
  logs_one idx_image idx_chain False w (bounded periodical idx_image idx_chain s w).
Proof.
  intros Hres. eexists. split; [reflexivity|].
  split; [reflexivity|]. split; [reflexivity|]. split; [reflexivity|].
  right. right. split; [reflexivity|]. split; [tauto|].
  split; [reflexivity | by exists s].
Qed.

Lemma not_refused w (image : image_ref) s ham :
  images w !! image = Some s -> variant (hamiltonian s) = Heisenberg ham ->
  ~ exists s', images w !! image = Some s' /\ Name (hamiltonian s') <> "Heisenberg".
Proof.
  intros Hres Hvar (s' & Hres' & Hname). rewrite Hres in Hres'.
  injection Hres' as <-. apply Hname. unfold Name. by rewrite Hvar.
Qed.

Lemma is_refused w (image : image_ref) s g :
  images w !! image = Some s -> variant (hamiltonian s) = Gaussian g ->
  exists s', images w !! image = Some s' /\ Name (hamiltonian s') <> "Heisenberg".
Proof.
  intros Hres Hvar. exists s. split; [exact Hres|]. unfold Name. by rewrite Hvar.
Qed.

Section Undefined_Ranges.
Variables (w : World) (idx_image idx_chain : Z) (s : Spin_System).
Variable ham : Hamiltonian_Heisenberg.
Hypothesis resolves : images w !! (idx_image, idx_chain) = Some s.
Hypothesis is_heisenberg : variant (hamiltonian s) = Heisenberg ham.

Lemma Set_Exchange_undefined n_shells (jij : list R) :
  vector_range jij n_shells = None ->
  Hamiltonian_Set_Exchange n_shells jij idx_image idx_chain w = Undefined.
Proof.
  intros Hrange. unfold Hamiltonian_Set_Exchange. run. rewrite Hrange. reflexivity.
Qed.

Lemma Set_DMI_undefined n_shells (dij : list R) chirality :
  vector_range dij n_shells = None ->
  Hamiltonian_Set_DMI n_shells dij chirality idx_image idx_chain w = Undefined.
Proof.
  intros Hrange. unfold Hamiltonian_Set_DMI. run. rewrite Hrange. reflexivity.
Qed.

End Undefined_Ranges.

Lemma Name_Gaussian (h : Hamiltonian) g :
  variant h = Gaussian g -> Name h <> "Heisenberg".
Proof. unfold Name. intros ->. discriminate. Qed.

Lemma setter_logs_one {A} (c : Call A) (w : World) (v : A) (w' : World) :
  is_mutation c = true ->
  exec c w = Ret v w' ->
  logs_one (target c).1 (target c).2 (refused_by c w) w w'.
Proof.
  intros Hmut Hrun.
  destruct (images w !! target c) as [s|] eqn:Hres.
  2:{ rewrite (exec_unresolved c w Hres) in Hrun. injection Hrun as _ <-.
      apply logs_one_unresolved. }
  destruct c; try discriminate Hmut; destruct v;
    cbn [target exec fst snd refused_by] in *.
  - rewrite (Set_Boundary_Conditions_run _ _ _ _ Hres) in Hrun.
    injection Hrun as <-. by apply logs_one_bounded.
  - destruct (variant (hamiltonian s)) as [ham|g] eqn:Hvar.
    + rewrite (Set_mu_s_run _ _ _ _ _ Hres Hvar) in Hrun. injection Hrun as <-.
      eexists. split; [reflexivity|].
      split; [reflexivity|]. split; [reflexivity|]. split; [reflexivity|].
      right. right. split; [reflexivity|].
      split; [by apply not_refused with (s := s) (ham := ham)|].
      split; [reflexivity | by exists s].
    + rewrite (Set_mu_s_refused _ _ _ _ Hres (Name_Gaussian _ _ Hvar)) in Hrun.
      injection Hrun as <-. apply logs_one_refused.
      by apply is_refused with (s := s) (g := g).
  - destruct (variant (hamiltonian s)) as [ham|g] eqn:Hvar.
    + rewrite (Set_Field_run _ _ _ _ _ Hres Hvar) in Hrun. injection Hrun as <-.
      apply logs_one_installed;
        [exact Hres | by apply not_refused with (s := s) (ham := ham)].
    + rewrite (Set_Field_refused _ _ _ _ Hres (Name_Gaussian _ _ Hvar)) in Hrun.
      injection Hrun as <-. apply logs_one_refused.
      by apply is_refused with (s := s) (g := g).
  - destruct (variant (hamiltonian s)) as [ham|g] eqn:Hvar.
    + destruct (Z_lt_dec (n_cell_atoms (geometry s)) 0) as [Hcell|Hcell];
        [|destruct (Z_lt_dec (nos s) 0) as [Hnos|Hnos]].
      * rewrite (Set_Anisotropy_length_error _ _ _ _ _ Hres Hvar _ _ (or_introl Hcell))
          in Hrun.
        injection Hrun as <-. apply logs_one_faulted.
      * rewrite (Set_Anisotropy_length_error _ _ _ _ _ Hres Hvar _ _ (or_intror Hnos))
          in Hrun.
        injection Hrun as <-. apply logs_one_faulted.
      * rewrite (Set_Anisotropy_run _ _ _ _ _ Hres Hvar) in Hrun by lia.
        injection Hrun as <-.
        apply logs_one_installed;
          [exact Hres | by apply not_refused with (s := s) (ham := ham)].
    + rewrite (Set_Anisotropy_refused _ _ _ _ Hres (Name_Gaussian _ _ Hvar)) in Hrun.
      injection Hrun as <-. apply logs_one_refused.
      by apply is_refused with (s := s) (g := g).
  - destruct (variant (hamiltonian s)) as [ham|g] eqn:Hvar.
    + destruct (vector_range jij n_shells) as [shells|] eqn:Hrange.
      * rewrite (Set_Exchange_run _ _ _ _ _ Hres Hvar _ _ _ Hrange) in Hrun.
        injection Hrun as <-.
        apply logs_one_installed;
          [exact Hres | by apply not_refused with (s := s) (ham := ham)].
      * rewrite (Set_Exchange_undefined _ _ _ _ _ Hres Hvar _ _ Hrange) in Hrun.
        discriminate Hrun.
    + rewrite (Set_Exchange_refused _ _ _ _ Hres (Name_Gaussian _ _ Hvar)) in Hrun.
      injection Hrun as <-. apply logs_one_refused.
      by apply is_refused with (s := s) (g := g).
  - destruct (variant (hamiltonian s)) as [ham|g] eqn:Hvar.
    + destruct (vector_range dij n_shells) as [shells|] eqn:Hrange.
      * rewrite (Set_DMI_run _ _ _ _ _ Hres Hvar _ _ _ _ Hrange) in Hrun.
        injection Hrun as <-.
        apply logs_one_installed;
          [exact Hres | by apply not_refused with (s := s) (ham := ham)].
      * rewrite (Set_DMI_undefined _ _ _ _ _ Hres Hvar _ _ _ Hrange) in Hrun.
        discriminate Hrun.
    + rewrite (Set_DMI_refused _ _ _ _ Hres (Name_Gaussian _ _ Hvar)) in Hrun.
      injection Hrun as <-. apply logs_one_refused.
      by apply is_refused with (s := s) (g := g).
  - destruct (variant (hamiltonian s)) as [ham|g] eqn:Hvar.
    + destruct (new_ddi (geometry s) radius) as [[pairs [magnitudes normals]]|e]
        eqn:Hnew.
      * rewrite (Set_DDI_run _ _ _ _ _ Hres Hvar _ _ _ _ Hnew) in Hrun.
        injection Hrun as <-.
        apply logs_one_installed;
          [exact Hres | by apply not_refused with (s := s) (ham := ham)].
      * rewrite (Set_DDI_fault _ _ _ _ _ Hres Hvar _ _ Hnew) in Hrun.
        injection Hrun as <-. apply logs_one_faulted.
    + rewrite (Set_DDI_refused _ _ _ _ Hres (Name_Gaussian _ _ Hvar)) in Hrun.
      injection Hrun as <-. apply logs_one_refused.
      by apply is_refused with (s := s) (g := g).
Qed.

(** ** What the setters store *)

Lemma map_const_replicate {A B} (x : B) (l : list A) :
  map (fun _ => x) l = replicate (length l) x.
Proof. induction l as [|a l IH]; [reflexivity|]. cbn. by rewrite IH. Qed.

Lemma Set_Anisotropy_stores (w : World) (idx_image idx_chain : Z) (s : Spin_System)
    (ham : Hamiltonian_Heisenberg) (K : R) (d : float3) :
  images w !! (idx_image, idx_chain) = Some s ->
  variant (hamiltonian s) = Heisenberg ham ->
  (0 <= n_cell_atoms (geometry s))%Z -> (0 <= nos s)%Z ->
  exists w' ham',
    Hamiltonian_Set_Anisotropy K d idx_image idx_chain w = Ret tt w'
    /\ images w' !! (idx_image, idx_chain) = Some (with_heisenberg ham' s)
    /\ anisotropy_indices ham'
       = (Z.of_nat <$> seq 0 (Z.to_nat (n_cell_atoms (geometry s))))
    /\ anisotropy_magnitudes ham'
       = replicate (Z.to_nat (n_cell_atoms (geometry s))) K
    /\ anisotropy_normals ham'
       = replicate (Z.to_nat (nos s)) (normalize (Vector3_of d)).
Proof.
  intros Hres Hvar Hcell Hnos.
  pose proof (Set_Anisotropy_run _ _ _ _ _ Hres Hvar K d Hcell Hnos) as Hset.
  cbv zeta in Hset. rewrite new_anisotropy_spec in Hset. cbn [fst snd] in Hset.
  match type of Hset with
  | _ = Ret tt (installed _ _ _ ?h ?u _ _ _) => set (ham1 := set_derived u.1 h) in *
  end.
  exists (installed idx_image idx_chain s
            (set_anisotropy_normals
               (replicate (Z.to_nat (nos s)) (normalize (Vector3_of d)))
               (set_anisotropy_magnitudes
                  (replicate (Z.to_nat (n_cell_atoms (geometry s))) K)
                  (set_anisotropy_indices
                     (Z.of_nat <$> seq 0 (Z.to_nat (n_cell_atoms (geometry s))))
                     ham)))
            (Update_Energy_Contributions (geometry s)
               (set_anisotropy_normals
                  (replicate (Z.to_nat (nos s)) (normalize (Vector3_of d)))
                  (set_anisotropy_magnitudes
                     (replicate (Z.to_nat (n_cell_atoms (geometry s))) K)
                     (set_anisotropy_indices
                        (Z.of_nat <$> seq 0 (Z.to_nat (n_cell_atoms (geometry s))))
                        ham))))
            (fmt_direction "Set anisotropy to " K d) 4 w), ham1.
  split; [exact Hset|]. split; [apply installed_lookup|].
  subst ham1. destruct ham. repeat split.
Qed.

(** ** Further properties, stated *)

(** X1.  [Hamiltonian_Set_Boundary_Conditions] works on an image of any
    variant: it stores the three flags, leaves the rest of the image as it
    was and logs one notice of level Info; a following
    [Hamiltonian_Get_Boundary_Conditions] hands back the flags that were
    set. *)
Theorem X1_boundary_conditions_round_trip
    (w : World) (idx_image idx_chain : Z) (s : Spin_System)
    (periodical out : bool * bool * bool) :
  images w !! (idx_image, idx_chain) = Some s ->
  exists w1 w2 msg,
    Hamiltonian_Set_Boundary_Conditions periodical idx_image idx_chain w = Ret tt w1
    /\ images w1
       = <[(idx_image, idx_chain) :=
             mkSpin_System (nos s) (geometry s)
               (mkHamiltonian periodical (variant (hamiltonian s)))]> (images w)
    /\ log w1 = log w ++ [mkLogEntry Info API msg idx_image idx_chain]
    /\ Hamiltonian_Get_Boundary_Conditions out idx_image idx_chain w1
       = Ret periodical w2.
Proof.
  intros Hres. rewrite (Set_Boundary_Conditions_run _ _ _ _ Hres).
  eexists. eexists. eexists.
  split; [reflexivity|]. split; [reflexivity|]. split; [reflexivity|].
  apply (Get_Boundary_Conditions_run _ _ _
           (set_hamiltonian (set_boundary_conditions periodical (hamiltonian s)) s)).
  apply lookup_insert_eq.
Qed.

(** X2.  [Hamiltonian_Set_mu_s] overwrites every entry of [mu_s] with the
    value given and keeps the length of the list; a following
    [Hamiltonian_Get_mu_s] writes that value into the first [n_cell_atoms]
    cells of the array it is given and leaves the other cells as they
    were.  The list must hold at least [n_cell_atoms] entries and the array
    at least [n_cell_atoms] cells. *)
Theorem X2_mu_s_round_trip
    (w : World) (idx_image idx_chain : Z) (s : Spin_System)
    (ham : Hamiltonian_Heisenberg) (m : R) (out : list R) :
  images w !! (idx_image, idx_chain) = Some s ->
  variant (hamiltonian s) = Heisenberg ham ->
  (Z.to_nat (n_cell_atoms (geometry s)) <= length (mu_s ham))%nat ->
  (Z.to_nat (n_cell_atoms (geometry s)) <= length out)%nat ->
  exists w1 ham1 w2,
    Hamiltonian_Set_mu_s m idx_image idx_chain w = Ret tt w1
    /\ heisenberg_at w1 (idx_image, idx_chain) ham1
    /\ mu_s ham1 = replicate (length (mu_s ham)) m
    /\ Hamiltonian_Get_mu_s out idx_image idx_chain w1
       = Ret (replicate (Z.to_nat (n_cell_atoms (geometry s))) m
                ++ drop (Z.to_nat (n_cell_atoms (geometry s))) out) w2.
Proof.
  intros Hres Hvar Hsrc Hdst.
  rewrite (Set_mu_s_run _ _ _ _ _ Hres Hvar).
  set (ham1 := set_mu_s (map (fun _ => m) (mu_s ham)) ham).
  assert (mu_s ham1 = replicate (length (mu_s ham)) m) as Hmu.
  { subst ham1. rewrite map_const_replicate. by destruct ham. }
  eexists. exists ham1. eexists.
  split; [reflexivity|]. split; [|split; [exact Hmu|]].
  - apply heisenberg_at_intro with (s := with_heisenberg ham1 s);
      [apply lookup_insert_eq | reflexivity].
  - rewrite (Get_mu_s_run _ _ _ (with_heisenberg ham1 s) ham1);
      cbn [with_heisenberg set_hamiltonian geometry].
    + rewrite Hmu, take_replicate. do 3 f_equal. lia.
    + apply lookup_insert_eq.
    + reflexivity.
    + rewrite Hmu, length_replicate. exact Hsrc.
    + exact Hdst.
Qed.

(** X3.  [Hamiltonian_Set_Anisotropy], on an image with at least one atom
    in the cell and at least one spin, followed by
    [Hamiltonian_Get_Anisotropy], hands back the magnitude that was set,
    whatever its sign, and the direction that was set, normalised. *)
Theorem X3_anisotropy_round_trip
    (w : World) (idx_image idx_chain : Z) (s : Spin_System)
    (ham : Hamiltonian_Heisenberg) (K : R) (d : float3)
    (magnitude : R) (normal : float3) :
  images w !! (idx_image, idx_chain) = Some s ->
  variant (hamiltonian s) = Heisenberg ham ->
  (1 <= n_cell_atoms (geometry s))%Z -> (1 <= nos s)%Z ->
  exists w1 w2,
    Hamiltonian_Set_Anisotropy K d idx_image idx_chain w = Ret tt w1
    /\ Hamiltonian_Get_Anisotropy magnitude normal idx_image idx_chain w1
       = Ret (K, float3_of (normalize (Vector3_of d))) w2.
Proof.
  intros Hres Hvar Hcell Hnos.
  destruct (Set_Anisotropy_stores w idx_image idx_chain s ham K d Hres Hvar)
    as (w1 & ham1 & Hset & Hlook & Hidx & Hmag & Hnor); [lia | lia |].
  exists w1. eexists. split; [exact Hset|].
  apply (Get_Anisotropy_run _ _ _ _ ham1 Hlook eq_refl).
  - rewrite Hidx. destruct (Z.to_nat (n_cell_atoms (geometry s))) eqn:Hn; [lia|].
    discriminate.
  - rewrite Hmag. apply lookup_replicate_2. lia.
  - rewrite Hnor. apply lookup_replicate_2. lia.
Qed.

(** X4.  When [anisotropy_indices] is empty, [Hamiltonian_Get_Anisotropy]
    hands back the magnitude 0 and the direction (0, 0, 1), whatever the
    other two lists hold.  So it does after [Hamiltonian_Set_Anisotropy] on
    an image without atoms in the cell, whatever magnitude and direction
    were set, although the direction, normalised, is stored for every
    spin. *)
Theorem X4_no_anisotropy_reads_as_sentinel
    (w : World) (idx_image idx_chain : Z) (s : Spin_System)
    (ham : Hamiltonian_Heisenberg) (magnitude : R) (normal : float3) :
  images w !! (idx_image, idx_chain) = Some s ->
  variant (hamiltonian s) = Heisenberg ham ->
  (anisotropy_indices ham = [] ->
   exists w',
     Hamiltonian_Get_Anisotropy magnitude normal idx_image idx_chain w
       = Ret (0, (0, 0, 1)) w')
  /\ (n_cell_atoms (geometry s) = 0%Z -> (0 <= nos s)%Z ->
      forall (K : R) (d : float3),
        exists w1 ham1 w2,
          Hamiltonian_Set_Anisotropy K d idx_image idx_chain w = Ret tt w1
          /\ heisenberg_at w1 (idx_image, idx_chain) ham1
          /\ anisotropy_normals ham1
             = replicate (Z.to_nat (nos s)) (normalize (Vector3_of d))
          /\ Hamiltonian_Get_Anisotropy magnitude normal idx_image idx_chain w1
             = Ret (0, (0, 0, 1)) w2).
Proof.
  intros Hres Hvar. split.
  - intros Hnone. eexists. apply (Get_Anisotropy_none _ _ _ _ _ Hres Hvar _ _ Hnone).
  - intros Hcell Hnos K d.
    destruct (Set_Anisotropy_stores w idx_image idx_chain s ham K d Hres Hvar)
      as (w1 & ham1 & Hset & Hlook & Hidx & Hmag & Hnor); [lia | lia |].
    exists w1, ham1. eexists. split; [exact Hset|].
    split; [by apply heisenberg_at_intro with (s := with_heisenberg ham1 s)|].
    split; [exact Hnor|].
    apply (Get_Anisotropy_none _ _ _ _ ham1 Hlook eq_refl).
    rewrite Hidx, Hcell. reflexivity.
Qed.

(** X5.  What [Hamiltonian_Set_Anisotropy] stores, on an image whose
    counts are not negative: the indices 0, 1, ... of the atoms of the
    cell, the magnitude once for each of them, and the normalised direction
    once for each spin of the image. *)
Theorem X5_anisotropy_lists
    (w : World) (idx_image idx_chain : Z) (s : Spin_System)
    (ham : Hamiltonian_Heisenberg) (K : R) (d : float3) :
  images w !! (idx_image, idx_chain) = Some s ->
  variant (hamiltonian s) = Heisenberg ham ->
  (0 <= n_cell_atoms (geometry s))%Z -> (0 <= nos s)%Z ->
  exists w' ham',
    Hamiltonian_Set_Anisotropy K d idx_image idx_chain w = Ret tt w'
    /\ heisenberg_at w' (idx_image, idx_chain) ham'
    /\ anisotropy_indices ham'
       = (Z.of_nat <$> seq 0 (Z.to_nat (n_cell_atoms (geometry s))))
    /\ anisotropy_magnitudes ham'
       = replicate (Z.to_nat (n_cell_atoms (geometry s))) K
    /\ anisotropy_normals ham'
       = replicate (Z.to_nat (nos s)) (normalize (Vector3_of d)).
Proof.
  intros Hres Hvar Hcell Hnos.
  destruct (Set_Anisotropy_stores w idx_image idx_chain s ham K d Hres Hvar Hcell Hnos)
    as (w1 & ham1 & Hset & Hlook & Hidx & Hmag & Hnor).
  exists w1, ham1. split; [exact Hset|].
  split; [by apply heisenberg_at_intro with (s := with_heisenberg ham1 s)|].
  by repeat split.
Qed.

(** X6.  [Hamiltonian_Set_DMI] with a count [k >= 0], an array of [k]
    magnitudes and a chirality, followed by [Hamiltonian_Get_DMI_Shells]
    into an array of at least [k] cells, hands back the count [k], the
    chirality, the same magnitudes in the first [k] cells, and the other
    cells of the array as they were. *)
Theorem X6_dmi_shells_round_trip
    (w : World) (idx_image idx_chain : Z) (s : Spin_System)
    (ham : Hamiltonian_Heisenberg) (k : Z) (dij : list R) (chirality : Z)
    (n_shells : Z) (out : list R) (chirality_out : Z) :
  images w !! (idx_image, idx_chain) = Some s ->
  variant (hamiltonian s) = Heisenberg ham ->
  (0 <= k)%Z -> in_int k ->
  length dij = Z.to_nat k ->
  (length dij <= length out)%nat ->
  exists w1 w2,
    Hamiltonian_Set_DMI k dij chirality idx_image idx_chain w = Ret tt w1
    /\ Hamiltonian_Get_DMI_Shells n_shells out chirality_out idx_image idx_chain w1
       = Ret (k, dij ++ drop (length dij) out, chirality) w2.
Proof.
  intros Hres Hvar Hk Hint Hlen Hout.
  assert (vector_range dij k = Some dij) as Hrange.
  { rewrite vector_range_valid by lia. by rewrite <- Hlen, firstn_all. }
  pose proof (Set_DMI_run _ _ _ _ _ Hres Hvar _ _ chirality _ Hrange) as Hset.
  cbv zeta in Hset.
  match type of Hset with
  | _ = Ret tt (installed _ _ _ ?h ?u _ _ _) => set (ham1 := set_derived u.1 h) in *
  end.
  assert (dmi_shell_magnitudes ham1 = dij) as Hshells
    by (subst ham1; destruct ham; reflexivity).
  assert (dmi_shell_chirality ham1 = chirality) as Hchi
    by (subst ham1; destruct ham; reflexivity).
  rewrite Hset. eexists. eexists. split; [reflexivity|].
  rewrite (Get_DMI_Shells_run _ _ _ (with_heisenberg ham1 s) ham1).
  - rewrite Hshells, Hchi. do 3 f_equal. lia.
  - apply installed_lookup.
  - reflexivity.
  - rewrite Hshells. unfold in_int, INT_MAX in *. lia.
  - by rewrite Hshells.
Qed.

(** X7.  [Hamiltonian_Set_DDI] does not store its radius: whether or not
    the engine fails, a following [Hamiltonian_Get_DDI] hands back the
    [ddi_cutoff_radius] that the Hamiltonian had before the call. *)
Theorem X7_ddi_radius_is_not_stored
    (w : World) (idx_image idx_chain : Z) (s : Spin_System)
    (ham : Hamiltonian_Heisenberg) (radius out : R) :
  images w !! (idx_image, idx_chain) = Some s ->
  variant (hamiltonian s) = Heisenberg ham ->
  exists w1 w2,
    Hamiltonian_Set_DDI radius idx_image idx_chain w = Ret tt w1
    /\ Hamiltonian_Get_DDI out idx_image idx_chain w1
       = Ret (ddi_cutoff_radius ham) w2.
Proof.
  intros Hres Hvar.
  destruct (new_ddi (geometry s) radius) as [[pairs [magnitudes normals]]|e] eqn:Hnew.
  - pose proof (Set_DDI_run _ _ _ _ _ Hres Hvar _ _ _ _ Hnew) as Hset.
    cbv zeta in Hset.
    match type of Hset with
    | _ = Ret tt (installed _ _ _ ?h ?u _ _ _) => set (ham1 := set_derived u.1 h) in *
    end.
    rewrite Hset. eexists. eexists. split; [reflexivity|].
    rewrite (Get_DDI_run _ _ _ (with_heisenberg ham1 s) ham1
               (installed_lookup _ _ _ _ _ _ _ _) eq_refl).
    f_equal. subst ham1. by destruct ham.
  - rewrite (Set_DDI_fault _ _ _ _ _ Hres Hvar _ _ Hnew).
    eexists. eexists. split; [reflexivity|].
    apply (Get_DDI_run _ _ _ s ham); [exact Hres | exact Hvar].
Qed.

(** X8.  When the pair generator returns and [DDI_from_Pair] succeeds on
    each pair, [Hamiltonian_Set_DDI] stores the pairs as generated, and
    the lists of magnitudes and of normals run parallel to them: they have
    the length of the list of pairs, and their entries at an index are
    what [DDI_from_Pair] gives for the pair at that index. *)
Theorem X8_ddi_lists_run_parallel
    (w : World) (idx_image idx_chain : Z) (s : Spin_System)
    (ham : Hamiltonian_Heisenberg) (radius : R) (pairs : pairfield) :
  images w !! (idx_image, idx_chain) = Some s ->
  variant (hamiltonian s) = Heisenberg ham ->
  Get_Pairs_in_Radius (geometry s) radius = Ok pairs ->
  Forall (fun p => exists found, DDI_from_Pair (geometry s) p = Ok found) pairs ->
  exists w' ham',
    Hamiltonian_Set_DDI radius idx_image idx_chain w = Ret tt w'
    /\ heisenberg_at w' (idx_image, idx_chain) ham'
    /\ ddi_pairs ham' = pairs
    /\ ddi_of_pairs (geometry s) pairs (ddi_magnitudes ham') (ddi_normals ham').
Proof.
  intros Hres Hvar Hpairs Hall.
  destruct (ddi_loop_total _ _ Hall [] []) as [[magnitudes normals] Hloop].
  assert (new_ddi (geometry s) radius = Ok (pairs, (magnitudes, normals))) as Hnew
    by (unfold new_ddi; by rewrite Hpairs, Hloop).
  destruct (ddi_loop_spec _ _ _ _ _ _ Hloop) as (ms & ns & Hms & Hns & Hof).
  cbn [app] in Hms, Hns. subst ms ns.
  pose proof (Set_DDI_run _ _ _ _ _ Hres Hvar _ _ _ _ Hnew) as Hset.
  cbv zeta in Hset.
  match type of Hset with
  | _ = Ret tt (installed _ _ _ ?h ?u _ _ _) => set (ham1 := set_derived u.1 h) in *
  end.
  rewrite Hset. eexists. exists ham1.
  split; [reflexivity|]. split; [apply heisenberg_at_installed|].
  subst ham1. destruct ham. split; [reflexivity | exact Hof].
Qed.

(** X9.  A getter never changes an image.  On an image that resolves, a
    getter other than the three getters of pairs also leaves the log as it
    was and meets no fault. *)
Theorem X9_getters_only_read {A} (c : Call A) (w : World) :
  is_mutation c = false ->
  match exec c w with
  | Ret _ w' =>
      images w' = images w
      /\ (is_pair_getter c = false -> is_Some (images w !! target c) ->
          log w' = log w /\ faults w' = faults w)
  | Thrown _ _ => False
  | Undefined => True
  end.
Proof.
  intros Hget.
  pose proof (getter_keeps_images c Hget w) as Himg.
  pose proof (getter_only_reads c w Hget) as Hread.
  pose proof (exec_no_throw c w) as Hsafe.
  destruct (exec c w) as [v w'|e w'|]; [|by destruct (Hsafe e w')|exact I].
  split; [by apply related_eq|].
  intros Hpair Hres. by destruct (Hread Hpair Hres) as (_ & Hlog & Hfaults).
Qed.

(** X10.  A call is confined to the image it names: it creates no image
    and deletes none, it leaves every other image as it was, and of its own
    image it changes neither the number of spins, nor the geometry, nor the
    kind of Hamiltonian. *)
Theorem X10_calls_are_confined {A} (c : Call A) :
  preserves (confined (target c)) (exec c).
Proof. apply exec_confined. Qed.

(** X11.  A call changes no group of parameters but its own: in every
    image, each group of parameters that the call assigns neither itself
    nor through the [Update] method it calls is after the call what it was
    before.  The dipolar lists count as assigned by
    [Hamiltonian_Set_Exchange] and [Hamiltonian_Set_DMI], whose
    [Update_Interactions] regenerates them.  In particular no function of
    the interface assigns [ddi_cutoff_radius], and [Hamiltonian_Set_mu_s]
    leaves the derived data as they were. *)
Theorem X11_parameters_are_independent {A} (c : Call A) (g : Parameter_Group) :
  assigns c g = false ->
  preserves (fun _ s s' => agree g (hamiltonian s) (hamiltonian s')) (exec c).
Proof. apply exec_frame. Qed.

(** X12.  On an image whose Hamiltonian is not named "Heisenberg", the six
    getters of Heisenberg parameters hand back the cells behind their
    output pointers as they were, after one read of the name, and log
    nothing. *)
Theorem X12_getters_skip_other_variants
    (w : World) (idx_image idx_chain : Z) (s : Spin_System) :
  images w !! (idx_image, idx_chain) = Some s ->
  Name (hamiltonian s) <> "Heisenberg" ->
  let w' := reads (idx_image, idx_chain) 1 w in
  (forall mu_s', Hamiltonian_Get_mu_s mu_s' idx_image idx_chain w = Ret mu_s' w')
  /\ (forall magnitude normal,
        Hamiltonian_Get_Field magnitude normal idx_image idx_chain w
          = Ret (magnitude, normal) w')
  /\ (forall magnitude normal,
        Hamiltonian_Get_Anisotropy magnitude normal idx_image idx_chain w
          = Ret (magnitude, normal) w')
  /\ (forall n_shells jij,
        Hamiltonian_Get_Exchange_Shells n_shells jij idx_image idx_chain w
          = Ret (n_shells, jij) w')
  /\ (forall n_shells dij chirality,
        Hamiltonian_Get_DMI_Shells n_shells dij chirality idx_image idx_chain w
          = Ret (n_shells, dij, chirality) w')
  /\ (forall radius, Hamiltonian_Get_DDI radius idx_image idx_chain w = Ret radius w').
Proof.
  intros Hres Hname w'. subst w'. repeat split; intros.
  - apply (Get_mu_s_skipped _ _ _ _ Hres Hname).
  - apply (Get_Field_skipped _ _ _ _ Hres Hname).
  - apply (Get_Anisotropy_skipped _ _ _ _ Hres Hname).
  - apply (Get_Exchange_Shells_skipped _ _ _ _ Hres Hname).
  - apply (Get_DMI_Shells_skipped _ _ _ _ Hres Hname).
  - apply (Get_DDI_skipped _ _ _ _ Hres Hname).
Qed.

(** X13.  No call changes the name of a Hamiltonian: for any indices,
    [Hamiltonian_Get_Name] hands back after the call what it hands back
    before it, the name of the variant or no name. *)
Theorem X13_name_is_invariant {A} (c : Call A) (w : World) (v : A) (w' : World)
    (idx_image idx_chain : Z) :
  exec c w = Ret v w' ->
  exists name w1 w2,
    Hamiltonian_Get_Name idx_image idx_chain w = Ret name w1
    /\ Hamiltonian_Get_Name idx_image idx_chain w' = Ret name w2
    /\ name = (fun s => Name (hamiltonian s)) <$> images w !! (idx_image, idx_chain).
Proof.
  intros Hrun. pose proof (exec_confined c w) as Hconf. rewrite Hrun in Hconf.
  specialize (Hconf (idx_image, idx_chain)).
  destruct (images w !! (idx_image, idx_chain)) as [s|] eqn:Hs;
    destruct (images w' !! (idx_image, idx_chain)) as [s'|] eqn:Hs'; try done.
  - rewrite (Get_Name_run _ _ _ _ Hs), (Get_Name_run _ _ _ _ Hs').
    rewrite (confined_Name _ _ _ _ Hconf). by eexists; eexists; eexists.
  - pose proof (exec_unresolved (Get_Name idx_image idx_chain) w Hs) as Hn.
    pose proof (exec_unresolved (Get_Name idx_image idx_chain) w' Hs') as Hn'.
    cbn [exec target safe_default fst snd] in Hn, Hn'. rewrite Hn, Hn'.
    by eexists; eexists; eexists.
Qed.

(** X14.  Every setter that returns has added one entry to the log, sent
    by the interface and tagged with the indices of the call.  The entry
    is of level Error exactly when a fault was raised within the call, and
    it is then the entry of that fault; of level Warning exactly when no
    fault was raised and the call is that of a setter of Heisenberg
    parameters on an image of another variant, which is left as it was; of
    level Info otherwise, the notice of the new value on an image that
    resolved. *)
Theorem X14_setters_log_once {A} (c : Call A) (w : World) (v : A) (w' : World) :
  is_mutation c = true ->
  exec c w = Ret v w' ->
  logs_one (target c).1 (target c).2 (refused_by c w) w w'.
Proof. apply setter_logs_one. Qed.

(** X15.  On an image whose number of spins or of atoms in the cell is
    negative, [Hamiltonian_Set_Anisotropy] fails before its first
    assignment: it returns, every image is as it was, and the log has the
    one new entry, of level Error, of the length error of the vector. *)
Theorem X15_anisotropy_length_error
    (w : World) (idx_image idx_chain : Z) (s : Spin_System)
    (ham : Hamiltonian_Heisenberg) (K : R) (d : float3) :
  images w !! (idx_image, idx_chain) = Some s ->
  variant (hamiltonian s) = Heisenberg ham ->
  (n_cell_atoms (geometry s) < 0)%Z \/ (nos s < 0)%Z ->
  exists w',
    Hamiltonian_Set_Anisotropy K d idx_image idx_chain w = Ret tt w'
    /\ images w' = images w
    /\ log w'
       = log w ++ [mkLogEntry Error API "std::length_error" idx_image idx_chain].
Proof.
  intros Hres Hvar Hneg.
  rewrite (Set_Anisotropy_length_error _ _ _ _ _ Hres Hvar _ _ Hneg).
  eexists. by repeat split.
Qed.

(** X16.  The getters that fill an array need room in it.  With fewer
    cells than there are exchange shells, DMI shells or atoms in the cell,
    [Hamiltonian_Get_Exchange_Shells], [Hamiltonian_Get_DMI_Shells] and
    [Hamiltonian_Get_mu_s] write outside the array, which is undefined;
    [Hamiltonian_Get_mu_s] also reads outside [mu_s] when that list is
    shorter than the cell.  With room, [Hamiltonian_Get_Exchange_Shells]
    hands back the count and the shells, and the cells after them as they
    were. *)
Theorem X16_array_getters_need_room
    (w : World) (idx_image idx_chain : Z) (s : Spin_System)
    (ham : Hamiltonian_Heisenberg) :
  images w !! (idx_image, idx_chain) = Some s ->
  variant (hamiltonian s) = Heisenberg ham ->
  (forall n_shells jij,
     (length jij < length (exchange_shell_magnitudes ham))%nat ->
     Hamiltonian_Get_Exchange_Shells n_shells jij idx_image idx_chain w = Undefined)
  /\ (forall n_shells jij,
        (Z.of_nat (length (exchange_shell_magnitudes ham)) <= INT_MAX)%Z ->
        (length (exchange_shell_magnitudes ham) <= length jij)%nat ->
        exists w',
          Hamiltonian_Get_Exchange_Shells n_shells jij idx_image idx_chain w
            = Ret (Z.of_nat (length (exchange_shell_magnitudes ham)),
                   exchange_shell_magnitudes ham
                     ++ drop (length (exchange_shell_magnitudes ham)) jij) w')
  /\ (forall n_shells dij chirality,
        (Z.of_nat (length (dmi_shell_magnitudes ham)) <= INT_MAX)%Z ->
        (length dij < length (dmi_shell_magnitudes ham))%nat ->
        Hamiltonian_Get_DMI_Shells n_shells dij chirality idx_image idx_chain w
          = Undefined)
  /\ (forall mu_s',
        (length (mu_s ham) < Z.to_nat (n_cell_atoms (geometry s)))%nat
        \/ (length mu_s' < Z.to_nat (n_cell_atoms (geometry s)))%nat ->
        Hamiltonian_Get_mu_s mu_s' idx_image idx_chain w = Undefined).
Proof.
  intros Hres Hvar. split; [|split; [|split]].
  - intros n_shells jij Hlen.
    apply (Get_Exchange_Shells_undefined _ _ _ _ _ Hres Hvar _ _ Hlen).
  - intros n_shells jij Hint Hlen. eexists.
    apply (Get_Exchange_Shells_run _ _ _ _ _ Hres Hvar _ _ Hint Hlen).
  - intros n_shells dij chirality Hint Hlen.
    apply (Get_DMI_Shells_undefined _ _ _ _ _ Hres Hvar _ _ _ Hint Hlen).
  - intros mu_s' Hshort.
    apply (Get_mu_s_undefined _ _ _ _ _ Hres Hvar _ Hshort).
Qed.

(** X17.  [Hamiltonian_Set_Field] with a positive magnitude, followed by
    [Hamiltonian_Get_Field], hands back the magnitude that was set and the
    direction that was set, normalised. *)
Theorem X17_field_direction_round_trip
    (w : World) (idx_image idx_chain : Z) (s : Spin_System)
    (ham : Hamiltonian_Heisenberg) (M : R) (d : float3)
    (magnitude : R) (normal : float3) :
  images w !! (idx_image, idx_chain) = Some s ->
  variant (hamiltonian s) = Heisenberg ham ->
  0 < M ->
  exists w1 w2,
    Hamiltonian_Set_Field M d idx_image idx_chain w = Ret tt w1
    /\ Hamiltonian_Get_Field magnitude normal idx_image idx_chain w1
       = Ret (M, float3_of (normalize (Vector3_of d))) w2.
Proof.
  intros Hres Hvar Hpos.
  pose proof (Set_Field_run _ _ _ _ _ Hres Hvar M d) as Hset.
  cbv zeta in Hset.
  match type of Hset with
  | _ = Ret tt (installed _ _ _ ?h ?u _ _ _) => set (ham1 := set_derived u.1 h) in *
  end.
  assert (external_field_magnitude ham1 = M * mu_B) as Hmag
    by (subst ham1; destruct ham; reflexivity).
  assert (external_field_normal ham1 = normalize (Vector3_of d)) as Hnor
    by (subst ham1; destruct ham; reflexivity).
  rewrite Hset. pose proof mu_B_pos as Hmu.
  eexists. eexists. split; [reflexivity|].
  rewrite (Get_Field_positive _ _ _ (with_heisenberg ham1 s) ham1).
  - rewrite Hmag, Hnor. do 2 f_equal. field. lra.
  - apply installed_lookup.
  - reflexivity.
  - rewrite Hmag. nra.
Qed.

(** X18.  A fault of the engine is not rolled back: when
    [Update_Energy_Contributions] raises in [Hamiltonian_Set_Field], the
    call returns, the Hamiltonian holds the new magnitude and direction,
    and the log has, instead of the notice of the new value, the one entry
    of the fault. *)
Theorem X18_engine_fault_is_not_rolled_back
    (w : World) (idx_image idx_chain : Z) (s : Spin_System)
    (ham : Hamiltonian_Heisenberg) (M : R) (d : float3)
    (data : Derived_Data) (e : exception) :
  images w !! (idx_image, idx_chain) = Some s ->
  variant (hamiltonian s) = Heisenberg ham ->
  Update_Energy_Contributions (geometry s)
    (set_external_field_normal (normalize (Vector3_of d))
       (set_external_field_magnitude (M * mu_B) ham)) = (data, Some e) ->
  exists w' ham',
    Hamiltonian_Set_Field M d idx_image idx_chain w = Ret tt w'
    /\ heisenberg_at w' (idx_image, idx_chain) ham'
    /\ external_field_magnitude ham' = M * mu_B
    /\ external_field_normal ham' = normalize (Vector3_of d)
    /\ derived ham' = data
    /\ log w' = log w ++ [fault_entry e idx_image idx_chain].
Proof.
  intros Hres Hvar Hupd.
  pose proof (Set_Field_run _ _ _ _ _ Hres Hvar M d) as Hset.
  cbv zeta in Hset. rewrite Hupd in Hset. cbn [fst] in Hset.
  rewrite Hset. eexists. eexists.
  split; [reflexivity|]. split; [apply heisenberg_at_installed|].
  cbn [fst]. destruct ham. by repeat split.
Qed.

End Properties.

(** * Two runs of the engine *)

(** [first] is the engine as it runs during one call and [second] as it
    runs during the next: nothing is assumed of the methods of the
    Hamiltonian, which may differ, and of the pair generator only what its
    contract says, that for one geometry and one radius it returns the same
    pairs, magnitudes and normals in the same order. *)

Section Two_Runs.
Context {collaborators : Collaborators}.
Variables first second : Engine.

Lemma ddi_loop_agrees (geom : Geometry) (pairs : pairfield) :
  (forall p, DDI_from_Pair (Engine := second) geom p
             = DDI_from_Pair (Engine := first) geom p) ->
  forall magnitudes normals,
    ddi_loop (engine := second) geom pairs magnitudes normals
    = ddi_loop (engine := first) geom pairs magnitudes normals.
Proof.
  intros Hsame. induction pairs as [|p pairs IH]; intros magnitudes normals;
    cbn [ddi_loop]; [reflexivity|].
  rewrite Hsame.
  destruct (DDI_from_Pair (Engine := first) geom p) as [[magnitude normal]|e];
    [apply IH | reflexivity].
Qed.

Lemma new_ddi_agrees (geom : Geometry) (radius : R) :
  Get_Pairs_in_Radius (Engine := second) geom radius
    = Get_Pairs_in_Radius (Engine := first) geom radius ->
  (forall p, DDI_from_Pair (Engine := second) geom p
             = DDI_from_Pair (Engine := first) geom p) ->
  new_ddi (engine := second) geom radius = new_ddi (engine := first) geom radius.
Proof.
  intros Hpairs Hsame. unfold new_ddi. rewrite Hpairs.
  destruct (Get_Pairs_in_Radius (Engine := first) geom radius) as [pairs|e];
    [|reflexivity].
  by rewrite (ddi_loop_agrees geom pairs Hsame).
Qed.

(** C8.  Two calls of [Hamiltonian_Set_DDI] in a row, with one radius, on
    one Heisenberg image, where the generator returns at the second call
    what it returns at the first.  The second call finds the geometry that
    the first one found, and the lists [ddi_pairs], [ddi_magnitudes] and
    [ddi_normals] after it are those after the first call.  They are what
    the generator gives for the geometry and the radius: when it returns,
    the pairs as generated and, in their order, the magnitude and the
    normal of [DDI_from_Pair] for each pair; when it raises, the lists that
    the Hamiltonian had before, and the fault is the new entry of the
    log. *)
Theorem C8_ddi_regeneration_is_deterministic
    (w : World) (idx_image idx_chain : Z) (s : Spin_System)
    (ham : Hamiltonian_Heisenberg) (radius : R) :
  images w !! (idx_image, idx_chain) = Some s ->
  variant (hamiltonian s) = Heisenberg ham ->
  Get_Pairs_in_Radius (Engine := second) (geometry s) radius
    = Get_Pairs_in_Radius (Engine := first) (geometry s) radius ->
  (forall p, DDI_from_Pair (Engine := second) (geometry s) p
             = DDI_from_Pair (Engine := first) (geometry s) p) ->
  exists w1 w2 s1 ham1 ham2,
    Hamiltonian_Set_DDI (engine := first) radius idx_image idx_chain w = Ret tt w1
    /\ images w1 !! (idx_image, idx_chain) = Some s1
    /\ geometry s1 = geometry s
    /\ variant (hamiltonian s1) = Heisenberg ham1
    /\ Hamiltonian_Set_DDI (engine := second) radius idx_image idx_chain w1
       = Ret tt w2
    /\ heisenberg_at w2 (idx_image, idx_chain) ham2
    /\ ddi_pairs ham2 = ddi_pairs ham1
    /\ ddi_magnitudes ham2 = ddi_magnitudes ham1
    /\ ddi_normals ham2 = ddi_normals ham1
    /\ match new_ddi (engine := first) (geometry s) radius with
       | Ok (pairs, (magnitudes, normals)) =>
           ddi_pairs ham1 = pairs
           /\ ddi_magnitudes ham1 = magnitudes
           /\ ddi_normals ham1 = normals
           /\ ddi_of_pairs (engine := first) (geometry s) pairs magnitudes normals
       | Raise e =>
           ddi_pairs ham1 = ddi_pairs ham
           /\ ddi_magnitudes ham1 = ddi_magnitudes ham
           /\ ddi_normals ham1 = ddi_normals ham
           /\ log w1 = log w ++ [fault_entry e idx_image idx_chain]
       end.
Proof.
  intros Hres Hvar Hpairs Hsame.
  pose proof (new_ddi_agrees (geometry s) radius Hpairs Hsame) as Hagree.
  destruct (new_ddi (engine := first) (geometry s) radius)
    as [[pairs [magnitudes normals]]|e] eqn:Hnew.
  - pose proof (Set_DDI_run (engine := first) _ _ _ _ _ Hres Hvar _ _ _ _ Hnew)
      as Hset.
    cbv zeta in Hset.
    match type of Hset with
    | _ = Ret tt (installed _ _ _ ?h ?u _ _ _) => set (ham1 := set_derived u.1 h) in *
    end.
    rewrite Hset.
    eexists. eexists. exists (with_heisenberg ham1 s), ham1. eexists.
    split; [reflexivity|]. split; [apply installed_lookup|].
    split; [reflexivity|]. split; [reflexivity|].
    split; [apply (Set_DDI_run (engine := second) _ _ _ (with_heisenberg ham1 s) ham1
                     (installed_lookup _ _ _ _ _ _ _ _) eq_refl _ _ _ _ Hagree)|].
    split; [apply heisenberg_at_installed|].
    assert (ddi_pairs ham1 = pairs /\ ddi_magnitudes ham1 = magnitudes
            /\ ddi_normals ham1 = normals) as (Hp & Hm & Hn)
      by (subst ham1; destruct ham; repeat split).
    split; [by destruct ham1|]. split; [by destruct ham1|]. split; [by destruct ham1|].
    split; [exact Hp|]. split; [exact Hm|]. split; [exact Hn|].
    unfold new_ddi in Hnew.
    destruct (Get_Pairs_in_Radius (Engine := first) (geometry s) radius)
      as [pairs'|e]; [|discriminate].
    destruct (ddi_loop (engine := first) (geometry s) pairs' [] [])
      as [[ms ns]|e] eqn:Hloop; [|discriminate].
    injection Hnew as -> -> ->.
    destruct (ddi_loop_spec (engine := first) _ _ _ _ _ _ Hloop)
      as (dm & dn & -> & -> & Hof).
    exact Hof.
  - pose proof (Set_DDI_fault (engine := first) _ _ _ _ _ Hres Hvar _ _ Hnew) as Hset.
    rewrite Hset.
    eexists. eexists. exists s, ham, ham.
    split; [reflexivity|]. split; [exact Hres|].
    split; [reflexivity|]. split; [exact Hvar|].
    split; [apply (Set_DDI_fault (engine := second) _ _ _ s ham);
            [exact Hres | exact Hvar | exact Hagree]|].
    split; [by apply heisenberg_at_intro with (s := s)|].
    by repeat split.
Qed.

End Two_Runs.

(** * The properties on the small state *)

#[local] Existing Instance demo_collaborators.
#[local] Existing Instance demo_engine.

(** ** The embedding at work *)

Example vector_range_prefix : vector_range [5; 6; 7] 2 = Some [5; 6].
Proof. reflexivity. Qed.

Example vector_range_negative : vector_range [5; 6; 7] (-1) = None.
Proof. reflexivity. Qed.

Example vector_fill_negative :
  vector_fill (-1) 0 = Raise (Exception "std::length_error").
Proof. reflexivity. Qed.

Example copy_loop_two : copy_loop 2 0 [5; 6] [0; 0; 0] = Some [5; 6; 0].
Proof. reflexivity. Qed.

Example copy_loop_short : copy_loop 2 0 [5; 6] [0] = None.
Proof. reflexivity. Qed.

Example new_anisotropy_three :
  new_anisotropy 3 5 = ([0; 1; 2]%Z, [5; 5; 5]).
Proof. reflexivity. Qed.

Example normalize_example : normalize (mkVector3 0 0 2) = mkVector3 0 0 1.
Proof.
  unfold normalize, squaredNorm. cbn [vx vy vz].
  replace (0 * 0 + 0 * 0 + 2 * 2) with (2 * 2) by lra.
  destruct (Rlt_dec 0 (2 * 2)) as [_|Hn]; [|lra].
  rewrite sqrt_square by lra. unfold scale. cbn [vx vy vz].
  f_equal; lra.
Qed.

(** A field of magnitude 3 along (0, 0, 2) reads back as 3 along
    (0, 0, 1). *)
Example field_set_then_get :
  exists w1 w2,
    Hamiltonian_Set_Field 3 (0, 0, 2) 0 0 demo_world = Ret tt w1
    /\ Hamiltonian_Get_Field 0 (0, 0, 0) 0 0 w1 = Ret (3, (0, 0, 1)) w2.
Proof.
  pose proof (Set_Field_run demo_world 0 0 demo_image demo_heisenberg
                eq_refl eq_refl 3 (0, 0, 2)) as Hset.
  cbv zeta in Hset.
  match type of Hset with
  | _ = Ret tt (installed _ _ _ ?h ?u _ _ _) => set (ham1 := set_derived u.1 h) in *
  end.
  rewrite Hset. eexists. eexists. split; [reflexivity|].
  rewrite (Get_Field_positive _ 0%Z 0%Z (with_heisenberg ham1 demo_image) ham1
             (installed_lookup _ _ _ _ _ _ _ _) eq_refl).
  - f_equal. subst ham1. unfold demo_heisenberg. cbn [external_field_magnitude
      external_field_normal set_derived set_external_field_normal
      set_external_field_magnitude Vector3_of fst snd].
    change (Vector3_of (0, 0, 2)) with (mkVector3 0 0 2).
    rewrite normalize_example. cbn [float3_of vx vy vz].
    f_equal. pose proof mu_B_pos. field. lra.
  - pose proof mu_B_pos. subst ham1. unfold demo_heisenberg. cbn. lra.
Qed.

(** The lock rejects an execution in which the second thread takes the
    lock while the first holds it. *)
Example overlap_is_rejected :
  lock_respected (0, 0)%Z None
    [(1%nat, EvLock (0, 0)%Z); (2%nat, EvLock (0, 0)%Z);
     (1%nat, EvWrite (0, 0)%Z); (2%nat, EvWrite (0, 0)%Z);
     (1%nat, EvUnlock (0, 0)%Z); (2%nat, EvUnlock (0, 0)%Z)] = false.
Proof. reflexivity. Qed.

(** ** The claims on the small state *)

(** C1 on the Gaussian image of the small state. *)
Lemma C1_witness :
  images demo_world !! (1, 0)%Z = Some gaussian_image
  /\ Name (hamiltonian gaussian_image) <> "Heisenberg"
  /\ exists w' msg,
       Hamiltonian_Set_DDI 3 1 0 demo_world = Ret tt w'
       /\ images w' = images demo_world
       /\ log w' = log demo_world ++ [mkLogEntry Warning API msg 1 0].
Proof.
  assert (images demo_world !! (1, 0)%Z = Some gaussian_image) as Hres
    by reflexivity.
  assert (Name (hamiltonian gaussian_image) <> "Heisenberg") as Hname
    by discriminate.
  split; [exact Hres|]. split; [exact Hname|].
  pose proof (C1_unsupported_variant_refused demo_world 1 0 gaussian_image
                Hres Hname) as Hc.
  cbv zeta in Hc. destruct Hc as (_ & _ & _ & _ & _ & Hddi). exact (Hddi 3).
Defined.

(** C2 on two mutations of the Heisenberg image of the small state: the
    execution in which the first runs before the second respects the lock,
    and the theorem finds it serial. *)
Lemma C2_witness :
  let image := (0, 0)%Z in
  let evs1 := [EvLock image; EvRead image; EvWrite image; EvUnlock image] in
  let evs2 := [EvLock image; EvRead image; EvWrite image; EvWrite image;
               EvWrite image; EvUnlock image] in
  let l := tag 1%nat evs1 ++ tag 2%nat evs2 in
  interleaving (tag 1%nat evs1) (tag 2%nat evs2) l
  /\ lock_respected image None l = true
  /\ (l = tag 1%nat evs1 ++ tag 2%nat evs2 \/ l = tag 2%nat evs2 ++ tag 1%nat evs1).
Proof.
  intros image evs1 evs2 l.
  assert (interleaving (tag 1%nat evs1) (tag 2%nat evs2) l) as Hi
    by (repeat constructor).
  assert (lock_respected image None l = true) as Hlock by reflexivity.
  split; [exact Hi|]. split; [exact Hlock|].
  pose proof (Set_mu_s_run demo_world 0 0 demo_image demo_heisenberg
                eq_refl eq_refl 2) as Hr1.
  pose proof (Set_Field_run demo_world 0 0 demo_image demo_heisenberg
                eq_refl eq_refl 1 (0, 0, 1)) as Hr2.
  cbv zeta in Hr2.
  exact (proj1 (proj2 C2_mutations_locked_getters_lock_free) _ _
           (Set_mu_s 2 0 0) (Set_Field 1 (0, 0, 1) 0 0)
           demo_world demo_world tt tt _ _ eq_refl eq_refl eq_refl Hr1 Hr2
           1%nat 2%nat l Hi Hlock).
Defined.

(** A fault of the engine under the lock: with the engine that fails,
    [Hamiltonian_Set_Field] returns, the field is installed, and the log
    holds the fault and no notice of a new value. *)
Lemma engine_fault_is_caught :
  exists w' ham',
    @Hamiltonian_Set_Field demo_collaborators faulty_engine 1 (0, 0, 2) 0 0 demo_world
      = Ret tt w'
    /\ heisenberg_at w' (0, 0)%Z ham'
    /\ external_field_magnitude ham' = 1 * mu_B
    /\ log w' = [mkLogEntry Error API "std::bad_alloc" 0 0]
    /\ faults w' = [mkFault (Exception "std::bad_alloc") (images w')].
Proof.
  eexists. eexists.
  split; [apply (@Set_Field_run demo_collaborators faulty_engine demo_world 0 0
                   demo_image demo_heisenberg eq_refl eq_refl)|].
  split; [apply heisenberg_at_installed|].
  repeat split.
Qed.

(** C3 on indices that name no image of the small state, and on a call
    during which the engine fails. *)
Lemma C3_witness :
  images demo_world !! (7, 7)%Z = None
  /\ (Hamiltonian_Get_Name 7 7 demo_world = Ret None (unresolved 7 7 demo_world)
      /\ Hamiltonian_Get_Exchange_N_Pairs 7 7 demo_world
         = Ret 0%Z (unresolved 7 7 demo_world)
      /\ Hamiltonian_Get_DMI_N_Pairs 7 7 demo_world
         = Ret 0%Z (unresolved 7 7 demo_world))
  /\ isolated 0 0 tt demo_world
       (@Hamiltonian_Set_Field demo_collaborators faulty_engine 1 (0, 0, 2) 0 0
          demo_world).
Proof.
  assert (images demo_world !! (7, 7)%Z = None) as Hnone by reflexivity.
  split; [exact Hnone|]. split.
  - exact (proj2 (proj2 (proj2 C3_faults_are_isolated)) demo_world 7%Z 7%Z Hnone).
  - exact (proj1 (proj2 (@C3_faults_are_isolated demo_collaborators faulty_engine))
             _ (Set_Field 1 (0, 0, 2) 0 0) demo_world).
Defined.

(** C5 on the Heisenberg image, with two shells and an array of three
    cells to read them back. *)
Lemma C5_witness :
  (0 <= 2)%Z /\ in_int 2 /\ length [5; 6] = Z.to_nat 2
  /\ (length [5; 6] <= length [0; 0; 0])%nat
  /\ exists w1 w2 out',
       Hamiltonian_Set_Exchange 2 [5; 6] 0 0 demo_world = Ret tt w1
       /\ Hamiltonian_Get_Exchange_Shells 0 [0; 0; 0] 0 0 w1 = Ret (2%Z, out') w2
       /\ take (Z.to_nat 2) out' = [5; 6]
       /\ length out' = length [0; 0; 0].
Proof.
  assert (0 <= 2)%Z as Hk by lia.
  assert (in_int 2) as Hint by (unfold in_int, INT_MIN, INT_MAX; lia).
  assert (length [5; 6] = Z.to_nat 2) as Hlen by reflexivity.
  assert (length [5; 6] <= length [0; 0; 0])%nat as Hout by (simpl; lia).
  split; [exact Hk|]. split; [exact Hint|]. split; [exact Hlen|].
  split; [exact Hout|].
  exact (C5_exchange_shells_round_trip demo_world 0 0 demo_image demo_heisenberg
           2 [5; 6] 0 [0; 0; 0] eq_refl eq_refl Hk Hint Hlen Hout).
Defined.

(** C6 on the Heisenberg image, which holds explicit exchange and DMI
    pairs. *)
Lemma C6_witness :
  exchange_pairs_in demo_heisenberg = [demo_pair]
  /\ (0 <= 1 <= Z.of_nat (length [7]))%Z
  /\ (exists w' ham',
        Hamiltonian_Set_Exchange 1 [7] 0 0 demo_world = Ret tt w'
        /\ heisenberg_at w' (0, 0)%Z ham'
        /\ exchange_pairs_in ham' = []
        /\ exchange_magnitudes_in ham' = []
        /\ exchange_shell_magnitudes ham' = take (Z.to_nat 1) [7])
  /\ (exists w' ham',
        Hamiltonian_Set_DMI 1 [7] (-1) 0 0 demo_world = Ret tt w'
        /\ heisenberg_at w' (0, 0)%Z ham'
        /\ dmi_pairs_in ham' = []
        /\ dmi_magnitudes_in ham' = []
        /\ dmi_normals_in ham' = []
        /\ dmi_shell_magnitudes ham' = take (Z.to_nat 1) [7]
        /\ dmi_shell_chirality ham' = (-1)%Z).
Proof.
  assert (0 <= 1 <= Z.of_nat (length [7]))%Z as Hn by (simpl; lia).
  split; [reflexivity|]. split; [exact Hn|].
  exact (C6_explicit_pairs_are_cleared demo_world 0 0 demo_image demo_heisenberg
           1 [7] (-1) eq_refl eq_refl Hn).
Defined.

(** C7, as amended, on the Heisenberg image with a field of magnitude two. *)
Lemma C7_witness :
  images demo_world !! (0, 0)%Z = Some demo_image
  /\ variant (hamiltonian demo_image) = Heisenberg demo_heisenberg
  /\ exists w1 ham1 w2 got,
       Hamiltonian_Set_Field 2 (0, 0, 1) 0 0 demo_world = Ret tt w1
       /\ heisenberg_at w1 (0, 0)%Z ham1
       /\ external_field_magnitude ham1 = 2 * mu_B
       /\ Hamiltonian_Get_Field 0 (0, 0, 0) 0 0 w1 = Ret got w2
       /\ (0 <= 2 -> got.1 = 2)
       /\ (2 < 0 -> got = (0, (0, 0, 1))).
Proof.
  split; [reflexivity|]. split; [reflexivity|].
  exact (C7_field_magnitude_round_trip demo_world 0 0 demo_image demo_heisenberg
           2 (0, 0, 1) 0 (0, 0, 0) eq_refl eq_refl).
Defined.

(** C7 as the specification states it fails on a field of magnitude -1:
    the magnitude read back is not -1. *)
Lemma C7_counterexample :
  exists w1 w2 got,
    Hamiltonian_Set_Field (-1) (0, 0, 1) 0 0 demo_world = Ret tt w1
    /\ Hamiltonian_Get_Field 0 (0, 0, 0) 0 0 w1 = Ret got w2
    /\ got.1 = 0
    /\ got.1 <> -1.
Proof.
  pose proof (Set_Field_run demo_world 0 0 demo_image demo_heisenberg
                eq_refl eq_refl (-1) (0, 0, 1)) as Hset.
  cbv zeta in Hset.
  match type of Hset with
  | _ = Ret tt (installed _ _ _ ?h ?u _ _ _) => set (ham1 := set_derived u.1 h) in *
  end.
  rewrite Hset.
  eexists. eexists. exists (0, (0, 0, 1)).
  split; [reflexivity|]. split.
  - apply Get_Field_nonpositive with (s := with_heisenberg ham1 demo_image) (ham := ham1).
    + apply installed_lookup.
    + reflexivity.
    + pose proof mu_B_pos. subst ham1. unfold demo_heisenberg. cbn. lra.
  - cbn. split; lra.
Qed.

(** C8 on the Heisenberg image: the engine of the first call, and for the
    second call the engine whose update of the energy contributions fails;
    the two find the same pair within any radius. *)
Lemma C8_witness :
  Get_Pairs_in_Radius (Engine := faulty_engine) (geometry demo_image) 1
    = Get_Pairs_in_Radius (Engine := demo_engine) (geometry demo_image) 1
  /\ (forall p, DDI_from_Pair (Engine := faulty_engine) (geometry demo_image) p
                = DDI_from_Pair (Engine := demo_engine) (geometry demo_image) p)
  /\ exists w1 w2 s1 ham1 ham2,
       Hamiltonian_Set_DDI (engine := demo_engine) 1 0 0 demo_world = Ret tt w1
       /\ images w1 !! (0, 0)%Z = Some s1
       /\ geometry s1 = geometry demo_image
       /\ variant (hamiltonian s1) = Heisenberg ham1
       /\ Hamiltonian_Set_DDI (engine := faulty_engine) 1 0 0 w1 = Ret tt w2
       /\ heisenberg_at w2 (0, 0)%Z ham2
       /\ ddi_pairs ham2 = ddi_pairs ham1
       /\ ddi_magnitudes ham2 = ddi_magnitudes ham1
       /\ ddi_normals ham2 = ddi_normals ham1
       /\ match new_ddi (engine := demo_engine) (geometry demo_image) 1 with
          | Ok (pairs, (magnitudes, normals)) =>
              ddi_pairs ham1 = pairs
              /\ ddi_magnitudes ham1 = magnitudes
              /\ ddi_normals ham1 = normals
              /\ ddi_of_pairs (engine := demo_engine) (geometry demo_image)
                   pairs magnitudes normals
          | Raise e =>
              ddi_pairs ham1 = ddi_pairs demo_heisenberg
              /\ ddi_magnitudes ham1 = ddi_magnitudes demo_heisenberg
              /\ ddi_normals ham1 = ddi_normals demo_heisenberg
              /\ log w1 = log demo_world ++ [fault_entry e 0 0]
          end.
Proof.
  assert (forall p, DDI_from_Pair (Engine := faulty_engine) (geometry demo_image) p
                    = DDI_from_Pair (Engine := demo_engine) (geometry demo_image) p)
    as Hsame by reflexivity.
  split; [reflexivity|]. split; [exact Hsame|].
  exact (C8_ddi_regeneration_is_deterministic demo_engine faulty_engine
           demo_world 0 0 demo_image demo_heisenberg 1 eq_refl eq_refl eq_refl Hsame).
Defined.

(** C9 on the Gaussian image. *)
Lemma C9_witness :
  images demo_world !! (1, 0)%Z = Some gaussian_image
  /\ Hamiltonian_Get_Exchange_N_Pairs 1 0 demo_world
     = Ret 0%Z (stub demo_world 1 0 gaussian_image "exchange")
  /\ Hamiltonian_Get_DMI_N_Pairs 1 0 demo_world
     = Ret 0%Z (stub demo_world 1 0 gaussian_image "DMI")
  /\ Hamiltonian_Get_Exchange_Pairs (([1], [2]), ([3], [4], [5]), [6]) 1 0 demo_world
     = Ret (([1], [2]), ([3], [4], [5]), [6])
         (stub demo_world 1 0 gaussian_image "exchange").
Proof.
  split; [reflexivity|].
  exact (C9_pair_getters_are_stubs demo_world 1 0 gaussian_image
           (([1], [2]), ([3], [4], [5]), [6]) eq_refl).
Defined.

(** C10 on the Heisenberg image, whose field has magnitude zero. *)
Lemma C10_witness :
  images demo_world !! (0, 0)%Z = Some demo_image
  /\ variant (hamiltonian demo_image) = Heisenberg demo_heisenberg
  /\ external_field_magnitude demo_heisenberg <= 0
  /\ (exists w',
        Hamiltonian_Get_Field 9 (1, 0, 0) 0 0 demo_world = Ret (0, (0, 0, 1)) w')
  /\ (exists w1 ham1 w2,
        Hamiltonian_Set_Field 0 (1, 0, 0) 0 0 demo_world = Ret tt w1
        /\ heisenberg_at w1 (0, 0)%Z ham1
        /\ external_field_normal ham1 = normalize (Vector3_of (1, 0, 0))
        /\ Hamiltonian_Get_Field 9 (1, 0, 0) 0 0 w1 = Ret (0, (0, 0, 1)) w2).
Proof.
  assert (external_field_magnitude demo_heisenberg <= 0) as Hle by (simpl; lra).
  pose proof (C10_no_field_reads_as_sentinel demo_world 0 0 demo_image
                demo_heisenberg 9 (1, 0, 0) eq_refl eq_refl) as [Hget Hset].
  split; [reflexivity|]. split; [reflexivity|]. split; [exact Hle|].
  split; [exact (Hget Hle) | exact (Hset (1, 0, 0))].
Defined.

(** ** The further properties on the small states *)

(** X1 on the Gaussian image. *)
Lemma X1_witness :
  images demo_world !! (1, 0)%Z = Some gaussian_image
  /\ exists w1 w2 msg,
       Hamiltonian_Set_Boundary_Conditions (true, false, true) 1 0 demo_world
         = Ret tt w1
       /\ images w1
          = <[(1, 0)%Z :=
                mkSpin_System (nos gaussian_image) (geometry gaussian_image)
                  (mkHamiltonian (true, false, true)
                     (variant (hamiltonian gaussian_image)))]> (images demo_world)
       /\ log w1 = log demo_world ++ [mkLogEntry Info API msg 1 0]
       /\ Hamiltonian_Get_Boundary_Conditions (false, false, false) 1 0 w1
          = Ret (true, false, true) w2.
Proof.
  split; [reflexivity|].
  exact (X1_boundary_conditions_round_trip demo_world 1 0 gaussian_image
           (true, false, true) (false, false, false) eq_refl).
Defined.

(** X2 on the Heisenberg image, with an array of two cells. *)
Lemma X2_witness :
  (Z.to_nat (n_cell_atoms (geometry demo_image)) <= length (mu_s demo_heisenberg))%nat
  /\ (Z.to_nat (n_cell_atoms (geometry demo_image)) <= length [8; 9])%nat
  /\ exists w1 ham1 w2,
       Hamiltonian_Set_mu_s 7 0 0 demo_world = Ret tt w1
       /\ heisenberg_at w1 (0, 0)%Z ham1
       /\ mu_s ham1 = replicate (length (mu_s demo_heisenberg)) 7
       /\ Hamiltonian_Get_mu_s [8; 9] 0 0 w1
          = Ret (replicate (Z.to_nat (n_cell_atoms (geometry demo_image))) 7
                   ++ drop (Z.to_nat (n_cell_atoms (geometry demo_image))) [8; 9]) w2.
Proof.
  assert (Z.to_nat (n_cell_atoms (geometry demo_image))
          <= length (mu_s demo_heisenberg))%nat as Hsrc by (simpl; lia).
  assert (Z.to_nat (n_cell_atoms (geometry demo_image)) <= length [8; 9])%nat
    as Hdst by (simpl; lia).
  split; [exact Hsrc|]. split; [exact Hdst|].
  exact (X2_mu_s_round_trip demo_world 0 0 demo_image demo_heisenberg 7 [8; 9]
           eq_refl eq_refl Hsrc Hdst).
Defined.

(** X3 on the Heisenberg image, with the magnitude zero. *)
Lemma X3_witness :
  (1 <= n_cell_atoms (geometry demo_image))%Z
  /\ (1 <= nos demo_image)%Z
  /\ exists w1 w2,
       Hamiltonian_Set_Anisotropy 0 (0, 3, 0) 0 0 demo_world = Ret tt w1
       /\ Hamiltonian_Get_Anisotropy 9 (1, 1, 1) 0 0 w1
          = Ret (0, float3_of (normalize (Vector3_of (0, 3, 0)))) w2.
Proof.
  assert (1 <= n_cell_atoms (geometry demo_image))%Z as Hcell by (simpl; lia).
  assert (1 <= nos demo_image)%Z as Hnos by (simpl; lia).
  split; [exact Hcell|]. split; [exact Hnos|].
  exact (X3_anisotropy_round_trip demo_world 0 0 demo_image demo_heisenberg
           0 (0, 3, 0) 9 (1, 1, 1) eq_refl eq_refl Hcell Hnos).
Defined.

(** X4 on the image without sites. *)
Lemma X4_witness :
  images odd_world !! (0, 0)%Z = Some bare_image
  /\ anisotropy_indices demo_heisenberg = []
  /\ n_cell_atoms (geometry bare_image) = 0%Z
  /\ (0 <= nos bare_image)%Z
  /\ (exists w',
        Hamiltonian_Get_Anisotropy 9 (1, 1, 1) 0 0 odd_world = Ret (0, (0, 0, 1)) w')
  /\ (exists w1 ham1 w2,
        Hamiltonian_Set_Anisotropy 5 (0, 3, 0) 0 0 odd_world = Ret tt w1
        /\ heisenberg_at w1 (0, 0)%Z ham1
        /\ anisotropy_normals ham1
           = replicate (Z.to_nat (nos bare_image)) (normalize (Vector3_of (0, 3, 0)))
        /\ Hamiltonian_Get_Anisotropy 9 (1, 1, 1) 0 0 w1 = Ret (0, (0, 0, 1)) w2).
Proof.
  assert (0 <= nos bare_image)%Z as Hnos by (simpl; lia).
  pose proof (X4_no_anisotropy_reads_as_sentinel odd_world 0 0 bare_image
                demo_heisenberg 9 (1, 1, 1) eq_refl eq_refl) as [Hget Hset].
  split; [reflexivity|]. split; [reflexivity|]. split; [reflexivity|].
  split; [exact Hnos|].
  split; [exact (Hget eq_refl) | exact (Hset eq_refl Hnos 5 (0, 3, 0))].
Defined.

(** X5 on the Heisenberg image. *)
Lemma X5_witness :
  (0 <= n_cell_atoms (geometry demo_image))%Z
  /\ (0 <= nos demo_image)%Z
  /\ exists w' ham',
       Hamiltonian_Set_Anisotropy 5 (0, 3, 0) 0 0 demo_world = Ret tt w'
       /\ heisenberg_at w' (0, 0)%Z ham'
       /\ anisotropy_indices ham'
          = (Z.of_nat <$> seq 0 (Z.to_nat (n_cell_atoms (geometry demo_image))))
       /\ anisotropy_magnitudes ham'
          = replicate (Z.to_nat (n_cell_atoms (geometry demo_image))) 5
       /\ anisotropy_normals ham'
          = replicate (Z.to_nat (nos demo_image)) (normalize (Vector3_of (0, 3, 0))).
Proof.
  assert (0 <= n_cell_atoms (geometry demo_image))%Z as Hcell by (simpl; lia).
  assert (0 <= nos demo_image)%Z as Hnos by (simpl; lia).
  split; [exact Hcell|]. split; [exact Hnos|].
  exact (X5_anisotropy_lists demo_world 0 0 demo_image demo_heisenberg
           5 (0, 3, 0) eq_refl eq_refl Hcell Hnos).
Defined.

(** X6 on the Heisenberg image, with two shells and an array of three
    cells. *)
Lemma X6_witness :
  (0 <= 2)%Z /\ in_int 2 /\ length [5; 6] = Z.to_nat 2
  /\ (length [5; 6] <= length [1; 2; 3])%nat
  /\ exists w1 w2,
       Hamiltonian_Set_DMI 2 [5; 6] (-1) 0 0 demo_world = Ret tt w1
       /\ Hamiltonian_Get_DMI_Shells 0 [1; 2; 3] 0 0 0 w1
          = Ret (2%Z, [5; 6] ++ drop (length [5; 6]) [1; 2; 3], (-1)%Z) w2.
Proof.
  assert (0 <= 2)%Z as Hk by lia.
  assert (in_int 2) as Hint by (unfold in_int, INT_MIN, INT_MAX; lia).
  assert (length [5; 6] = Z.to_nat 2) as Hlen by reflexivity.
  assert (length [5; 6] <= length [1; 2; 3])%nat as Hout by (simpl; lia).
  split; [exact Hk|]. split; [exact Hint|]. split; [exact Hlen|].
  split; [exact Hout|].
  exact (X6_dmi_shells_round_trip demo_world 0 0 demo_image demo_heisenberg
           2 [5; 6] (-1) 0 [1; 2; 3] 0 eq_refl eq_refl Hk Hint Hlen Hout).
Defined.

(** X7 on the Heisenberg image, whose cutoff radius is zero. *)
Lemma X7_witness :
  images demo_world !! (0, 0)%Z = Some demo_image
  /\ variant (hamiltonian demo_image) = Heisenberg demo_heisenberg
  /\ exists w1 w2,
       Hamiltonian_Set_DDI 3 0 0 demo_world = Ret tt w1
       /\ Hamiltonian_Get_DDI 9 0 0 w1 = Ret (ddi_cutoff_radius demo_heisenberg) w2.
Proof.
  split; [reflexivity|]. split; [reflexivity|].
  exact (X7_ddi_radius_is_not_stored demo_world 0 0 demo_image demo_heisenberg
           3 9 eq_refl eq_refl).
Defined.

(** X8 on the Heisenberg image: the engine finds one pair. *)
Lemma X8_witness :
  Get_Pairs_in_Radius (geometry demo_image) 3 = Ok [demo_pair]
  /\ Forall (fun p => exists found, DDI_from_Pair (geometry demo_image) p = Ok found)
       [demo_pair]
  /\ exists w' ham',
       Hamiltonian_Set_DDI 3 0 0 demo_world = Ret tt w'
       /\ heisenberg_at w' (0, 0)%Z ham'
       /\ ddi_pairs ham' = [demo_pair]
       /\ ddi_of_pairs (geometry demo_image) [demo_pair]
            (ddi_magnitudes ham') (ddi_normals ham').
Proof.
  assert (Forall (fun p => exists found,
                    DDI_from_Pair (geometry demo_image) p = Ok found) [demo_pair])
    as Hall by (repeat constructor; by eexists).
  split; [reflexivity|]. split; [exact Hall|].
  exact (X8_ddi_lists_run_parallel demo_world 0 0 demo_image demo_heisenberg
           3 [demo_pair] eq_refl eq_refl eq_refl Hall).
Defined.

(** X9 on a read of the field of the Heisenberg image. *)
Lemma X9_witness :
  is_mutation (Get_Field 9 (1, 1, 1) 0 0) = false
  /\ match exec (Get_Field 9 (1, 1, 1) 0 0) demo_world with
     | Ret _ w' =>
         images w' = images demo_world
         /\ (is_pair_getter (Get_Field 9 (1, 1, 1) 0 0) = false ->
             is_Some (images demo_world !! target (Get_Field 9 (1, 1, 1) 0 0)) ->
             log w' = log demo_world /\ faults w' = faults demo_world)
     | Thrown _ _ => False
     | Undefined => True
     end.
Proof.
  split; [reflexivity|].
  exact (X9_getters_only_read (Get_Field 9 (1, 1, 1) 0 0) demo_world eq_refl).
Defined.

(** X11 on a new field and the anisotropy. *)
Lemma X11_witness :
  assigns (Set_Field 1 (0, 0, 2) 0 0) P_anisotropy = false
  /\ preserves (fun _ s s' => agree P_anisotropy (hamiltonian s) (hamiltonian s'))
       (exec (Set_Field 1 (0, 0, 2) 0 0)).
Proof.
  split; [reflexivity|].
  exact (X11_parameters_are_independent (Set_Field 1 (0, 0, 2) 0 0) P_anisotropy
           eq_refl).
Defined.

(** X12 on the Gaussian image. *)
Lemma X12_witness :
  images demo_world !! (1, 0)%Z = Some gaussian_image
  /\ Name (hamiltonian gaussian_image) <> "Heisenberg"
  /\ Hamiltonian_Get_DDI 9 1 0 demo_world = Ret 9 (reads (1, 0)%Z 1 demo_world).
Proof.
  assert (Name (hamiltonian gaussian_image) <> "Heisenberg") as Hname
    by discriminate.
  split; [reflexivity|]. split; [exact Hname|].
  pose proof (X12_getters_skip_other_variants demo_world 1 0 gaussian_image
                eq_refl Hname) as Hskip.
  cbv zeta in Hskip. destruct Hskip as (_ & _ & _ & _ & _ & Hddi). exact (Hddi 9).
Defined.

(** X13 on a call that sets the moments of the Heisenberg image. *)
Lemma X13_witness :
  exists w',
    exec (Set_mu_s 7 0 0) demo_world = Ret tt w'
    /\ exists name w1 w2,
         Hamiltonian_Get_Name 0 0 demo_world = Ret name w1
         /\ Hamiltonian_Get_Name 0 0 w' = Ret name w2
         /\ name = (fun s => Name (hamiltonian s)) <$> images demo_world !! (0, 0)%Z.
Proof.
  pose proof (Set_mu_s_run demo_world 0 0 demo_image demo_heisenberg
                eq_refl eq_refl 7) as Hrun.
  eexists. split; [exact Hrun|].
  exact (X13_name_is_invariant (Set_mu_s 7 0 0) demo_world tt _ 0 0 Hrun).
Defined.

(** X14 on the same call. *)
Lemma X14_witness :
  is_mutation (Set_mu_s 7 0 0) = true
  /\ exists w',
       exec (Set_mu_s 7 0 0) demo_world = Ret tt w'
       /\ logs_one 0 0 (refused_by (Set_mu_s 7 0 0) demo_world) demo_world w'.
Proof.
  pose proof (Set_mu_s_run demo_world 0 0 demo_image demo_heisenberg
                eq_refl eq_refl 7) as Hrun.
  split; [reflexivity|]. eexists. split; [exact Hrun|].
  exact (X14_setters_log_once (Set_mu_s 7 0 0) demo_world tt _ eq_refl Hrun).
Defined.

(** X15 on the image with a negative number of spins. *)
Lemma X15_witness :
  images odd_world !! (1, 0)%Z = Some overflown_image
  /\ ((n_cell_atoms (geometry overflown_image) < 0)%Z \/ (nos overflown_image < 0)%Z)
  /\ exists w',
       Hamiltonian_Set_Anisotropy 5 (0, 3, 0) 1 0 odd_world = Ret tt w'
       /\ images w' = images odd_world
       /\ log w' = log odd_world ++ [mkLogEntry Error API "std::length_error" 1 0].
Proof.
  assert ((n_cell_atoms (geometry overflown_image) < 0)%Z
          \/ (nos overflown_image < 0)%Z) as Hneg by (right; simpl; lia).
  split; [reflexivity|]. split; [exact Hneg|].
  exact (X15_anisotropy_length_error odd_world 1 0 overflown_image demo_heisenberg
           5 (0, 3, 0) eq_refl eq_refl Hneg).
Defined.

(** X16 on the Heisenberg image, which has one atom in the cell: an empty
    array is too short for its moments. *)
Lemma X16_witness :
  images demo_world !! (0, 0)%Z = Some demo_image
  /\ variant (hamiltonian demo_image) = Heisenberg demo_heisenberg
  /\ (length (@nil R) < Z.to_nat (n_cell_atoms (geometry demo_image)))%nat
  /\ Hamiltonian_Get_mu_s [] 0 0 demo_world = Undefined.
Proof.
  assert (length (@nil R) < Z.to_nat (n_cell_atoms (geometry demo_image)))%nat
    as Hshort by (simpl; lia).
  split; [reflexivity|]. split; [reflexivity|]. split; [exact Hshort|].
  exact (proj2 (proj2 (proj2
           (X16_array_getters_need_room demo_world 0 0 demo_image demo_heisenberg
              eq_refl eq_refl))) [] (or_intror Hshort)).
Defined.

(** X17 on the Heisenberg image. *)
Lemma X17_witness :
  0 < 3
  /\ exists w1 w2,
       Hamiltonian_Set_Field 3 (0, 0, 2) 0 0 demo_world = Ret tt w1
       /\ Hamiltonian_Get_Field 9 (1, 1, 1) 0 0 w1
          = Ret (3, float3_of (normalize (Vector3_of (0, 0, 2)))) w2.
Proof.
  assert (0 < 3) as Hpos by lra.
  split; [exact Hpos|].
  exact (X17_field_direction_round_trip demo_world 0 0 demo_image demo_heisenberg
           3 (0, 0, 2) 9 (1, 1, 1) eq_refl eq_refl Hpos).
Defined.

(** X18 with the engine whose update of the energy contributions fails. *)
Lemma X18_witness :
  exists w' ham',
    @Hamiltonian_Set_Field demo_collaborators faulty_engine 1 (0, 0, 2) 0 0 demo_world
      = Ret tt w'
    /\ heisenberg_at w' (0, 0)%Z ham'
    /\ external_field_magnitude ham' = 1 * mu_B
    /\ external_field_normal ham' = normalize (Vector3_of (0, 0, 2))
    /\ derived ham' = []
    /\ log w' = log demo_world ++ [fault_entry (Exception "std::bad_alloc") 0 0].
Proof.
  exact (@X18_engine_fault_is_not_rolled_back demo_collaborators faulty_engine
           demo_world 0 0 demo_image demo_heisenberg 1 (0, 0, 2) []
           (Exception "std::bad_alloc") eq_refl eq_refl eq_refl).
Defined.
